(** * facsimile: deep duplication of JavaScript values

    A shallow embedding of [src/facsimile.js].  JavaScript values live in
    an explicit heap so that object identity, aliasing and mutation of the
    freshly allocated copies are visible.  The call stack is a natural
    number: the number of nested strategy calls still available. *)

From Stdlib Require Import ZArith Lia DecimalString.
From stdpp Require Import base relations list strings.

Open Scope string_scope.
Open Scope list_scope.

(** ** Values, property keys and type tags *)

(** Heap locations. *)
Abbreviation loc := nat (only parsing).

(** A property key is either a canonical array index or any other name. *)
Inductive key :=
| KIdx (i : nat)
| KStr (s : string).

(** Numbers are the integer-valued doubles; symbols are numbered tokens. *)
Inductive val :=
| VUndefined
| VNull
| VBoolean (b : bool)
| VNumber (z : Z)
| VString (s : string)
| VSymbol (id : nat)
| VRef (l : loc).

(** Modelled from the spec: the constants [types] of the package tupos,
    which is not among the sources.  One tag per key of the dispatch table,
    and [OTHER] for every tag the classifier may yield beyond them: the
    name of a class the table does not list, which may be the name of a
    member the table object inherits from [Object.prototype]. *)
Inductive tag :=
| STRING | NUMBER | BOOLEAN | NULL | UNDEFINED | SYMBOL
| FUNCTION | ERROR | REGEXP | DATE | OBJECT | ARRAY
| MAP | WEAKMAP | SET | WEAKSET | MATH | PROMISE
| INT8ARRAY | UINT8ARRAY | UINT8CLAMPEDARRAY | INT16ARRAY | UINT16ARRAY
| INT32ARRAY | UINT32ARRAY | FLOAT32ARRAY | FLOAT64ARRAY
| ARRAYBUFFER | DATAVIEW | JSON | GENERATOR | GENERATORFUNC | WASM
| ASYNCFUNC
| OTHER (name : string).

(** The values that are not objects.  The own [message] of an error is one
    of them: a message that is an object would be converted to a string by
    the methods of that object, code that the heap does not hold. *)
Inductive primitive :=
| UndefinedP
| NullP
| BooleanP (b : bool)
| NumberP (z : Z)
| StringP (s : string)
| SymbolP (id : nat).

Global Instance primitive_eq_dec : EqDecision primitive.
Proof. solve_decision. Defined.
Global Instance key_eq_dec : EqDecision key.
Proof. solve_decision. Defined.
Global Instance val_eq_dec : EqDecision val.
Proof. solve_decision. Defined.
Global Instance tag_eq_dec : EqDecision tag.
Proof. solve_decision. Defined.

(** ** Heap objects *)

(** The [[Prototype]] slot.  The intrinsic prototypes are pristine: they
    carry no enumerable property. *)
Inductive proto :=
| PNull
| PObjectPrototype
| PArrayPrototype
| PRef (l : loc).

Record prop := mkProp { pvalue : val; penum : bool }.

Abbreviation props := (list (key * prop)) (only parsing).

Inductive func_kind := PlainFunc | GeneratorFunc | AsyncFunc.

Inductive ta_kind :=
| Int8 | Uint8 | Uint8Clamped | Int16 | Uint16
| Int32 | Uint32 | Float32 | Float64.

(** Objects the engine hands back untouched, and objects of classes that
    the dispatch table does not list. *)
Inductive opaque_kind :=
| Math_ | JSON_ | Generator_ | Wasm_
| Unlisted (name : string).

(** Where a call-stack capture was taken. *)
Inductive capture := CapturedAt (site : string).

Inductive settle :=
| Pending
| Fulfilled (v : val)
| Rejected (v : val).

(** Plain objects and arrays carry user properties and a prototype; the
    other built-in kinds are given by their internal slots.  A promise made
    by [then] keeps, in [follows], the promise it was made from: it stands
    for the reaction that [then] has registered on that promise, whose
    capability it is.  The reactions of a promise and its handled flag are
    read from the heap, by [reactions] and [PromiseIsHandled] below, so
    that registering a reaction adds to the heap and moves no object.  An error keeps
    the [name] found on its prototype chain, its own [message] and [name]
    when present, its stack capture and its custom fields; the [message]
    found on its prototype chain is the empty string of [Error.prototype]. *)
Inductive object :=
| OObject (p : proto) (ps : props)
| OArray (p : proto) (len : nat) (ps : props)
| OError (pname : string) (message : option primitive) (name : option val)
         (stack : capture) (fields : list (key * val))
| OFunction (k : func_kind) (src : string) (parses : bool)
| ORegExp (source flags : string) (lastIndex : nat)
| ODate (tv : Z)
| OMap (entries : list (val * val))
| OWeakMap (entries : list (val * val))
| OSet (elems : list val)
| OWeakSet (elems : list val)
| OPromise (follows : option loc) (st : settle)
| OTypedArray (k : ta_kind) (elems : list Z)
| OArrayBuffer (bytes : list Z)
| ODataView (buffer : loc) (byteOffset byteLength : nat)
| OOpaque (k : opaque_kind).

Abbreviation heap := (list object) (only parsing).

(** ** The classifier [typeOf] *)

Definition ta_tag (k : ta_kind) : tag :=
  match k with
  | Int8 => INT8ARRAY | Uint8 => UINT8ARRAY
  | Uint8Clamped => UINT8CLAMPEDARRAY
  | Int16 => INT16ARRAY | Uint16 => UINT16ARRAY
  | Int32 => INT32ARRAY | Uint32 => UINT32ARRAY
  | Float32 => FLOAT32ARRAY | Float64 => FLOAT64ARRAY
  end.

Definition object_tag (o : object) : tag :=
  match o with
  | OObject _ _ => OBJECT
  | OArray _ _ _ => ARRAY
  | OError _ _ _ _ _ => ERROR
  | OFunction PlainFunc _ _ => FUNCTION
  | OFunction GeneratorFunc _ _ => GENERATORFUNC
  | OFunction AsyncFunc _ _ => ASYNCFUNC
  | ORegExp _ _ _ => REGEXP
  | ODate _ => DATE
  | OMap _ => MAP
  | OWeakMap _ => WEAKMAP
  | OSet _ => SET
  | OWeakSet _ => WEAKSET
  | OPromise _ _ => PROMISE
  | OTypedArray k _ => ta_tag k
  | OArrayBuffer _ => ARRAYBUFFER
  | ODataView _ _ _ => DATAVIEW
  | OOpaque Math_ => MATH
  | OOpaque JSON_ => JSON
  | OOpaque Generator_ => GENERATOR
  | OOpaque Wasm_ => WASM
  | OOpaque (Unlisted s) => OTHER s
  end.

(** Modelled from the spec: the classifier [typeOf] of the package tupos,
    which is not among the sources; the spec takes it to identify the
    runtime category of every value correctly and exhaustively.  A
    reference always points into the heap; the last case is never reached
    on a well-formed heap. *)
Definition typeOf (h : heap) (v : val) : tag :=
  match v with
  | VUndefined => UNDEFINED
  | VNull => NULL
  | VBoolean _ => BOOLEAN
  | VNumber _ => NUMBER
  | VString _ => STRING
  | VSymbol _ => SYMBOL
  | VRef l =>
      match h !! l with
      | Some o => object_tag o
      | None => UNDEFINED
      end
  end.

(** ** Properties: own lookup, key order, prototype chain *)

Fixpoint assoc {A} (k : key) (ps : list (key * A)) : option A :=
  match ps with
  | [] => None
  | (k', a) :: ps' => if decide (k = k') then Some a else assoc k ps'
  end.

(** Assignment to a data property: an existing binding keeps its place
    and attributes, a new one is enumerable and the youngest of its
    object. *)
Fixpoint put (k : key) (v : val) (ps : props) : props :=
  match ps with
  | [] => [(k, mkProp v true)]
  | (k', p) :: ps' =>
      if decide (k = k') then (k, mkProp v (penum p)) :: ps'
      else (k', p) :: put k v ps'
  end.

Definition length_key : key := KStr "length".
Definition proto_key : key := KStr "__proto__".

Definition own_props (o : object) : props :=
  match o with
  | OObject _ ps => ps
  | OArray _ _ ps => ps
  | _ => []
  end.

Definition proto_of (o : object) : proto :=
  match o with
  | OObject p _ => p
  | OArray p _ _ => p
  | _ => PObjectPrototype
  end.

(** [[GetOwnProperty]]: an array owns a non-enumerable [length], a typed
    array owns its elements. *)
Definition own_lookup (o : object) (k : key) : option prop :=
  match o with
  | OArray _ len ps =>
      if decide (k = length_key) then Some (mkProp (VNumber (Z.of_nat len)) false)
      else assoc k ps
  | OTypedArray _ elems =>
      match k with
      | KIdx i => (fun z => mkProp (VNumber z) true) <$> elems !! i
      | KStr _ => None
      end
  | _ => assoc k (own_props o)
  end.

(** [[OwnPropertyKeys]]: index keys in ascending order, then the other
    names in creation order. *)
Fixpoint insert_idx (i : nat) (e : bool) (l : list (key * bool))
  : list (key * bool) :=
  match l with
  | (KIdx j, e') :: l' =>
      if (i <=? j)%nat then (KIdx i, e) :: l
      else (KIdx j, e') :: insert_idx i e l'
  | _ => (KIdx i, e) :: l
  end.

Fixpoint idx_listing (ps : props) : list (key * bool) :=
  match ps with
  | [] => []
  | (KIdx i, p) :: ps' => insert_idx i (penum p) (idx_listing ps')
  | (KStr _, _) :: ps' => idx_listing ps'
  end.

Fixpoint name_listing (ps : props) : list (key * bool) :=
  match ps with
  | [] => []
  | (KIdx _, _) :: ps' => name_listing ps'
  | (KStr s, p) :: ps' => (KStr s, penum p) :: name_listing ps'
  end.

Definition own_listing (o : object) : list (key * bool) :=
  match o with
  | OArray _ _ ps =>
      idx_listing ps ++ (length_key, false) :: name_listing ps
  | OTypedArray _ elems => (fun i => (KIdx i, true)) <$> seq 0 (length elems)
  | _ => idx_listing (own_props o) ++ name_listing (own_props o)
  end.

Definition own_keys (o : object) : list key :=
  (filter (fun e => e.2 = true) (own_listing o)).*1.

(** One object of a for-in enumeration: every own key not yet visited is
    marked visited, and reported when it is enumerable. *)
Fixpoint enumerate (l : list (key * bool)) (visited : list key)
  : list key * list key :=
  match l with
  | [] => ([], visited)
  | (k, e) :: l' =>
      if decide (k ∈ visited) then enumerate l' visited
      else
        let '(ks, vis) := enumerate l' (k :: visited) in
        (if e then k :: ks else ks, vis)
  end.

(** for-in: the object, then its prototype chain.  [fuel] bounds the
    length of the chain; [None] when it is exceeded or a reference
    dangles. *)
Fixpoint forin_from (fuel : nat) (h : heap) (p : proto) (visited : list key)
  : option (list key) :=
  match p with
  | PNull | PObjectPrototype | PArrayPrototype => Some []
  | PRef l =>
      match fuel, h !! l with
      | S fuel', Some o =>
          let '(ks, vis) := enumerate (own_listing o) visited in
          match forin_from fuel' h (proto_of o) vis with
          | Some ks' => Some (ks ++ ks')
          | None => None
          end
      | _, _ => None
      end
  end.

Definition forin_keys (h : heap) (l : loc) : list key :=
  default [] (forin_from (S (length h)) h (PRef l) []).

(** [[Get]] along the prototype chain; the intrinsic prototypes hold
    nothing a for-in key can name. *)
Fixpoint get_from (fuel : nat) (h : heap) (p : proto) (k : key) : option val :=
  match p with
  | PNull | PObjectPrototype | PArrayPrototype => Some VUndefined
  | PRef l =>
      match fuel, h !! l with
      | S fuel', Some o =>
          match own_lookup o k with
          | Some pr => Some (pvalue pr)
          | None => get_from fuel' h (proto_of o) k
          end
      | _, _ => None
      end
  end.

Definition Get (h : heap) (l : loc) (k : key) : val :=
  default VUndefined (get_from (S (length h)) h (PRef l) k).

(** ** Outcomes *)

Inductive error :=
| TypeError_not_a_function (t : tag)
| TypeError_not_iterable
| TypeError_invalid_weak_key
| TypeError_shape
| SyntaxError
| RangeError_call_stack
| RangeError_invalid_length
| TypeError_view_out_of_bounds
| TypeError_symbol_to_string
| TypeError_accessor_not_callable
| TypeError_read_only.

(** A call returns a value or throws; both leave a heap behind. *)
Inductive outcome :=
| Ret (h : heap) (v : val)
| Throw (h : heap) (e : error).

(** An object under construction is not reachable from any other object
    before its strategy returns it: it is threaded as a local value and
    enters the heap, at a fresh location, when the strategy returns. *)
Definition alloc (h : heap) (o : object) : outcome :=
  Ret (h ++ [o]) (VRef (length h)).

Inductive built :=
| Built (h : heap) (o : object)
| Failed (h : heap) (e : error).

Definition finish (b : built) : outcome :=
  match b with
  | Built h o => alloc h o
  | Failed h e => Throw h e
  end.

(** ** Assignment [target[key] = v] *)

(** Does an assignment to [__proto__] reach the accessor of
    [Object.prototype]?  A data property of that name on the way hides it. *)
Fixpoint proto_setter_from (fuel : nat) (h : heap) (p : proto) : bool :=
  match p with
  | PNull => false
  | PObjectPrototype | PArrayPrototype => true
  | PRef l =>
      match fuel, h !! l with
      | S fuel', Some o =>
          match own_lookup o proto_key with
          | Some _ => false
          | None => proto_setter_from fuel' h (proto_of o)
          end
      | _, _ => false
      end
  end.

(** The accessor replaces the prototype by an object or by null and
    ignores every other value. *)
Definition set_proto (p : proto) (v : val) : proto :=
  match v with
  | VRef l => PRef l
  | VNull => PNull
  | _ => p
  end.

Definition assigns_proto (h : heap) (p : proto) (ps : props) (k : key) : bool :=
  bool_decide (k = proto_key)
  && bool_decide (assoc k ps = None)
  && proto_setter_from (S (length h)) h p.

(** The names under which an object of a built-in kind, or the built-in
    prototype it inherits from, holds a data property that cannot be
    written or an accessor without a setter (ECMAScript 2024; a function
    made from a class text has a [prototype] that cannot be written).
    The objects handed back as they are hold no property in this model,
    except [Math], whose constants cannot be written. *)
Definition read_only_names (o : object) : list string :=
  match o with
  | OFunction _ src _ =>
      (if String.prefix "class" src then ["prototype"] else [])
      ++ ["length"; "name"; "arguments"; "caller"]
  | ORegExp _ _ _ =>
      ["dotAll"; "flags"; "global"; "hasIndices"; "ignoreCase"; "multiline";
       "source"; "sticky"; "unicode"; "unicodeSets"]
  | OMap _ | OSet _ => ["size"]
  | OTypedArray _ _ =>
      ["BYTES_PER_ELEMENT"; "buffer"; "byteLength"; "byteOffset"; "length"]
  | OArrayBuffer _ => ["byteLength"; "detached"; "maxByteLength"; "resizable"]
  | ODataView _ _ _ => ["buffer"; "byteLength"; "byteOffset"]
  | OOpaque Math_ =>
      ["E"; "LN10"; "LN2"; "LOG10E"; "LOG2E"; "PI"; "SQRT1_2"; "SQRT2"]
  | _ => []
  end.

Definition read_only (o : object) (k : key) : bool :=
  match k with
  | KStr s => bool_decide (s ∈ read_only_names o)
  | KIdx _ => false
  end.

(** A typed array answers for every index, also past its end. *)
Definition past_the_end (o : object) (k : key) : bool :=
  match o, k with
  | OTypedArray _ elems, KIdx i => bool_decide (length elems <= i)
  | _, _ => false
  end.

(** What an assignment to a key that the target does not own meets on the
    prototype chain of the target.  A data property that can be written,
    or nothing, and the target gets a property of its own; a property that
    cannot be written or an accessor without a setter, and the assignment
    throws in strict code; a typed array that has no such index, and
    nothing happens.  The accessor [__proto__] of [Object.prototype] is
    treated apart, by [assigns_proto]. *)
Inductive set_effect := Creates | Throws | Ignored.

Fixpoint inherited_set (fuel : nat) (h : heap) (p : proto) (k : key) : set_effect :=
  match p with
  | PNull | PObjectPrototype | PArrayPrototype => Creates
  | PRef l =>
      match fuel, h !! l with
      | S fuel', Some o =>
          match own_lookup o k with
          | Some _ => Creates
          | None =>
              if past_the_end o k then Ignored
              else if read_only o k then Throws
              else inherited_set fuel' h (proto_of o) k
          end
      | _, _ => Creates
      end
  end.

(** [target[k] = v] on a key other than [length] of an array, when the
    setter of [__proto__] is not reached: the property is written where the
    target owns it, and else as the prototype chain allows. *)
Definition set_own (h : heap) (p : proto) (ps : props) (k : key) (v : val)
  : option props + error :=
  match assoc k ps, inherited_set (S (length h)) h p k with
  | None, Throws => inr TypeError_read_only
  | None, Ignored => inl None
  | _, _ => inl (Some (put k v ps))
  end.

(** Shrinking an array drops the elements past the new length. *)
Definition below (n : nat) (e : key * prop) : bool :=
  match e.1 with
  | KIdx i => (i <? n)%nat
  | KStr _ => true
  end.

(** Assigning [length] converts the value with ToNumber; only the number
    case is spelled out, [duplicateArray] never gets there because for-in
    over an array does not list [length].  A typed array stores numbers at
    its indices. *)
Definition assign (h : heap) (target : object) (k : key) (v : val)
  : object + error :=
  match target with
  | OObject p ps =>
      if assigns_proto h p ps k then inl (OObject (set_proto p v) ps)
      else
        match set_own h p ps k v with
        | inl (Some ps') => inl (OObject p ps')
        | inl None => inl target
        | inr e => inr e
        end
  | OArray p len ps =>
      if assigns_proto h p ps k then inl (OArray (set_proto p v) len ps)
      else if decide (k = length_key) then
        match v with
        | VNumber z =>
            if decide (0 <= z < 2 ^ 32)%Z then
              inl (OArray p (Z.to_nat z) (filter (below (Z.to_nat z)) ps))
            else inr RangeError_invalid_length
        | _ => inr RangeError_invalid_length
        end
      else
        match set_own h p ps k v with
        | inl (Some ps') =>
            inl (OArray p (match k with
                           | KIdx i => len `max` S i
                           | KStr _ => len
                           end) ps')
        | inl None => inl target
        | inr e => inr e
        end
  | OTypedArray c elems =>
      match k, v with
      | KIdx i, VNumber z => inl (OTypedArray c (<[i := z]> elems))
      | _, _ => inl target
      end
  | _ => inl target
  end.

(** ** The strategies of [facsimile.js]

    A strategy is entered through the dispatch table only, hence with a
    reference to an object of its own tag; the remaining match arms are
    dead and end in [TypeError_shape]. *)

Definition strategy := heap -> val -> outcome.

Definition identity : strategy := fun h item => Ret h item.

(** [Function("return " + func)()]: the source text is parsed again, which
    fails for native functions and method shorthands. *)
Definition duplicateFunction : strategy := fun h func =>
  match func with
  | VRef l =>
      match h !! l with
      | Some (OFunction k src parses) =>
          if parses then alloc h (OFunction k src true)
          else Throw h SyntaxError
      | _ => Throw h TypeError_shape
      end
  | _ => Throw h TypeError_shape
  end.

(** [err.message]: the own message, or the empty one of the prototype. *)
Definition error_message (o : object) : primitive :=
  match o with
  | OError _ (Some m) _ _ _ => m
  | _ => StringP ""
  end.

(** The double nearest to a positive integer: 53 significant bits, ties to
    the even one. *)
Definition nearest_double (q : Z) : Z :=
  let b := (Z.log2 q + 1)%Z in
  if (b <=? 53)%Z then q else
  let sh := (b - 53)%Z in
  let hi := Z.shiftr q sh in
  let lo := Z.land q (Z.ones sh) in
  let half := Z.shiftl 1 (sh - 1) in
  let hi' :=
    if (half <? lo)%Z || ((lo =? half)%Z && Z.odd hi) then (hi + 1)%Z else hi in
  Z.shiftl hi' sh.

Definition decimal (z : Z) : string := NilZero.string_of_int (Z.to_int z).

Definition count_digits (x : Z) : Z := Z.of_nat (String.length (decimal x)).

(** The [k]-digit integer [s], if any, for which [s * 10 ^ (d - k)] reads
    back as the double [x] of [d] digits: the closest to [x], the even one
    of two; with the exponent [n] of Number::toString. *)
Definition candidate (x d k : Z) : option (Z * Z) :=
  if (d <? k)%Z then None else
  let p := (10 ^ (d - k))%Z in
  let lo := (x / p)%Z in
  let hi := (lo + 1)%Z in
  let ok s := (nearest_double (s * p) =? x)%Z in
  let pick :=
    match ok lo, ok hi with
    | true, true =>
        if (x - lo * p <? hi * p - x)%Z then Some lo
        else if (hi * p - x <? x - lo * p)%Z then Some hi
        else if Z.even lo then Some lo else Some hi
    | true, false => Some lo
    | false, true => Some hi
    | false, false => None
    end in
  (fun s => if (s =? 10 ^ k)%Z then ((10 ^ (k - 1))%Z, (d + 1)%Z) else (s, d))
    <$> pick.

(** The fewest digits that denote [x]: seventeen always do. *)
Definition shortest (x : Z) : Z * Z :=
  let d := count_digits x in
  default (x, d) (head (omap (candidate x d) (Z.of_nat <$> seq 1 17))).

Definition zeros (n : Z) : string :=
  String.concat "" (replicate (Z.to_nat n) "0").

(** Number::toString on an integer: the shortest digits that read back as
    the same double, followed by zeros up to 21 digits, with an exponent
    beyond. *)
Definition Number_toString (z : Z) : string :=
  if (z =? 0)%Z then "0" else
  let sign := if (z <? 0)%Z then "-" else "" in
  let x := nearest_double (Z.abs z) in
  if (2 ^ 1024 <=? x)%Z then sign +:+ "Infinity" else
  let '(s, n) := shortest x in
  let digits := decimal s in
  let k := Z.of_nat (String.length digits) in
  if (n <=? 21)%Z then sign +:+ digits +:+ zeros (n - k)
  else
    match digits with
    | String c rest =>
        sign +:+ String c (if (k =? 1)%Z then "" else "." +:+ rest)
             +:+ "e+" +:+ decimal (n - 1)
    | EmptyString => sign
    end.

(** ToString of a primitive value; a symbol has no string. *)
Definition ToString (v : primitive) : string + error :=
  match v with
  | UndefinedP => inl "undefined"
  | NullP => inl "null"
  | BooleanP true => inl "true"
  | BooleanP false => inl "false"
  | NumberP z => inl (Number_toString z)
  | StringP s => inl s
  | SymbolP _ => inr TypeError_symbol_to_string
  end.

(** [new Error(message)]: unless the argument is undefined, the new error
    owns a [message], the argument converted to a string.  The new error
    inherits its [name] from [Error.prototype]. *)
Definition new_Error (message : primitive) (site : string) : object + error :=
  match message with
  | UndefinedP => inl (OError "Error" None None (CapturedAt site) [])
  | _ =>
      match ToString message with
      | inl s => inl (OError "Error" (Some (StringP s)) None (CapturedAt site) [])
      | inr e => inr e
      end
  end.

(** [err.name]: the own name, or the one found on the prototype chain. *)
Definition error_name (o : object) : val :=
  match o with
  | OError pname _ name _ _ => default (VString pname) name
  | _ => VUndefined
  end.

(** [newErr.name = v]: an own, enumerable [name]. *)
Definition set_name (o : object) (v : val) : object :=
  match o with
  | OError pname message _ stack fields =>
      OError pname message (Some v) stack fields
  | _ => o
  end.

(** [new Error(err.message)], then [newErr.name = err.name]. *)
Definition duplicateError : strategy := fun h err =>
  match err with
  | VRef l =>
      match h !! l with
      | Some (OError _ _ _ _ _ as o) =>
          match new_Error (error_message o) "duplicateError" with
          | inl newErr => alloc h (set_name newErr (error_name o))
          | inr e => Throw h e
          end
      | _ => Throw h TypeError_shape
      end
  | _ => Throw h TypeError_shape
  end.

Definition duplicateRegExp : strategy := fun h regex =>
  match regex with
  | VRef l =>
      match h !! l with
      | Some (ORegExp source flags _) =>
          alloc h (ORegExp source flags 0)
      | _ => Throw h TypeError_shape
      end
  | _ => Throw h TypeError_shape
  end.

Definition duplicateDate : strategy := fun h dt =>
  match dt with
  | VRef l =>
      match h !! l with
      | Some (ODate tv) => alloc h (ODate tv)
      | _ => Throw h TypeError_shape
      end
  | _ => Throw h TypeError_shape
  end.

Section Strategies.

(** The nested call [_duplicate[typeOf(x)](x)]. *)
Variable dispatch : strategy.

(** The body of the three for-in loops: [target[key] =
    _duplicate[typeOf(src[key])](src[key])] for every key. *)
Fixpoint copy_keys (h : heap) (src : loc) (target : object) (ks : list key)
  : built :=
  match ks with
  | [] => Built h target
  | key :: ks' =>
      match dispatch h (Get h src key) with
      | Ret h1 v =>
          match assign h1 target key v with
          | inl target' => copy_keys h1 src target' ks'
          | inr e => Failed h1 e
          end
      | Throw h1 e => Failed h1 e
      end
  end.

Definition duplicateObject : strategy := fun h obj =>
  match obj with
  | VRef l =>
      let retObj := OObject PObjectPrototype [] in
      finish (copy_keys h l retObj (forin_keys h l))
  | _ => Throw h TypeError_shape
  end.

Definition duplicateArray : strategy := fun h arr =>
  match arr with
  | VRef l =>
      let retArr := OArray PArrayPrototype 0 [] in
      finish (copy_keys h l retArr (forin_keys h l))
  | _ => Throw h TypeError_shape
  end.

Definition duplicateTypedArray (constructor : ta_kind) : strategy :=
  fun h typedArr =>
  match typedArr with
  | VRef l =>
      match h !! l with
      | Some (OTypedArray _ elems) =>
          let newTypedArr :=
            OTypedArray constructor (replicate (length elems) 0%Z) in
          finish (copy_keys h l newTypedArr (forin_keys h l))
      | _ => Throw h TypeError_shape
      end
  | _ => Throw h TypeError_shape
  end.

End Strategies.

(** The collection constructors handed to [duplicateMapType] and
    [duplicateSetType]. *)
Inductive map_constructor := Map_ | WeakMap_.
Inductive set_constructor := Set_ | WeakSet_.

(** [map.set(k, v)] and [set.add(x)] as the constructors call them. *)
Fixpoint map_set (k v : val) (es : list (val * val)) : list (val * val) :=
  match es with
  | [] => [(k, v)]
  | (k', v') :: es' =>
      if decide (k = k') then (k, v) :: es' else (k', v') :: map_set k v es'
  end.

Definition set_add (x : val) (xs : list val) : list val :=
  if decide (x ∈ xs) then xs else xs ++ [x].

Definition is_ref (v : val) : bool :=
  match v with VRef _ => true | _ => false end.

(** [new constructor(map)]: the argument is iterated, which only a strong
    collection supports, and every entry is added in turn. *)
Definition duplicateMapType (constructor : map_constructor) : strategy :=
  fun h map =>
  match map with
  | VRef l =>
      match h !! l with
      | Some (OMap entries) =>
          let es := foldl (fun acc e => map_set e.1 e.2 acc) [] entries in
          match constructor with
          | Map_ => alloc h (OMap es)
          | WeakMap_ =>
              if forallb (fun e => is_ref e.1) entries
              then alloc h (OWeakMap es)
              else Throw h TypeError_invalid_weak_key
          end
      | Some (OWeakMap _) => Throw h TypeError_not_iterable
      | _ => Throw h TypeError_shape
      end
  | _ => Throw h TypeError_shape
  end.

Definition duplicateSetType (constructor : set_constructor) : strategy :=
  fun h set =>
  match set with
  | VRef l =>
      match h !! l with
      | Some (OSet elems) =>
          let xs := foldl (fun acc x => set_add x acc) [] elems in
          match constructor with
          | Set_ => alloc h (OSet xs)
          | WeakSet_ =>
              if forallb is_ref elems
              then alloc h (OWeakSet xs)
              else Throw h TypeError_invalid_weak_key
          end
      | Some (OWeakSet _) => Throw h TypeError_not_iterable
      | _ => Throw h TypeError_shape
      end
  | _ => Throw h TypeError_shape
  end.

(** The reactions registered on the promise at [l]: one for each promise
    that follows it, in the order of the calls of [then]. *)
Definition origin (o : object) : option loc :=
  match o with
  | OPromise f _ => f
  | _ => None
  end.

Fixpoint reactions_from (n : nat) (h : heap) (l : loc) : list loc :=
  match h with
  | [] => []
  | o :: h' =>
      if decide (origin o = Some l) then n :: reactions_from (S n) h' l
      else reactions_from (S n) h' l
  end.

Definition reactions (h : heap) (l : loc) : list loc := reactions_from 0 h l.

(** The slot [[PromiseIsHandled]]: set by the first reaction. *)
Definition PromiseIsHandled (h : heap) (l : loc) : bool :=
  negb (bool_decide (reactions h l = [])).

(** [promise.then()]: a new, pending promise that follows the original.
    This is a side effect on the original: the new promise is one more of
    its reactions, and the original is handled from now on. *)
Definition duplicatePromise : strategy := fun h promise =>
  match promise with
  | VRef l =>
      match h !! l with
      | Some (OPromise _ _) =>
          alloc h (OPromise (Some l) Pending)
      | _ => Throw h TypeError_shape
      end
  | _ => Throw h TypeError_shape
  end.

(** ToIndex of the requested size; undefined counts as zero. *)
Definition ToIndex (v : val) : nat :=
  match v with
  | VNumber z => Z.to_nat z
  | _ => 0
  end.

(** [new ArrayBuffer(arrBuff.length)]: an array buffer has a [byteLength]
    and no [length], so the property read goes up the prototype chain and
    finds nothing. *)
Definition duplicateArrayBuffer : strategy := fun h arrBuff =>
  match arrBuff with
  | VRef l =>
      match h !! l with
      | Some (OArrayBuffer _) =>
          alloc h (OArrayBuffer (replicate (ToIndex (Get h l length_key)) 0%Z))
      | _ => Throw h TypeError_shape
      end
  | _ => Throw h TypeError_shape
  end.

(** [new DataView(dv.buffer, dv.byteOffset, dv.byteLength)]: a new view of
    the same buffer.  The arguments are read first: [dv.buffer] always
    answers, and the accessors [byteOffset] and [byteLength] throw a
    TypeError when the view reaches past the end of its buffer, which
    happens once the buffer has been shrunk or detached after the view was
    made.  With the three values of a view in bounds the constructor does
    not fail. *)
Definition duplicateDataView : strategy := fun h dv =>
  match dv with
  | VRef l =>
      match h !! l with
      | Some (ODataView buffer byteOffset byteLength) =>
          match h !! buffer with
          | Some (OArrayBuffer bytes) =>
              if (byteOffset + byteLength <=? length bytes)%nat then
                alloc h (ODataView buffer byteOffset byteLength)
              else Throw h TypeError_view_out_of_bounds
          | _ => Throw h TypeError_shape
          end
      | _ => Throw h TypeError_shape
      end
  | _ => Throw h TypeError_shape
  end.

(** ** The dispatch table and the entry point *)

Definition _duplicate (dispatch : strategy) (t : tag) : option strategy :=
  match t with
  | STRING => Some identity
  | NUMBER => Some identity
  | BOOLEAN => Some identity
  | NULL => Some identity
  | UNDEFINED => Some identity
  | SYMBOL => Some identity
  | FUNCTION => Some duplicateFunction
  | ERROR => Some duplicateError
  | REGEXP => Some duplicateRegExp
  | DATE => Some duplicateDate
  | OBJECT => Some (duplicateObject dispatch)
  | ARRAY => Some (duplicateArray dispatch)
  | MAP => Some (duplicateMapType Map_)
  | WEAKMAP => Some (duplicateMapType WeakMap_)
  | SET => Some (duplicateSetType Set_)
  | WEAKSET => Some (duplicateSetType WeakSet_)
  | MATH => Some identity
  | PROMISE => Some duplicatePromise
  | INT8ARRAY => Some (duplicateTypedArray dispatch Int8)
  | UINT8ARRAY => Some (duplicateTypedArray dispatch Uint8)
  | UINT8CLAMPEDARRAY => Some (duplicateTypedArray dispatch Uint8Clamped)
  | INT16ARRAY => Some (duplicateTypedArray dispatch Int16)
  | UINT16ARRAY => Some (duplicateTypedArray dispatch Uint16)
  | INT32ARRAY => Some (duplicateTypedArray dispatch Int32)
  | UINT32ARRAY => Some (duplicateTypedArray dispatch Uint32)
  | FLOAT32ARRAY => Some (duplicateTypedArray dispatch Float32)
  | FLOAT64ARRAY => Some (duplicateTypedArray dispatch Float64)
  | ARRAYBUFFER => Some duplicateArrayBuffer
  | DATAVIEW => Some duplicateDataView
  | JSON => Some identity
  | GENERATOR => Some identity
  | GENERATORFUNC => Some duplicateFunction
  | WASM => Some identity
  | ASYNCFUNC => Some duplicateFunction
  | OTHER _ => None
  end.

(** The table is an object literal, so it inherits from
    [Object.prototype]: a tag that is none of its keys but the name of a
    property of [Object.prototype] finds that property. *)
Inductive member :=
| Constructor | ToString_ | ToLocaleString | ValueOf
| HasOwnProperty | PropertyIsEnumerable | IsPrototypeOf
| LookupGetter | LookupSetter | DefineGetter | DefineSetter
| Proto.

Global Instance member_eq_dec : EqDecision member.
Proof. solve_decision. Defined.

Definition Object_prototype (name : string) : option member :=
  match name with
  | "constructor" => Some Constructor
  | "toString" => Some ToString_
  | "toLocaleString" => Some ToLocaleString
  | "valueOf" => Some ValueOf
  | "hasOwnProperty" => Some HasOwnProperty
  | "propertyIsEnumerable" => Some PropertyIsEnumerable
  | "isPrototypeOf" => Some IsPrototypeOf
  | "__lookupGetter__" => Some LookupGetter
  | "__lookupSetter__" => Some LookupSetter
  | "__defineGetter__" => Some DefineGetter
  | "__defineSetter__" => Some DefineSetter
  | "__proto__" => Some Proto
  | _ => None
  end.

(** [Object(value)] hands an object back as it is.  Only an object has a
    tag that is no key of the table; the other arm is dead. *)
Definition Object_ : strategy := fun h value =>
  match value with
  | VRef _ => Ret h value
  | _ => Throw h TypeError_shape
  end.

(** The call [_duplicate[name](elem)] of an inherited member: the receiver
    is the table, the only argument an object of an unlisted class, which
    holds no property in this model.
    - [constructor] is [Object];
    - [toString] and [toLocaleString] describe the table;
    - [valueOf] returns the table itself.  The table is an object of the
      module and no object of this heap: where it is handed out, a new
      plain object stands for it, without its properties, which are the
      strategies;
    - [hasOwnProperty], [propertyIsEnumerable], [__lookupGetter__] and
      [__lookupSetter__] convert the argument to a property key, here with
      the [toString] it inherits, which yields a text in square brackets:
      no property of the table or of [Object.prototype] has such a name;
      [isPrototypeOf] does not find the table on the prototype chain of
      the argument;
    - [__defineGetter__] and [__defineSetter__] reject the accessor, which
      is undefined;
    - [__proto__] is an accessor property: its value is
      [Object.prototype], which cannot be called. *)
Definition inherited (m : member) : option strategy :=
  match m with
  | Constructor => Some Object_
  | ToString_ | ToLocaleString =>
      Some (fun h _ => Ret h (VString "[object Object]"))
  | ValueOf => Some (fun h _ => alloc h (OObject PObjectPrototype []))
  | HasOwnProperty | PropertyIsEnumerable | IsPrototypeOf =>
      Some (fun h _ => Ret h (VBoolean false))
  | LookupGetter | LookupSetter => Some (fun h _ => Ret h VUndefined)
  | DefineGetter | DefineSetter =>
      Some (fun h _ => Throw h TypeError_accessor_not_callable)
  | Proto => None
  end.

(** The property read [_duplicate[t]]: an own entry of the table, or else
    what [Object.prototype] holds under that name, when it is a function. *)
Definition lookup (dispatch : strategy) (t : tag) : option strategy :=
  match _duplicate dispatch t with
  | Some f => Some f
  | None =>
      match t with
      | OTHER name => Object_prototype name ≫= inherited
      | _ => None
      end
  end.

(** A nested call with no stack left. *)
Definition overflow : strategy := fun h _ => Throw h RangeError_call_stack.

(** [duplicate depth h elem]: [depth] nested strategy calls are available
    below this one.  A tag under which the table holds no function makes
    the call fail. *)
Fixpoint duplicate (depth : nat) (h : heap) (elem : val) : outcome :=
  let dispatch :=
    match depth with
    | O => overflow
    | S depth' => duplicate depth'
    end in
  match lookup dispatch (typeOf h elem) with
  | Some f => f h elem
  | None => Throw h (TypeError_not_a_function (typeOf h elem))
  end.

(** ** Well-formed heaps

    No reference dangles, prototype chains end, and the keys of a map and
    the elements of a set are pairwise distinct. *)

Definition val_ok (n : nat) (v : val) : bool :=
  match v with
  | VRef l => bool_decide (l < n)
  | _ => true
  end.

Fixpoint chain_ok (fuel : nat) (h : heap) (p : proto) : bool :=
  match p with
  | PNull | PObjectPrototype | PArrayPrototype => true
  | PRef l =>
      match fuel, h !! l with
      | S fuel', Some o => chain_ok fuel' h (proto_of o)
      | _, _ => false
      end
  end.

Definition settle_ok (n : nat) (st : settle) : bool :=
  match st with
  | Pending => true
  | Fulfilled v => val_ok n v
  | Rejected v => val_ok n v
  end.

(** [fuel] bounds the length of the prototype chain of [o]. *)
Definition object_ok (fuel : nat) (h : heap) (o : object) : bool :=
  let n := length h in
  match o with
  | OObject p ps =>
      chain_ok fuel h p && forallb (fun e => val_ok n (pvalue e.2)) ps
  | OArray p _ ps =>
      chain_ok fuel h p && forallb (fun e => val_ok n (pvalue e.2)) ps
  | OError _ _ name _ fields =>
      from_option (val_ok n) true name && forallb (fun e => val_ok n e.2) fields
  | OMap es | OWeakMap es =>
      forallb (fun e => val_ok n e.1 && val_ok n e.2) es
      && bool_decide (NoDup es.*1)
  | OSet xs | OWeakSet xs =>
      forallb (val_ok n) xs && bool_decide (NoDup xs)
  | OPromise follows st =>
      from_option (fun l => bool_decide (l < n)) true follows && settle_ok n st
  | ODataView buffer _ _ => bool_decide (buffer < n)
  | _ => true
  end.

Definition heap_ok (h : heap) : bool := forallb (object_ok (length h) h) h.

(** What a call leaves behind: the heap it started from, extended, still
    well formed, and a result that points into it. *)
Definition outcome_ok (h : heap) (out : outcome) : Prop :=
  match out with
  | Ret h' r =>
      h `prefix_of` h' /\ heap_ok h' = true /\ val_ok (length h') r = true
  | Throw h' _ => h `prefix_of` h' /\ heap_ok h' = true
  end.

Definition built_ok (h : heap) (b : built) : Prop :=
  match b with
  | Built h' o =>
      h `prefix_of` h' /\ heap_ok h' = true
      /\ object_ok (S (length h')) h' o = true
  | Failed h' _ => h `prefix_of` h' /\ heap_ok h' = true
  end.

(** The nested dispatch available to a call at [depth]. *)
Definition nested (depth : nat) : strategy :=
  match depth with
  | O => overflow
  | S depth' => duplicate depth'
  end.

(** ** Vocabulary of the specification *)

(** The scalars: strings, numbers, booleans, null, undefined, symbols. *)
Definition is_scalar (v : val) : bool := negb (is_ref v).

(** The tags that are keys of the dispatch table. *)
Definition supported (t : tag) : bool :=
  match _duplicate identity t with
  | Some _ => true
  | None => false
  end.

(** The tags that name a function the table inherits from
    [Object.prototype]. *)
Definition inherits (t : tag) : bool :=
  match t with
  | OTHER name =>
      match Object_prototype name ≫= inherited with
      | Some _ => true
      | None => false
      end
  | _ => false
  end.

(** The assignments of one loop, in order, on keys other than
    [__proto__] of a target whose prototype is a built-in one: nothing on
    the prototype chain stands in the way, so no heap is needed. *)
Fixpoint assign_all (target : object) (kvs : list (key * val)) : object + error :=
  match kvs with
  | [] => inl target
  | (k, v) :: kvs' =>
      match assign [] target k v with
      | inl target' => assign_all target' kvs'
      | inr e => inr e
      end
  end.

(** The order in which an object lists keys created in the order [ks]. *)
Definition order_keys (ks : list key) : list key :=
  own_keys (OObject PNull ((fun k => (k, mkProp VUndefined true)) <$> ks)).

(** The properties a loop creates on a fresh target. *)
Definition new_props (ks : list key) (vs : list val) : props :=
  (fun kv => (kv.1, mkProp kv.2 true)) <$> zip ks vs.

(** The length of an array after assignments to the keys [ks]. *)
Definition array_len (len : nat) (ks : list key) : nat :=
  foldl (fun n k => match k with KIdx i => n `max` S i | KStr _ => n end) len ks.

(** Keys and enumerability of a property list, in creation order. *)
Definition flags (ps : props) : list (key * bool) :=
  (fun e => (e.1, penum e.2)) <$> ps.

(** ** Deep equality

    Structural equality as a deep-equal assertion computes it: values of
    the same kind with deep-equal contents.  Plain objects and arrays are
    compared on the keys for-in lists, inherited ones included, as the
    assertions that enumerate with for-in do; errors on their class, the
    message and the name they read, and their own enumerable properties,
    which are the custom fields and the name when it is an own property;
    patterns on their text, flags and position; and functions, promises
    and weak collections only by identity. *)
Inductive deep_eq (h : heap) : val -> val -> Prop :=
| de_same v : deep_eq h v v
| de_object a b pa psa pb psb :
    h !! a = Some (OObject pa psa) -> h !! b = Some (OObject pb psb) ->
    forin_keys h a ≡ₚ forin_keys h b ->
    (forall k, k ∈ forin_keys h a -> deep_eq h (Get h a k) (Get h b k)) ->
    deep_eq h (VRef a) (VRef b)
| de_array a b pa psa pb psb len :
    h !! a = Some (OArray pa len psa) -> h !! b = Some (OArray pb len psb) ->
    forin_keys h a ≡ₚ forin_keys h b ->
    (forall k, k ∈ forin_keys h a -> deep_eq h (Get h a k) (Get h b k)) ->
    deep_eq h (VRef a) (VRef b)
| de_error a b pname ma mb name sa sb fields :
    h !! a = Some (OError pname ma name sa fields) ->
    h !! b = Some (OError pname mb name sb fields) ->
    error_message (OError pname ma name sa fields)
    = error_message (OError pname mb name sb fields) ->
    deep_eq h (VRef a) (VRef b)
| de_regexp a b source flags i :
    h !! a = Some (ORegExp source flags i) ->
    h !! b = Some (ORegExp source flags i) ->
    deep_eq h (VRef a) (VRef b)
| de_date a b tv :
    h !! a = Some (ODate tv) -> h !! b = Some (ODate tv) ->
    deep_eq h (VRef a) (VRef b)
| de_map a b es1 es2 :
    h !! a = Some (OMap es1) -> h !! b = Some (OMap es2) ->
    length es1 = length es2 ->
    (forall i e1 e2, es1 !! i = Some e1 -> es2 !! i = Some e2 ->
                     deep_eq h e1.1 e2.1) ->
    (forall i e1 e2, es1 !! i = Some e1 -> es2 !! i = Some e2 ->
                     deep_eq h e1.2 e2.2) ->
    deep_eq h (VRef a) (VRef b)
| de_set a b xs1 xs2 :
    h !! a = Some (OSet xs1) -> h !! b = Some (OSet xs2) ->
    length xs1 = length xs2 ->
    (forall i x1 x2, xs1 !! i = Some x1 -> xs2 !! i = Some x2 ->
                     deep_eq h x1 x2) ->
    deep_eq h (VRef a) (VRef b)
| de_typed a b k elems :
    h !! a = Some (OTypedArray k elems) -> h !! b = Some (OTypedArray k elems) ->
    deep_eq h (VRef a) (VRef b)
| de_buffer a b bytes :
    h !! a = Some (OArrayBuffer bytes) -> h !! b = Some (OArrayBuffer bytes) ->
    deep_eq h (VRef a) (VRef b)
| de_view a b ba bb off len :
    h !! a = Some (ODataView ba off len) -> h !! b = Some (ODataView bb off len) ->
    deep_eq h (VRef ba) (VRef bb) ->
    deep_eq h (VRef a) (VRef b).

(** ** Values a copy is deep-equal to

    [faithful depth h v]: within [depth] nested calls, [v] is made of
    scalars, objects handed back untouched, dates, patterns at position 0,
    errors of the class [Error] with a message that is a string (or none),
    a name of their own and no custom field, strong collections, typed
    arrays, views in bounds, empty buffers, and plain objects and arrays of
    such values that list no [__proto__] key, the arrays ending on their
    last listed index; and of objects of a class named [constructor],
    which the inherited entry of that name hands back.  The copy of an
    error owns its name and nothing else that can be listed, and the copy
    of a pattern starts at position 0: a source that differs there is
    told apart from its copy by the assertions that compare own
    properties. *)
Definition faithful_at (sub : heap -> val -> bool) (h : heap) (v : val) : bool :=
  match v with
  | VRef l =>
      let keys_ok :=
        forallb (fun k => negb (bool_decide (k = proto_key)) && sub h (Get h l k))
                (forin_keys h l) in
      match h !! l with
      | Some (OObject _ _) => keys_ok
      | Some (OArray _ len _) =>
          keys_ok && bool_decide (len = array_len 0 (forin_keys h l))
      | Some (OTypedArray _ _) => keys_ok
      | Some (OError pname None (Some _) _ fields)
      | Some (OError pname (Some (StringP _)) (Some _) _ fields) =>
          bool_decide (pname = "Error") && bool_decide (fields = [])
      | Some (ORegExp _ _ lastIndex) => bool_decide (lastIndex = 0)
      | Some (ODate _) | Some (OMap _) | Some (OSet _) => true
      | Some (OArrayBuffer bytes) => bool_decide (bytes = [])
      | Some (ODataView buffer byteOffset byteLength) =>
          match h !! buffer with
          | Some (OArrayBuffer bytes) => (byteOffset + byteLength <=? length bytes)%nat
          | _ => false
          end
      | Some (OOpaque (Unlisted name)) =>
          bool_decide (Object_prototype name = Some Constructor)
      | Some (OOpaque _) => true
      | _ => false
      end
  | _ => true
  end.

Fixpoint faithful (depth : nat) (h : heap) (v : val) : bool :=
  faithful_at (match depth with
               | O => fun _ _ => false
               | S depth' => faithful depth'
               end) h v.

(** The nested calls of one loop, without the assignments. *)
Fixpoint dup_values (dispatch : strategy) (h : heap) (src : loc) (ks : list key)
  : option (heap * list val) :=
  match ks with
  | [] => Some (h, [])
  | k :: ks' =>
      match dispatch h (Get h src k) with
      | Ret h1 v =>
          match dup_values dispatch h1 src ks' with
          | Some (h', vs) => Some (h', v :: vs)
          | None => None
          end
      | Throw _ _ => None
      end
  end.

(** ** Sample heaps *)

Definition enum (v : val) : prop := mkProp v true.

(** [{a: 1, b: {c: 2}}] at location 0. *)
Definition heap_nested : heap :=
  [ OObject PObjectPrototype [(KStr "a", enum (VNumber 1)); (KStr "b", enum (VRef 1))];
    OObject PObjectPrototype [(KStr "c", enum (VNumber 2))] ].

(** [o = {}; o.self = o] at location 0. *)
Definition heap_cyclic : heap :=
  [ OObject PObjectPrototype [(KStr "self", enum (VRef 0))] ].

(** [o = Object.create({1: "x"}); o.b = 2] at location 1. *)
Definition heap_inherited : heap :=
  [ OObject PObjectPrototype [(KIdx 1, enum (VString "x"))];
    OObject (PRef 0) [(KStr "b", enum (VNumber 2))] ].

(** [JSON.parse('{"__proto__": {"c": 2}}')] at location 0. *)
Definition heap_proto_key : heap :=
  [ OObject PObjectPrototype [(proto_key, enum (VRef 1))];
    OObject PObjectPrototype [(KStr "c", enum (VNumber 2))] ].

(** [{f: function () {}}] at location 0. *)
Definition heap_method : heap :=
  [ OObject PObjectPrototype [(KStr "f", enum (VRef 1))];
    OFunction PlainFunc "function () {}" true ].

(** [[1, [2, 3]]] at location 0. *)
Definition heap_array : heap :=
  [ OArray PArrayPrototype 2 [(KIdx 0, enum (VNumber 1)); (KIdx 1, enum (VRef 1))];
    OArray PArrayPrototype 2 [(KIdx 0, enum (VNumber 2)); (KIdx 1, enum (VNumber 3))] ].

(** [[1, , ]]: one element and a hole behind it, at location 0. *)
Definition heap_hole : heap :=
  [ OArray PArrayPrototype 2 [(KIdx 0, enum (VNumber 1))] ].

(** [a = []; a[0] = a] at location 0. *)
Definition heap_cyclic_array : heap :=
  [ OArray PArrayPrototype 1 [(KIdx 0, enum (VRef 0))] ].

(** ** Values without functions and promises

    [inert depth h v]: along the values the duplication of [v] visits
    there is no function and no promise, and no plain object, array or
    typed array lists a [__proto__] key. *)
Definition inert_at (sub : heap -> val -> bool) (h : heap) (v : val) : bool :=
  match v with
  | VRef l =>
      match h !! l with
      | Some (OObject _ _) | Some (OArray _ _ _) | Some (OTypedArray _ _) =>
          forallb (fun k => negb (bool_decide (k = proto_key)) && sub h (Get h l k))
                  (forin_keys h l)
      | Some (OFunction _ _ _) | Some (OPromise _ _) => false
      | _ => true
      end
  | _ => true
  end.

Fixpoint inert (depth : nat) (h : heap) (v : val) : bool :=
  inert_at (match depth with
            | O => fun _ _ => true
            | S depth' => inert depth'
            end) h v.

(** [new WeakMap()] at location 0. *)
Definition heap_weak : heap := [ OWeakMap [] ].

(** [new Promise(() => {})], pending and without reaction, at location 0;
    [{p: promise}] at location 1. *)
Definition heap_promise : heap :=
  [ OPromise None Pending;
    OObject PObjectPrototype [(KStr "p", enum (VRef 0))] ].

(** ** Values without promises

    [promise_free depth h v]: along the values the duplication of [v]
    visits there is no promise. *)
Definition promise_free_at (sub : heap -> val -> bool) (h : heap) (v : val) : bool :=
  match v with
  | VRef l =>
      match h !! l with
      | Some (OObject _ _) | Some (OArray _ _ _) | Some (OTypedArray _ _) =>
          forallb (fun k => sub h (Get h l k)) (forin_keys h l)
      | Some (OPromise _ _) => false
      | _ => true
      end
  | _ => true
  end.

Fixpoint promise_free (depth : nat) (h : heap) (v : val) : bool :=
  promise_free_at (match depth with
                   | O => fun _ _ => true
                   | S depth' => promise_free depth'
                   end) h v.

(** The objects that register no reaction. *)
Definition quiet (objs : heap) : bool :=
  forallb (fun o => bool_decide (origin o = None)) objs.

Definition built_heap (b : built) : heap :=
  match b with
  | Built h _ => h
  | Failed h _ => h
  end.

(** ** Moving the objects a call allocates

    [shift_loc n m] leaves the locations below [n] where they are and
    moves the others up by [m]; [relocate h X out] is the outcome [out] of
    a call entered with heap [h], as it reads when the heap holds the
    further objects [X] at entry. *)
Definition shift_loc (n m : nat) (l : loc) : loc :=
  if bool_decide (l < n) then l else l + m.

Definition shift_val (n m : nat) (v : val) : val :=
  match v with
  | VRef l => VRef (shift_loc n m l)
  | _ => v
  end.

Definition shift_proto (n m : nat) (p : proto) : proto :=
  match p with
  | PRef l => PRef (shift_loc n m l)
  | _ => p
  end.

Definition shift_prop (n m : nat) (pr : prop) : prop :=
  mkProp (shift_val n m (pvalue pr)) (penum pr).

Definition shift_settle (n m : nat) (st : settle) : settle :=
  match st with
  | Pending => Pending
  | Fulfilled v => Fulfilled (shift_val n m v)
  | Rejected v => Rejected (shift_val n m v)
  end.

Definition shift_props (n m : nat) (ps : props) : props :=
  (fun e => (e.1, shift_prop n m e.2)) <$> ps.

Definition shift_object (n m : nat) (o : object) : object :=
  match o with
  | OObject p ps => OObject (shift_proto n m p) (shift_props n m ps)
  | OArray p len ps => OArray (shift_proto n m p) len (shift_props n m ps)
  | OError pname message name stack fields =>
      OError pname message (shift_val n m <$> name) stack
             ((fun e => (e.1, shift_val n m e.2)) <$> fields)
  | OMap es => OMap ((fun e => (shift_val n m e.1, shift_val n m e.2)) <$> es)
  | OWeakMap es => OWeakMap ((fun e => (shift_val n m e.1, shift_val n m e.2)) <$> es)
  | OSet xs => OSet (shift_val n m <$> xs)
  | OWeakSet xs => OWeakSet (shift_val n m <$> xs)
  | OPromise follows st => OPromise (shift_loc n m <$> follows) (shift_settle n m st)
  | ODataView buffer byteOffset byteLength =>
      ODataView (shift_loc n m buffer) byteOffset byteLength
  | _ => o
  end.

Definition shift_heap (n m : nat) (h : heap) : heap := shift_object n m <$> h.

Definition relocate (h X : heap) (out : outcome) : outcome :=
  let n := length h in
  let m := length X in
  match out with
  | Ret h' r => Ret (h ++ X ++ shift_heap n m (drop n h')) (shift_val n m r)
  | Throw h' e => Throw (h ++ X ++ shift_heap n m (drop n h')) e
  end.

Definition relocate_built (h X : heap) (b : built) : built :=
  let n := length h in
  let m := length X in
  match b with
  | Built h' o => Built (h ++ X ++ shift_heap n m (drop n h')) (shift_object n m o)
  | Failed h' e => Failed (h ++ X ++ shift_heap n m (drop n h')) e
  end.

(** [related n m HA HB]: [HB] holds, moved, every object of [HA]. *)
Definition related (n m : nat) (HA HB : heap) : Prop :=
  forall l o, HA !! l = Some o ->
              HB !! shift_loc n m l = Some (shift_object n m o).

(** The heap a call leaves behind. *)
Definition outcome_heap (out : outcome) : heap :=
  match out with
  | Ret h _ => h
  | Throw h _ => h
  end.

(** [a = [1]] with an own enumerable [__proto__] property that holds
    [[7, 8, 9]], at location 0. *)
Definition heap_proto_array : heap :=
  [ OArray PArrayPrototype 1 [(KIdx 0, enum (VNumber 1)); (proto_key, enum (VRef 1))];
    OArray PArrayPrototype 3
      [(KIdx 0, enum (VNumber 7)); (KIdx 1, enum (VNumber 8)); (KIdx 2, enum (VNumber 9))] ].

(** [copied dispatch h h' src k v]: the value [v] is what the nested call
    returned for the value the source holds under [k], in a heap between
    the heap [h] at entry and the heap [h'] at exit. *)
Definition copied (dispatch : strategy) (h h' : heap) (src : loc) (k : key)
  (v : val) : Prop :=
  exists h1 h2 : heap,
    h `prefix_of` h1 /\ h1 `prefix_of` h2 /\ h2 `prefix_of` h'
    /\ heap_ok h1 = true /\ heap_ok h2 = true
    /\ dispatch h1 (Get h src k) = Ret h2 v.

(** A strategy that throws the error of the dispatcher on unsupported
    tags only. *)
Definition throws_unsupported (s : strategy) : Prop :=
  forall (h : heap) v h' t,
    s h v = Throw h' (TypeError_not_a_function t) -> supported t = false.

(** [new Date(0)] at location 0, a pattern at 1, an eight-byte buffer at 2
    and a view of its bytes 2 to 5 at 3, [Math] at 4, a weak set at 5. *)
Definition heap_builtins : heap :=
  [ ODate 0; ORegExp "ab+" "g" 3; OArrayBuffer (replicate 8 0%Z);
    ODataView 2 2 4; OOpaque Math_; OWeakSet [] ].

(** [Int16Array.of(5, -7)] at location 0. *)
Definition heap_typed : heap := [ OTypedArray Int16 [5%Z; (-7)%Z] ].

(** The objects that [identity] hands back, and the classes the table does
    not list. *)
Definition is_opaque (o : object) : bool :=
  match o with
  | OOpaque _ => true
  | _ => false
  end.

(** Does the call return? *)
Definition is_ret (out : outcome) : bool :=
  match out with
  | Ret _ _ => true
  | Throw _ _ => false
  end.

(** [child h a v]: the plain object or array at [a] holds [v] under a key
    that for-in lists. *)
Definition child (h : heap) (a : loc) (v : val) : Prop :=
  (typeOf h (VRef a) = OBJECT \/ typeOf h (VRef a) = ARRAY)
  /\ exists k, k ∈ forin_keys h a /\ Get h a k = v.

(** [nesting h n v]: a chain of [n] values nested in one another starts
    below [v]. *)
Inductive nesting (h : heap) : nat -> val -> Prop :=
| nesting_O v : nesting h 0 v
| nesting_S n a w : child h a w -> nesting h n w -> nesting h (S n) (VRef a).

(** [reaches h a b]: the object at [b] is nested, at some depth, in the
    object at [a]. *)
Definition reaches (h : heap) : relation loc :=
  tc (fun a b => child h a (VRef b)).

(** [new Array(3)], three holes, at location 0, and an object whose only
    property is not enumerable at location 1. *)
Definition heap_holes : heap :=
  [ OArray PArrayPrototype 3 [];
    OObject PNull [(KStr "hidden", mkProp (VRef 0) false)] ].

(** ** Key order in the words of the specification

    [canonical ks]: the index keys come first, in ascending order, and the
    other names follow. *)
Definition is_name (k : key) : bool :=
  match k with
  | KStr _ => true
  | KIdx _ => false
  end.

Fixpoint canonical_from (lo : nat) (ks : list key) : bool :=
  match ks with
  | [] => true
  | KIdx i :: ks' => (lo <=? i)%nat && canonical_from i ks'
  | KStr _ :: ks' => forallb is_name ks'
  end.

Definition canonical (ks : list key) : bool := canonical_from 0 ks.

(** The names among the keys, in their order. *)
Definition names (ks : list key) : list key :=
  filter (fun k => is_name k = true) ks.

(** ** Values that are copied

    [copyable depth h v]: within [depth] nested calls, [v] is made of
    values whose strategy returns: scalars, functions whose text can be
    read again, errors whose message is no symbol, patterns, dates, strong
    collections, promises, array buffers, views within their buffer, the
    objects handed back as they are, objects of a class named like an
    inherited function that returns, and typed arrays, plain objects and
    arrays of such values that list no [__proto__] key. *)
Definition returns (m : member) : bool :=
  match m with
  | DefineGetter | DefineSetter | Proto => false
  | _ => true
  end.

Definition copyable_at (sub : heap -> val -> bool) (h : heap) (v : val) : bool :=
  match v with
  | VRef l =>
      match h !! l with
      | Some (OObject _ _) | Some (OArray _ _ _) | Some (OTypedArray _ _) =>
          forallb (fun k => negb (bool_decide (k = proto_key)) && sub h (Get h l k))
                  (forin_keys h l)
      | Some (OError _ (Some (SymbolP _)) _ _ _) => false
      | Some (OFunction _ _ parses) => parses
      | Some (OWeakMap _) | Some (OWeakSet _) => false
      | Some (ODataView buffer byteOffset byteLength) =>
          match h !! buffer with
          | Some (OArrayBuffer bytes) => (byteOffset + byteLength <=? length bytes)%nat
          | _ => false
          end
      | Some (OOpaque (Unlisted name)) =>
          from_option returns false (Object_prototype name)
      | Some _ => true
      | None => false
      end
  | _ => true
  end.

Fixpoint copyable (depth : nat) (h : heap) (v : val) : bool :=
  copyable_at (match depth with
               | O => fun _ _ => false
               | S depth' => copyable depth'
               end) h v.

(** [{f: function () {}, p: promise, b: buffer of two bytes}] at location
    0: a source that is copied, to an object that is not deep-equal to it. *)
Definition heap_mixed : heap :=
  [ OObject PObjectPrototype
      [(KStr "f", enum (VRef 1)); (KStr "p", enum (VRef 2)); (KStr "b", enum (VRef 3))];
    OFunction PlainFunc "function () {}" true;
    OPromise None Pending;
    OArrayBuffer [0%Z; 0%Z] ].

(** The errors a call can end in.  The dispatcher's error only comes with a
    tag under which the table holds no function, neither its own nor an
    inherited one; an invalid array length and an invalid weak key never
    come. *)
Definition expected_error (e : error) : bool :=
  match e with
  | TypeError_not_a_function t => negb (supported t) && negb (inherits t)
  | RangeError_invalid_length | TypeError_invalid_weak_key => false
  | _ => true
  end.

(** * Properties *)

(** ** Extending the heap

    Everything read from a well-formed heap is read in the same way from
    any heap that extends it. *)

Section Extension.

Variables (h ext : heap).

Lemma chain_ok_ext f f' p :
  chain_ok f h p = true -> f <= f' -> chain_ok f' (h ++ ext) p = true.
Proof.
  revert f' p.
  induction f as [|f IH]; intros f' p; destruct p; simpl; try done;
    try (destruct f'; done).
  intros H Hle. destruct f' as [|f']; [lia|]. simpl.
  destruct (h !! l) as [o|] eqn:E; [|done].
  rewrite (lookup_app_l_Some _ _ _ _ E). apply IH; [done|lia].
Qed.

Lemma forin_from_ext f f' p vis :
  chain_ok f h p = true -> f <= f' ->
  forin_from f' (h ++ ext) p vis = forin_from f h p vis.
Proof.
  revert f' p vis.
  induction f as [|f IH]; intros f' p vis; destruct p; simpl; try done;
    try (destruct f'; done).
  intros H Hle. destruct f' as [|f']; [lia|]. simpl.
  destruct (h !! l) as [o|] eqn:E; [|done].
  rewrite (lookup_app_l_Some _ _ _ _ E).
  destruct (enumerate (own_listing o) vis) as [ks vis'].
  rewrite IH; [done|done|lia].
Qed.

Lemma get_from_ext f f' p k :
  chain_ok f h p = true -> f <= f' ->
  get_from f' (h ++ ext) p k = get_from f h p k.
Proof.
  revert f' p.
  induction f as [|f IH]; intros f' p; destruct p; simpl; try done;
    try (destruct f'; done).
  intros H Hle. destruct f' as [|f']; [lia|]. simpl.
  destruct (h !! l) as [o|] eqn:E; [|done].
  rewrite (lookup_app_l_Some _ _ _ _ E).
  destruct (own_lookup o k); [done|]. apply IH; [done|lia].
Qed.

End Extension.

Lemma heap_ok_lookup (h : heap) l o :
  heap_ok h = true -> h !! l = Some o -> object_ok (length h) h o = true.
Proof.
  unfold heap_ok. rewrite forallb_forall. intros H E.
  apply H, list_elem_of_In. by eapply list_elem_of_lookup_2.
Qed.

Lemma object_ok_chain f (h : heap) o :
  object_ok f h o = true -> chain_ok f h (proto_of o) = true.
Proof.
  destruct o; cbn [object_ok proto_of]; intros H;
    try (by destruct f); apply andb_true_iff in H; tauto.
Qed.

Lemma chain_ok_ref (h : heap) l :
  heap_ok h = true -> l < length h -> chain_ok (S (length h)) h (PRef l) = true.
Proof.
  intros Hh Hl. destruct (lookup_lt_is_Some_2 h l Hl) as [o E].
  simpl. rewrite E.
  by eapply object_ok_chain, heap_ok_lookup.
Qed.

Lemma forin_keys_ext (h ext : heap) l :
  heap_ok h = true -> l < length h -> forin_keys (h ++ ext) l = forin_keys h l.
Proof.
  intros Hh Hl. unfold forin_keys.
  rewrite (forin_from_ext h ext (S (length h))); [done|by apply chain_ok_ref|].
  rewrite length_app; lia.
Qed.

Lemma Get_ext (h ext : heap) l k :
  heap_ok h = true -> l < length h -> Get (h ++ ext) l k = Get h l k.
Proof.
  intros Hh Hl. unfold Get.
  rewrite (get_from_ext h ext (S (length h))); [done|by apply chain_ok_ref|].
  rewrite length_app; lia.
Qed.

Lemma typeOf_ext (h ext : heap) v :
  val_ok (length h) v = true -> typeOf (h ++ ext) v = typeOf h v.
Proof.
  destruct v; simpl; try done. intros Hl%bool_decide_eq_true.
  by rewrite lookup_app_l.
Qed.

(** ** Validity of what is read and built *)

Lemma val_ok_mono n m v : val_ok n v = true -> n <= m -> val_ok m v = true.
Proof.
  destruct v; simpl; try done.
  rewrite !bool_decide_eq_true. lia.
Qed.

Lemma forallb_impl {A} (P Q : A -> bool) (l : list A) :
  (forall x, P x = true -> Q x = true) -> forallb P l = true -> forallb Q l = true.
Proof.
  intros HPQ. rewrite !forallb_forall. auto.
Qed.

Lemma object_ok_ext f f' (h ext : heap) o :
  object_ok f h o = true -> f <= f' -> object_ok f' (h ++ ext) o = true.
Proof.
  assert (Hv : forall v, val_ok (length h) v = true ->
                         val_ok (length (h ++ ext)) v = true).
  { intros v Hv. eapply val_ok_mono; [done|]. rewrite length_app. lia. }
  assert (Hl : forall l, bool_decide (l < length h) = true ->
                         bool_decide (l < length (h ++ ext)) = true).
  { intros l. rewrite !bool_decide_eq_true, length_app. lia. }
  assert (Hps : forall ps : props,
    forallb (fun e => val_ok (length h) (pvalue e.2)) ps = true ->
    forallb (fun e => val_ok (length (h ++ ext)) (pvalue e.2)) ps = true).
  { intros ps. apply forallb_impl. intros e. apply Hv. }
  assert (Hes : forall es : list (val * val),
    forallb (fun e => val_ok (length h) e.1 && val_ok (length h) e.2) es = true ->
    forallb (fun e => val_ok (length (h ++ ext)) e.1
                      && val_ok (length (h ++ ext)) e.2) es = true).
  { intros es. apply forallb_impl. intros e [H1 H2]%andb_true_iff.
    by rewrite (Hv _ H1), (Hv _ H2). }
  intros H Hle. destruct o; cbn [object_ok] in *; try done; try (by apply Hl);
    apply andb_true_iff in H as [H1 H2]; try (apply andb_true_iff; split);
    try done; try (by eapply chain_ok_ext); try (by apply Hps);
    try (by apply Hes); try (by eapply forallb_impl).
  - destruct name; simpl in *; auto.
  - eapply forallb_impl; [|exact H2]. intros e. apply Hv.
  - destruct follows; simpl in *; auto.
  - destruct st; simpl in *; auto.
Qed.

Lemma heap_ok_snoc (h : heap) o :
  heap_ok h = true -> object_ok (S (length h)) h o = true ->
  heap_ok (h ++ [o]) = true.
Proof.
  unfold heap_ok. intros Hh Ho.
  assert (E : length (h ++ [o]) = S (length h)) by (rewrite length_app; simpl; lia).
  rewrite forallb_app, E. apply andb_true_iff; split.
  - eapply forallb_impl; [|exact Hh]. intros x Hx.
    eapply object_ok_ext; [done|lia].
  - simpl. rewrite andb_true_r. eapply object_ok_ext; [done|lia].
Qed.

Lemma assoc_ok {A} (P : A -> bool) k (ps : list (key * A)) a :
  forallb (fun e => P e.2) ps = true -> assoc k ps = Some a -> P a = true.
Proof.
  induction ps as [|[k' a'] ps IH]; simpl; [done|].
  intros [H1 H2]%andb_true_iff. destruct (decide (k = k')); [|auto].
  by intros [= <-].
Qed.

Lemma own_lookup_ok f (h : heap) o k pr :
  object_ok f h o = true -> own_lookup o k = Some pr ->
  val_ok (length h) (pvalue pr) = true.
Proof.
  intros Ho E. destruct o; simpl in *; try done.
  - apply andb_true_iff in Ho as [_ Ho].
    by apply (assoc_ok (fun p => val_ok (length h) (pvalue p)) k ps).
  - apply andb_true_iff in Ho as [_ Ho].
    destruct (decide (k = length_key)); [by injection E as <-|].
    by apply (assoc_ok (fun p => val_ok (length h) (pvalue p)) k ps).
  - destruct k; [|done]. destruct (elems !! i); simpl in E; [|done].
    by injection E as <-.
Qed.

Lemma get_from_ok f (h : heap) p k v :
  heap_ok h = true -> get_from f h p k = Some v -> val_ok (length h) v = true.
Proof.
  intros Hh. revert p. induction f as [|f IH]; intros p; destruct p; simpl;
    try (by intros [= <-]); try done.
  destruct (h !! l) as [o|] eqn:E; [|done].
  destruct (own_lookup o k) as [pr|] eqn:E'; [|by apply IH].
  intros [= <-]. eapply own_lookup_ok; [|done]. by eapply heap_ok_lookup.
Qed.

Lemma Get_ok (h : heap) l k :
  heap_ok h = true -> val_ok (length h) (Get h l k) = true.
Proof.
  intros Hh. unfold Get.
  destruct (get_from _ h (PRef l) k) as [v|] eqn:E; [|done].
  by eapply get_from_ok.
Qed.

Lemma alloc_ok (h : heap) o :
  heap_ok h = true -> object_ok (S (length h)) h o = true ->
  outcome_ok h (alloc h o).
Proof.
  intros Hh Ho. simpl. split; [by apply prefix_app_r|]. split.
  - by apply heap_ok_snoc.
  - apply bool_decide_eq_true. rewrite length_app. simpl. lia.
Qed.

Lemma put_ok n k v (ps : props) :
  val_ok n v = true ->
  forallb (fun e => val_ok n (pvalue e.2)) ps = true ->
  forallb (fun e => val_ok n (pvalue e.2)) (put k v ps) = true.
Proof.
  intros Hv. induction ps as [|[k' p] ps IH]; simpl.
  - by rewrite Hv.
  - intros [H1 H2]%andb_true_iff. destruct (decide (k = k')); simpl.
    + by rewrite Hv, H2.
    + by rewrite H1, IH.
Qed.

Lemma filter_ok {A} (P Q : A -> bool) (l : list A) :
  forallb P l = true -> forallb P (filter Q l) = true.
Proof.
  rewrite !forallb_forall. intros H x Hx%list_elem_of_In.
  apply list_elem_of_filter in Hx as [_ Hx]. by apply H, list_elem_of_In.
Qed.

Lemma set_proto_ok (h : heap) p v :
  heap_ok h = true -> val_ok (length h) v = true ->
  chain_ok (S (length h)) h p = true ->
  chain_ok (S (length h)) h (set_proto p v) = true.
Proof.
  intros Hh Hv Hp. destruct v; try done.
  apply chain_ok_ref; [done|]. by apply bool_decide_eq_true in Hv.
Qed.

Lemma set_own_inv (h : heap) p ps k v ps' :
  set_own h p ps k v = inl (Some ps') -> ps' = put k v ps.
Proof. unfold set_own. repeat case_match; by intros [= <-]. Qed.

Lemma set_own_intrinsic (h : heap) p ps k v :
  (forall l, p <> PRef l) -> set_own h p ps k v = inl (Some (put k v ps)).
Proof.
  intros Hp. unfold set_own.
  assert (inherited_set (S (length h)) h p k = Creates) as ->.
  { destruct p; try done. by destruct (Hp l). }
  by destruct (assoc k ps).
Qed.

Lemma set_own_nil p ps k v : set_own [] p ps k v = inl (Some (put k v ps)).
Proof. unfold set_own. destruct p; simpl; by destruct (assoc k ps). Qed.

Lemma assign_error (h : heap) target k v e :
  assign h target k v = inr e ->
  e = RangeError_invalid_length \/ e = TypeError_read_only.
Proof.
  destruct target; simpl; try done; unfold set_own; repeat case_match;
    intros; simplify_eq; auto.
Qed.

Lemma assign_ok (h : heap) target k v target' :
  heap_ok h = true -> object_ok (S (length h)) h target = true ->
  val_ok (length h) v = true -> assign h target k v = inl target' ->
  object_ok (S (length h)) h target' = true.
Proof.
  intros Hh Ht Hv. destruct target; cbn [assign]; try (by intros [= <-]).
  - pose proof Ht as Ht0. apply andb_true_iff in Ht as [Hp Hps].
    destruct (assigns_proto h p ps k).
    { intros [= <-]; cbn [object_ok].
      apply andb_true_iff; split; auto using set_proto_ok. }
    destruct (set_own h p ps k v) as [[ps'|]|e] eqn:Es; intros [= <-]; [|done].
    apply set_own_inv in Es as ->. cbn [object_ok].
    apply andb_true_iff; split; auto using put_ok.
  - pose proof Ht as Ht0. apply andb_true_iff in Ht as [Hp Hps].
    destruct (assigns_proto h p ps k).
    { intros [= <-]; cbn [object_ok].
      apply andb_true_iff; split; auto using set_proto_ok. }
    destruct (decide (k = length_key)).
    + destruct v; try done. destruct (decide (0 <= z < 2 ^ 32)%Z); [|done].
      intros [= <-]; cbn [object_ok].
      apply andb_true_iff; split; [done|]. by apply filter_ok.
    + destruct (set_own h p ps k v) as [[ps'|]|e] eqn:Es; intros [= <-]; [|done].
      apply set_own_inv in Es as ->. cbn [object_ok].
      apply andb_true_iff; split; auto using put_ok.
  - destruct k, v; by intros [= <-].
Qed.

Section Strategies_ok.

Variable dispatch : strategy.
Hypothesis dispatch_ok : forall (h : heap) v,
  heap_ok h = true -> val_ok (length h) v = true -> outcome_ok h (dispatch h v).

Lemma copy_keys_ok (h : heap) src target ks :
  heap_ok h = true -> object_ok (S (length h)) h target = true ->
  built_ok h (copy_keys dispatch h src target ks).
Proof.
  revert h target. induction ks as [|key ks IH]; intros h target Hh Ht; simpl.
  { done. }
  pose proof (dispatch_ok h (Get h src key) Hh (Get_ok h src key Hh)) as Hd.
  destruct (dispatch h (Get h src key)) as [h1 v|h1 e]; simpl in Hd; [|done].
  destruct Hd as ([ext ->] & Hh1 & Hv).
  assert (Ht1 : object_ok (S (length (h ++ ext))) (h ++ ext) target = true).
  { eapply object_ok_ext; [done|]. rewrite length_app. lia. }
  destruct (assign (h ++ ext) target key v) as [target'|e] eqn:Ea.
  - pose proof (assign_ok _ _ _ _ _ Hh1 Ht1 Hv Ea) as Ht'.
    specialize (IH _ _ Hh1 Ht').
    assert (Hp : h `prefix_of` h ++ ext) by by apply prefix_app_r.
    destruct (copy_keys dispatch (h ++ ext) src target' ks); simpl in *;
      destruct IH as [IH1 IH2]; (split; [by etrans|done]).
  - simpl. split; [by apply prefix_app_r|done].
Qed.

Lemma finish_ok (h : heap) b : built_ok h b -> outcome_ok h (finish b).
Proof.
  destruct b as [h' o|h' e]; simpl; [|done].
  intros (Hp & Hh & Ho). pose proof (alloc_ok h' o Hh Ho) as (H1 & H2 & H3).
  split; [|done]. etrans; [exact Hp|exact H1].
Qed.

End Strategies_ok.

(** Copying a strong collection entry by entry rebuilds the same list. *)
Lemma map_set_fresh k v (es : list (val * val)) :
  k ∉ es.*1 -> map_set k v es = es ++ [(k, v)].
Proof.
  induction es as [|[k' v'] es IH]; simpl; [done|].
  intros [Hk Hes]%not_elem_of_cons. destruct (decide (k = k')); [done|].
  by rewrite IH.
Qed.

Lemma map_set_fold (acc es : list (val * val)) :
  NoDup (acc ++ es).*1 ->
  foldl (fun acc e => map_set e.1 e.2 acc) acc es = acc ++ es.
Proof.
  revert acc. induction es as [|[k v] es IH]; intros acc Hnd; simpl.
  { by rewrite app_nil_r. }
  assert (E : acc ++ (k, v) :: es = (acc ++ [(k, v)]) ++ es) by by rewrite <- app_assoc.
  rewrite map_set_fresh.
  - rewrite IH; [done|]. by rewrite <- E.
  - rewrite fmap_app in Hnd. apply NoDup_app in Hnd as (_ & Hd & _).
    intros Hin. apply (Hd k Hin). simpl. left.
Qed.

Lemma set_add_fold (acc xs : list val) :
  NoDup (acc ++ xs) -> foldl (fun acc x => set_add x acc) acc xs = acc ++ xs.
Proof.
  revert acc. induction xs as [|x xs IH]; intros acc Hnd; simpl.
  { by rewrite app_nil_r. }
  assert (E : acc ++ x :: xs = (acc ++ [x]) ++ xs) by by rewrite <- app_assoc.
  unfold set_add at 2. destruct (decide (x ∈ acc)) as [Hin|Hin].
  - apply NoDup_app in Hnd as (_ & Hd & _). destruct (Hd x Hin). left.
  - rewrite IH; [done|]. by rewrite <- E.
Qed.

Lemma lookup_lt (h : heap) l o : h !! l = Some o -> bool_decide (l < length h) = true.
Proof. intros E. apply bool_decide_eq_true. by eapply lookup_lt_Some. Qed.

Ltac ok_strategy h v :=
  let l := fresh "l" in
  let o := fresh "o" in
  let E := fresh "E" in
  intros Hh Hv; destruct v as [| | | | | |l]; try done;
  destruct (h !! l) as [o|] eqn:E; [|done];
  pose proof (heap_ok_lookup h l o Hh E) as Ho;
  destruct o; try done.

Lemma identity_ok (h : heap) v :
  heap_ok h = true -> val_ok (length h) v = true -> outcome_ok h (identity h v).
Proof. by intros Hh Hv; simpl. Qed.

Lemma overflow_ok (h : heap) v :
  heap_ok h = true -> val_ok (length h) v = true -> outcome_ok h (overflow h v).
Proof. by intros Hh Hv; simpl. Qed.

Lemma duplicateFunction_ok (h : heap) v :
  heap_ok h = true -> val_ok (length h) v = true ->
  outcome_ok h (duplicateFunction h v).
Proof.
  unfold duplicateFunction. ok_strategy h v.
  destruct parses; [by apply alloc_ok|done].
Qed.

Lemma new_Error_inv m site o :
  new_Error m site = inl o ->
  exists m', o = OError "Error" m' None (CapturedAt site) []
             /\ (m' = None \/ exists s, m' = Some (StringP s)).
Proof.
  unfold new_Error. destruct m as [| |b|z|s|id]; simpl;
    try destruct b; intros [= <-]; eexists; split; eauto.
Qed.

Lemma duplicateError_ok (h : heap) v :
  heap_ok h = true -> val_ok (length h) v = true ->
  outcome_ok h (duplicateError h v).
Proof.
  unfold duplicateError. ok_strategy h v.
  destruct (new_Error _ _) as [newErr|e] eqn:En; [|done].
  apply new_Error_inv in En as (m' & -> & _).
  apply alloc_ok; [done|]. cbn in *. rewrite andb_true_r.
  apply andb_true_iff in Ho as [Ho _]. by destruct name.
Qed.

Lemma duplicateRegExp_ok (h : heap) v :
  heap_ok h = true -> val_ok (length h) v = true ->
  outcome_ok h (duplicateRegExp h v).
Proof. unfold duplicateRegExp. ok_strategy h v. by apply alloc_ok. Qed.

Lemma duplicateDate_ok (h : heap) v :
  heap_ok h = true -> val_ok (length h) v = true ->
  outcome_ok h (duplicateDate h v).
Proof. unfold duplicateDate. ok_strategy h v. by apply alloc_ok. Qed.

Lemma duplicateMapType_ok c (h : heap) v :
  heap_ok h = true -> val_ok (length h) v = true ->
  outcome_ok h (duplicateMapType c h v).
Proof.
  unfold duplicateMapType. ok_strategy h v.
  assert (Hnd : NoDup entries.*1).
  { cbn in Ho. apply andb_true_iff in Ho as [_ Ho]. by apply bool_decide_eq_true in Ho. }
  rewrite (map_set_fold [] entries Hnd). simpl.
  assert (Ho' : forall f, object_ok f h (OMap entries) = true) by done.
  destruct c; [by apply alloc_ok|].
  destruct (forallb _ entries); [|done]. by apply alloc_ok.
Qed.

Lemma duplicateSetType_ok c (h : heap) v :
  heap_ok h = true -> val_ok (length h) v = true ->
  outcome_ok h (duplicateSetType c h v).
Proof.
  unfold duplicateSetType. ok_strategy h v.
  assert (Hnd : NoDup elems).
  { cbn in Ho. apply andb_true_iff in Ho as [_ Ho]. by apply bool_decide_eq_true in Ho. }
  rewrite (set_add_fold [] elems Hnd). simpl.
  destruct c; [by apply alloc_ok|].
  destruct (forallb _ elems); [|done]. by apply alloc_ok.
Qed.

Lemma duplicatePromise_ok (h : heap) v :
  heap_ok h = true -> val_ok (length h) v = true ->
  outcome_ok h (duplicatePromise h v).
Proof.
  unfold duplicatePromise. ok_strategy h v.
  apply alloc_ok; [done|]. cbn. by rewrite (lookup_lt h _ _ E).
Qed.

Lemma duplicateArrayBuffer_ok (h : heap) v :
  heap_ok h = true -> val_ok (length h) v = true ->
  outcome_ok h (duplicateArrayBuffer h v).
Proof. unfold duplicateArrayBuffer. ok_strategy h v. by apply alloc_ok. Qed.

Lemma duplicateDataView_ok (h : heap) v :
  heap_ok h = true -> val_ok (length h) v = true ->
  outcome_ok h (duplicateDataView h v).
Proof.
  unfold duplicateDataView. ok_strategy h v.
  destruct (h !! buffer) as [[]|] eqn:Eb; try done.
  destruct (_ <=? _)%nat; [|done]. by apply alloc_ok.
Qed.

Lemma duplicate_eq depth (h : heap) elem :
  duplicate depth h elem =
  match lookup (nested depth) (typeOf h elem) with
  | Some f => f h elem
  | None => Throw h (TypeError_not_a_function (typeOf h elem))
  end.
Proof. by destruct depth. Qed.

Lemma lookup_cases dispatch t f :
  lookup dispatch t = Some f ->
  _duplicate dispatch t = Some f
  \/ (_duplicate dispatch t = None
      /\ exists name m, t = OTHER name /\ Object_prototype name = Some m
                        /\ inherited m = Some f).
Proof.
  unfold lookup. destruct (_duplicate dispatch t) as [g|] eqn:E; [by left|].
  destruct t; try done. intros Hf. right. split; [done|].
  destruct (Object_prototype name) as [m|] eqn:Em; [|done]. by exists name, m.
Qed.

Lemma lookup_own dispatch t f :
  _duplicate dispatch t = Some f -> lookup dispatch t = Some f.
Proof. unfold lookup. by intros ->. Qed.

Lemma lookup_None dispatch t :
  lookup dispatch t = None -> _duplicate dispatch t = None.
Proof. unfold lookup. by destruct (_duplicate dispatch t). Qed.

Lemma inherited_ok m f (h : heap) v :
  inherited m = Some f ->
  heap_ok h = true -> val_ok (length h) v = true -> outcome_ok h (f h v).
Proof.
  intros Hm Hh Hv. destruct m; simplify_eq/=; try done.
  - by destruct v.
  - by apply alloc_ok.
Qed.

Section Recursive_ok.

Variable dispatch : strategy.
Hypothesis dispatch_ok : forall (h : heap) v,
  heap_ok h = true -> val_ok (length h) v = true -> outcome_ok h (dispatch h v).

Lemma duplicateObject_ok (h : heap) v :
  heap_ok h = true -> val_ok (length h) v = true ->
  outcome_ok h (duplicateObject dispatch h v).
Proof.
  intros Hh Hv. destruct v; try done. simpl.
  by apply finish_ok, copy_keys_ok.
Qed.

Lemma duplicateArray_ok (h : heap) v :
  heap_ok h = true -> val_ok (length h) v = true ->
  outcome_ok h (duplicateArray dispatch h v).
Proof.
  intros Hh Hv. destruct v; try done. simpl.
  by apply finish_ok, copy_keys_ok.
Qed.

Lemma duplicateTypedArray_ok c (h : heap) v :
  heap_ok h = true -> val_ok (length h) v = true ->
  outcome_ok h (duplicateTypedArray dispatch c h v).
Proof.
  unfold duplicateTypedArray. ok_strategy h v.
  by apply finish_ok, copy_keys_ok.
Qed.

Lemma table_ok t f (h : heap) v :
  _duplicate dispatch t = Some f ->
  heap_ok h = true -> val_ok (length h) v = true -> outcome_ok h (f h v).
Proof.
  destruct t; intros [= <-];
    auto using identity_ok, duplicateFunction_ok, duplicateError_ok,
      duplicateRegExp_ok, duplicateDate_ok, duplicateObject_ok,
      duplicateArray_ok, duplicateMapType_ok, duplicateSetType_ok,
      duplicatePromise_ok, duplicateTypedArray_ok, duplicateArrayBuffer_ok,
      duplicateDataView_ok.
Qed.

Lemma lookup_ok t f (h : heap) v :
  lookup dispatch t = Some f ->
  heap_ok h = true -> val_ok (length h) v = true -> outcome_ok h (f h v).
Proof.
  intros [E|(_ & name & m & _ & _ & E)]%lookup_cases;
    [by eapply table_ok|by eapply inherited_ok].
Qed.

End Recursive_ok.

(** Every call extends a well-formed heap into a well-formed heap. *)
Lemma duplicate_ok depth (h : heap) v :
  heap_ok h = true -> val_ok (length h) v = true ->
  outcome_ok h (duplicate depth h v).
Proof.
  revert h v. induction depth as [|depth IH]; intros h v Hh Hv;
    rewrite duplicate_eq;
    destruct (lookup _ (typeOf h v)) as [f|] eqn:E; try done.
  - eapply lookup_ok; [apply overflow_ok|exact E|done|done].
  - eapply lookup_ok; [apply IH|exact E|done|done].
Qed.

(** ** Scalars *)

(** C3: for every scalar input (string, number, boolean, null, undefined,
    symbol), [duplicate] returns exactly its input and leaves the heap as
    it is, whatever stack is left: no recursion, no failure. *)
Theorem duplicate_scalar depth (h : heap) x :
  is_scalar x = true -> duplicate depth h x = Ret h x.
Proof.
  intros Hx. rewrite duplicate_eq. by destruct x.
Qed.

Lemma duplicate_scalar_witness :
  duplicate 0 [] (VString "ab") = Ret [] (VString "ab").
Proof. apply duplicate_scalar. reflexivity. Defined.

(** ** Collections, errors, buffers *)

(** C5: the copy of a strong Map or Set is a new collection, at a fresh
    location, that holds the very same keys, values and elements (the same
    references, in the same order); nothing is duplicated below it. *)
Theorem duplicate_collection_shallow depth (h : heap) l :
  (forall entries, h !! l = Some (OMap entries) -> NoDup entries.*1 ->
     duplicate depth h (VRef l) = Ret (h ++ [OMap entries]) (VRef (length h))
     /\ length h <> l)
  /\ (forall elems, h !! l = Some (OSet elems) -> NoDup elems ->
     duplicate depth h (VRef l) = Ret (h ++ [OSet elems]) (VRef (length h))
     /\ length h <> l).
Proof.
  split; intros xs E Hnd; (split; [|apply lookup_lt_Some in E; lia]);
    rewrite duplicate_eq; simpl; rewrite E; simpl; rewrite E.
  - by rewrite (map_set_fold [] xs Hnd).
  - by rewrite (set_add_fold [] xs Hnd).
Qed.

Lemma duplicate_collection_shallow_witness :
  duplicate 0 [OObject PNull []; OMap [(VRef 0, VRef 0)]] (VRef 1)
  = Ret [OObject PNull []; OMap [(VRef 0, VRef 0)]; OMap [(VRef 0, VRef 0)]]
        (VRef 2)
  /\ 2 <> 1.
Proof.
  apply (proj1 (duplicate_collection_shallow 0
                  [OObject PNull []; OMap [(VRef 0, VRef 0)]] 1)).
  - reflexivity.
  - apply NoDup_singleton.
Defined.

(** Number::toString on sample integers: beyond 2^53 the digits are those
    of the nearest double, from 10^21 on the notation is exponential, and
    from 2^1024 - 2^970 on the double is infinite. *)
Lemma Number_toString_samples :
  Number_toString 0 = "0"
  /\ Number_toString (-5) = "-5"
  /\ Number_toString 42 = "42"
  /\ Number_toString (2 ^ 53 + 1) = "9007199254740992"
  /\ Number_toString 123456789012345678901 = "123456789012345680000"
  /\ Number_toString (10 ^ 21 - 1) = "1e+21"
  /\ Number_toString (- 2 ^ 70) = "-1.1805916207174113e+21"
  /\ Number_toString (2 ^ 1024 - 2 ^ 970) = "Infinity".
Proof. repeat split; vm_compute; reflexivity. Qed.

(** C8 (as amended): the copy of an error whose message is a string, its
    own or the empty one it inherits, is a new error of the class [Error],
    at a fresh location, that owns this message and, as its name, the name
    read on the original (own or inherited), and nothing else of it: no
    custom field, and a stack captured where the copy is made.  A message
    that is not a string is not kept: an undefined one is dropped, so that
    the copy reads the empty message it inherits, a symbol makes the
    constructor throw, and null, a boolean or a number is converted to
    the string that denotes it. *)
Theorem duplicate_error depth (h : heap) l pname message name stack fields :
  h !! l = Some (OError pname message name stack fields) ->
  length h <> l
  /\ (forall s, message = Some (StringP s) \/ (message = None /\ s = "") ->
       duplicate depth h (VRef l)
       = Ret (h ++ [OError "Error" (Some (StringP s))
                           (Some (default (VString pname) name))
                           (CapturedAt "duplicateError") []])
             (VRef (length h)))
  /\ (message = Some UndefinedP ->
       duplicate depth h (VRef l)
       = Ret (h ++ [OError "Error" None (Some (default (VString pname) name))
                           (CapturedAt "duplicateError") []])
             (VRef (length h)))
  /\ (forall id, message = Some (SymbolP id) ->
       duplicate depth h (VRef l) = Throw h TypeError_symbol_to_string)
  /\ (message = Some NullP ->
       duplicate depth h (VRef l)
       = Ret (h ++ [OError "Error" (Some (StringP "null"))
                           (Some (default (VString pname) name))
                           (CapturedAt "duplicateError") []])
             (VRef (length h)))
  /\ (forall b : bool, message = Some (BooleanP b) ->
       duplicate depth h (VRef l)
       = Ret (h ++ [OError "Error" (Some (StringP (if b then "true" else "false")))
                           (Some (default (VString pname) name))
                           (CapturedAt "duplicateError") []])
             (VRef (length h)))
  /\ (forall z, message = Some (NumberP z) ->
       duplicate depth h (VRef l)
       = Ret (h ++ [OError "Error" (Some (StringP (Number_toString z)))
                           (Some (default (VString pname) name))
                           (CapturedAt "duplicateError") []])
             (VRef (length h))).
Proof.
  intros E. split; [apply lookup_lt_Some in E; lia|].
  assert (Hd : duplicate depth h (VRef l)
               = duplicateError h (VRef l)).
  { rewrite duplicate_eq. unfold typeOf. by rewrite E. }
  rewrite Hd. unfold duplicateError. rewrite E. simpl.
  repeat split.
  - by intros s [-> | [-> ->]].
  - by intros ->.
  - by intros id ->.
  - by intros ->.
  - by intros [] ->.
  - by intros z ->.
Qed.

Lemma duplicate_error_witness :
  1 <> 0
  /\ duplicate 0 [OError "TypeError" (Some (StringP "bad")) None (CapturedAt "main")
                         [(KStr "code", VNumber 7)]] (VRef 0)
     = Ret [OError "TypeError" (Some (StringP "bad")) None (CapturedAt "main")
                   [(KStr "code", VNumber 7)];
            OError "Error" (Some (StringP "bad")) (Some (VString "TypeError"))
                   (CapturedAt "duplicateError") []]
           (VRef 1).
Proof.
  destruct (duplicate_error 0
              [OError "TypeError" (Some (StringP "bad")) None (CapturedAt "main")
                      [(KStr "code", VNumber 7)]]
              0 "TypeError" (Some (StringP "bad")) None (CapturedAt "main")
              [(KStr "code", VNumber 7)] eq_refl) as (H1 & H2 & _).
  split; [exact H1|]. apply (H2 "bad"). by left.
Defined.

(** C8 does not hold as stated for every error with a message and a name:
    a message that is the number 42 is copied to the string "42", an own
    message that is undefined is copied to none, so that the copy reads the
    empty string, and on a message that is a symbol no copy is made. *)
Lemma duplicate_error_counterexample :
  (duplicate 0 [OError "Error" (Some (NumberP 42)) None (CapturedAt "main") []] (VRef 0)
   = Ret [OError "Error" (Some (NumberP 42)) None (CapturedAt "main") [];
          OError "Error" (Some (StringP "42")) (Some (VString "Error"))
                 (CapturedAt "duplicateError") []]
         (VRef 1)
   /\ StringP "42" <> NumberP 42)
  /\ (duplicate 0 [OError "Error" (Some UndefinedP) None (CapturedAt "main") []] (VRef 0)
      = Ret [OError "Error" (Some UndefinedP) None (CapturedAt "main") [];
             OError "Error" None (Some (VString "Error"))
                    (CapturedAt "duplicateError") []]
            (VRef 1)
      /\ error_message (OError "Error" None (Some (VString "Error"))
                                (CapturedAt "duplicateError") [])
         <> error_message (OError "Error" (Some UndefinedP) None (CapturedAt "main") []))
  /\ duplicate 0 [OError "Error" (Some (SymbolP 0)) None (CapturedAt "main") []] (VRef 0)
     = Throw [OError "Error" (Some (SymbolP 0)) None (CapturedAt "main") []]
             TypeError_symbol_to_string.
Proof.
  split; [|split]; [split; [vm_compute; reflexivity|discriminate]
                   |split; [vm_compute; reflexivity|discriminate]
                   |vm_compute; reflexivity].
Qed.

(** C7: the copy of an array buffer is sized by the [length] property of
    the source, which an array buffer does not have: a buffer of eight
    bytes is copied to a buffer of none. *)
Theorem duplicate_arraybuffer_loses_length :
  duplicate 0 [OArrayBuffer (replicate 8 0%Z)] (VRef 0)
  = Ret [OArrayBuffer (replicate 8 0%Z); OArrayBuffer []] (VRef 1)
  /\ length (@nil Z) <> length (replicate 8 0%Z).
Proof. split; [reflexivity|discriminate]. Qed.

(** The same at every array buffer. *)
Lemma duplicate_arraybuffer depth (h : heap) l bytes :
  h !! l = Some (OArrayBuffer bytes) ->
  duplicate depth h (VRef l) = Ret (h ++ [OArrayBuffer []]) (VRef (length h)).
Proof.
  intros E. rewrite duplicate_eq. simpl. rewrite E. simpl. rewrite E.
  unfold Get. simpl. rewrite E. simpl.
  by assert (get_from (length h) h PObjectPrototype length_key = Some VUndefined)
    as -> by by destruct (length h).
Qed.

(** ** The dispatcher and its error *)

Ltac no_dispatch_error :=
  intros ? ? ? ?; cbv beta delta [identity overflow duplicateFunction
    duplicateError duplicateRegExp duplicateDate duplicateMapType
    duplicateSetType duplicatePromise duplicateArrayBuffer duplicateDataView
    new_Error ToString alloc]; repeat case_match; simplify_eq; done.

Section Dispatch_error.

Variable dispatch : strategy.
Hypothesis dispatch_unsupported : throws_unsupported dispatch.

Lemma copy_keys_unsupported (h : heap) src target ks h' t :
  copy_keys dispatch h src target ks = Failed h' (TypeError_not_a_function t) ->
  supported t = false.
Proof.
  revert h target. induction ks as [|key ks IH]; intros h target; simpl; [done|].
  destruct (dispatch h (Get h src key)) as [h1 v|h1 e] eqn:Ed.
  - destruct (assign h1 target key v) as [target'|e] eqn:Ea; [by apply IH|].
    intros [= <- ->]. by destruct (assign_error _ _ _ _ _ Ea).
  - intros [= <- ->]. by eapply dispatch_unsupported.
Qed.

Lemma finish_unsupported (h : heap) src target ks h' t :
  finish (copy_keys dispatch h src target ks) = Throw h' (TypeError_not_a_function t) ->
  supported t = false.
Proof.
  destruct (copy_keys dispatch h src target ks) eqn:E; simpl; [done|].
  intros [= <- ->]. by eapply copy_keys_unsupported.
Qed.

Lemma table_unsupported t0 f :
  _duplicate dispatch t0 = Some f -> throws_unsupported f.
Proof.
  destruct t0; intros [= <-]; try no_dispatch_error;
    intros h v h' t; cbv beta delta [duplicateObject duplicateArray duplicateTypedArray];
    repeat case_match; try done; apply finish_unsupported.
Qed.

End Dispatch_error.

Lemma inherited_unsupported m f :
  inherited m = Some f -> throws_unsupported f.
Proof. intros Hm h v h' t. destruct m; simplify_eq/=; try done. by destruct v. Qed.

Lemma supported_None dispatch t :
  _duplicate dispatch t = None -> supported t = false.
Proof. unfold supported. by destruct t. Qed.

Lemma supported_Some dispatch t f :
  _duplicate dispatch t = Some f -> supported t = true.
Proof. unfold supported. by destruct t. Qed.

Lemma duplicate_unsupported depth : throws_unsupported (duplicate depth).
Proof.
  assert (Hstep : forall dispatch, throws_unsupported dispatch ->
    forall (h : heap) v h' t,
      match lookup dispatch (typeOf h v) with
      | Some f => f h v
      | None => Throw h (TypeError_not_a_function (typeOf h v))
      end = Throw h' (TypeError_not_a_function t) -> supported t = false).
  { intros dispatch Hd h v h' t.
    destruct (lookup dispatch (typeOf h v)) as [f|] eqn:E.
    - apply lookup_cases in E as [E|(_ & name & m & _ & _ & E)].
      + by eapply table_unsupported.
      + by eapply inherited_unsupported.
    - intros [= <- <-]. by eapply supported_None, lookup_None. }
  induction depth as [|depth IH]; intros h v h' t; rewrite duplicate_eq;
    apply Hstep; [no_dispatch_error|exact IH].
Qed.

(** C4 (as amended): a value whose tag is neither a key of the dispatch
    table nor the name of a function that the table inherits from
    [Object.prototype] makes [duplicate] fail with the error of the
    dispatcher.  When the tag is a key, the outcome is the outcome of the
    strategy found, and it is never the dispatcher's error for the tag of
    the value.  When the tag names an inherited function, that function is
    called on the value and the dispatcher does not fail either. *)
Theorem duplicate_dispatch depth (h : heap) elem :
  (supported (typeOf h elem) = false -> inherits (typeOf h elem) = false ->
     duplicate depth h elem = Throw h (TypeError_not_a_function (typeOf h elem)))
  /\ (supported (typeOf h elem) = true ->
     (exists f, _duplicate (nested depth) (typeOf h elem) = Some f
                /\ duplicate depth h elem = f h elem)
     /\ forall h', duplicate depth h elem
                   <> Throw h' (TypeError_not_a_function (typeOf h elem)))
  /\ (supported (typeOf h elem) = false -> inherits (typeOf h elem) = true ->
     (exists name m f,
        typeOf h elem = OTHER name /\ Object_prototype name = Some m
        /\ inherited m = Some f /\ duplicate depth h elem = f h elem)
     /\ forall h' t, duplicate depth h elem <> Throw h' (TypeError_not_a_function t)).
Proof.
  split; [|split].
  - intros Hs Hi. rewrite duplicate_eq. unfold supported, inherits, lookup in *.
    destruct (typeOf h elem); try done.
    simpl. by destruct (Object_prototype name ≫= inherited).
  - intros Hs. split.
    + rewrite duplicate_eq. unfold lookup.
      destruct (_duplicate (nested depth) (typeOf h elem)) as [f|] eqn:E; [by exists f|].
      by rewrite (supported_None _ _ E) in Hs.
    + intros h' E. apply duplicate_unsupported in E. congruence.
  - intros Hs Hi. unfold inherits in Hi.
    destruct (typeOf h elem) as [| | | | | | | | | | | | | | | | | | | | | | | | | | | | | | | | | |name] eqn:Et;
      try done.
    destruct (Object_prototype name) as [m|] eqn:Em; [|done]. simpl in Hi.
    destruct (inherited m) as [f|] eqn:Ef; [|done].
    assert (Hd : duplicate depth h elem = f h elem).
    { rewrite duplicate_eq, Et. unfold lookup. simpl. by rewrite Em; simpl; rewrite Ef. }
    split; [by exists name, m, f|].
    intros h' t. rewrite Hd. intros E.
    by apply (inherited_unsupported m f Ef) in E as Hns; destruct m; simplify_eq/=;
      destruct elem.
Qed.

Lemma duplicate_dispatch_witness :
  duplicate 3 [OOpaque (Unlisted "BigInt")] (VRef 0)
  = Throw [OOpaque (Unlisted "BigInt")] (TypeError_not_a_function (OTHER "BigInt"))
  /\ (forall h', duplicate 3 [OOpaque Math_] (VRef 0)
                 <> Throw h' (TypeError_not_a_function MATH))
  /\ forall h' t, duplicate 3 [OOpaque (Unlisted "toString")] (VRef 0)
                  <> Throw h' (TypeError_not_a_function t).
Proof.
  split; [|split].
  - apply (proj1 (duplicate_dispatch 3 [OOpaque (Unlisted "BigInt")] (VRef 0)));
      reflexivity.
  - apply (proj1 (proj2 (duplicate_dispatch 3 [OOpaque Math_] (VRef 0)))).
    reflexivity.
  - apply (proj2 (proj2 (duplicate_dispatch 3 [OOpaque (Unlisted "toString")] (VRef 0))));
      reflexivity.
Defined.

(** C4 does not hold as stated for every tag that is not a key of the
    table: the table is an object literal, and under the name of a function
    of [Object.prototype] it finds that function.  An object of a class
    named [constructor] is handed back by [Object], one of a class named
    [toString] is answered by the description of the table; neither call
    fails.  And under [__defineGetter__] the call fails with an error that
    is not the dispatcher's. *)
Lemma duplicate_dispatch_counterexample :
  (supported (OTHER "constructor") = false
   /\ typeOf [OOpaque (Unlisted "constructor")] (VRef 0) = OTHER "constructor"
   /\ duplicate 0 [OOpaque (Unlisted "constructor")] (VRef 0)
      = Ret [OOpaque (Unlisted "constructor")] (VRef 0))
  /\ (supported (OTHER "toString") = false
      /\ typeOf [OOpaque (Unlisted "toString")] (VRef 0) = OTHER "toString"
      /\ duplicate 0 [OOpaque (Unlisted "toString")] (VRef 0)
         = Ret [OOpaque (Unlisted "toString")] (VString "[object Object]"))
  /\ (supported (OTHER "__defineGetter__") = false
      /\ duplicate 0 [OOpaque (Unlisted "__defineGetter__")] (VRef 0)
         = Throw [OOpaque (Unlisted "__defineGetter__")]
                 TypeError_accessor_not_callable).
Proof. repeat split. Qed.

(** ** One loop, key by key *)

Lemma assigns_proto_other (h : heap) p ps k :
  k <> proto_key -> assigns_proto h p ps k = false.
Proof. intros Hk. unfold assigns_proto. by rewrite (bool_decide_eq_false_2 _ Hk). Qed.

Lemma assign_plain (h : heap) target k v :
  k <> proto_key -> (forall l, proto_of target <> PRef l) ->
  assign h target k v = assign [] target k v.
Proof.
  intros Hk Hp.
  destruct target; simpl in *; try done;
    rewrite ?assigns_proto_other, ?set_own_intrinsic, ?set_own_nil by done; done.
Qed.

Lemma assign_proto_of (h : heap) target k v target' :
  k <> proto_key -> assign h target k v = inl target' ->
  proto_of target' = proto_of target.
Proof.
  intros Hk. destruct target; simpl; try (by intros [= <-]);
    rewrite ?assigns_proto_other by done; unfold set_own; repeat case_match;
    by intros [= <-].
Qed.

Section Loop.

Variable dispatch : strategy.
Hypothesis dispatch_ok : forall (h : heap) v,
  heap_ok h = true -> val_ok (length h) v = true -> outcome_ok h (dispatch h v).

Lemma copied_weaken (h0 h h' : heap) src k v :
  heap_ok h0 = true -> src < length h0 -> h0 `prefix_of` h ->
  copied dispatch h h' src k v -> copied dispatch h0 h' src k v.
Proof.
  intros Hh0 Hsrc [ext ->] (h1 & h2 & H1 & H2 & H3 & H4 & H5 & H6).
  exists h1, h2. rewrite Get_ext in H6 by done.
  repeat split; try done. etrans; [by apply prefix_app_r|done].
Qed.

Lemma copy_keys_inv (h : heap) src target ks h' o :
  heap_ok h = true -> src < length h ->
  object_ok (S (length h)) h target = true ->
  (forall l, proto_of target <> PRef l) -> proto_key ∉ ks ->
  copy_keys dispatch h src target ks = Built h' o ->
  exists vs, Forall2 (copied dispatch h h' src) ks vs
             /\ assign_all target (zip ks vs) = inl o.
Proof.
  revert h target.
  induction ks as [|k ks IH]; intros h target Hh Hsrc Ht Hpt Hk; simpl.
  { intros [= <- <-]. by exists []. }
  apply not_elem_of_cons in Hk as [Hk Hks].
  pose proof (dispatch_ok h (Get h src k) Hh (Get_ok h src k Hh)) as Hd.
  destruct (dispatch h (Get h src k)) as [h1 v|h1 e] eqn:Ed; [|done].
  destruct Hd as ([ext ->] & Hh1 & Hv).
  assert (Ht1 : object_ok (S (length (h ++ ext))) (h ++ ext) target = true).
  { eapply object_ok_ext; [done|]. rewrite length_app. lia. }
  destruct (assign (h ++ ext) target k v) as [target'|e] eqn:Ea; [|done].
  intros Ec.
  pose proof (assign_ok _ _ _ _ _ Hh1 Ht1 Hv Ea) as Ht'.
  pose proof (copy_keys_ok dispatch dispatch_ok _ src _ ks Hh1 Ht') as Hb.
  rewrite Ec in Hb. destruct Hb as (Hp & Hh' & _).
  destruct (IH (h ++ ext) target') as (vs & Hvs & Hall); try done.
  { rewrite length_app. lia. }
  { by rewrite (assign_proto_of _ _ _ _ _ (not_eq_sym Hk) Ea). }
  exists (v :: vs). split.
  - constructor.
    + exists h, (h ++ ext). repeat split; try done. by apply prefix_app_r.
    + eapply Forall2_impl; [exact Hvs|]. intros k' v' Hc.
      eapply copied_weaken; [done|done| |exact Hc]. by apply prefix_app_r.
  - simpl. rewrite assign_plain in Ea by done. by rewrite Ea.
Qed.

End Loop.

(** ** The object a loop builds *)

Lemma put_fresh k v (ps : props) :
  assoc k ps = None -> put k v ps = ps ++ [(k, mkProp v true)].
Proof.
  induction ps as [|[k' p] ps IH]; simpl; [done|].
  destruct (decide (k = k')); [done|]. intros E. by rewrite IH.
Qed.

Lemma assoc_app_None {A} k (ps qs : list (key * A)) :
  assoc k ps = None -> assoc k (ps ++ qs) = assoc k qs.
Proof.
  induction ps as [|[k' p] ps IH]; simpl; [done|].
  by destruct (decide (k = k')).
Qed.

Lemma assoc_snoc_ne {A} k k' (a : A) (ps : list (key * A)) :
  k <> k' -> assoc k ps = None -> assoc k (ps ++ [(k', a)]) = None.
Proof.
  intros Hne E. rewrite assoc_app_None by done. simpl.
  by destruct (decide (k = k')).
Qed.

Lemma new_props_cons k ks v vs :
  new_props (k :: ks) (v :: vs) = (k, mkProp v true) :: new_props ks vs.
Proof. done. Qed.

Lemma assign_all_object p (ps0 : props) ks vs :
  proto_key ∉ ks -> NoDup ks -> length vs = length ks ->
  (forall k, k ∈ ks -> assoc k ps0 = None) ->
  assign_all (OObject p ps0) (zip ks vs)
  = inl (OObject p (ps0 ++ new_props ks vs)).
Proof.
  revert vs ps0. induction ks as [|k ks IH]; intros vs ps0 Hk Hnd Hlen Hfresh.
  { simpl. by rewrite app_nil_r. }
  destruct vs as [|v vs]; [done|]. injection Hlen as Hlen.
  apply not_elem_of_cons in Hk as [Hk Hks].
  apply NoDup_cons in Hnd as [Hk' Hnd].
  simpl zip. cbn [assign_all assign].
  assert (Hk2 : k <> proto_key) by congruence.
  rewrite assigns_proto_other, set_own_nil by done.
  rewrite put_fresh by (apply Hfresh; left).
  rewrite IH; try done.
  - by rewrite new_props_cons, <- app_assoc.
  - intros k0 Hk0. apply assoc_snoc_ne; [by intros ->|]. apply Hfresh. by right.
Qed.

Lemma array_len_cons len k ks :
  array_len len (k :: ks)
  = array_len (match k with KIdx i => len `max` S i | KStr _ => len end) ks.
Proof. done. Qed.

Lemma assign_all_array p len (ps0 : props) ks vs :
  proto_key ∉ ks -> length_key ∉ ks -> NoDup ks -> length vs = length ks ->
  (forall k, k ∈ ks -> assoc k ps0 = None) ->
  assign_all (OArray p len ps0) (zip ks vs)
  = inl (OArray p (array_len len ks) (ps0 ++ new_props ks vs)).
Proof.
  revert vs len ps0.
  induction ks as [|k ks IH]; intros vs len ps0 Hk Hl Hnd Hlen Hfresh.
  { simpl. by rewrite app_nil_r. }
  destruct vs as [|v vs]; [done|]. injection Hlen as Hlen.
  apply not_elem_of_cons in Hk as [Hk Hks].
  apply not_elem_of_cons in Hl as [Hl Hls].
  apply NoDup_cons in Hnd as [Hk' Hnd].
  assert (Hrest : forall k0, k0 ∈ ks -> assoc k0 (ps0 ++ [(k, mkProp v true)]) = None).
  { intros k0 Hk0. apply assoc_snoc_ne; [by intros ->|]. apply Hfresh. by right. }
  simpl zip. cbn [assign_all assign].
  assert (Hk2 : k <> proto_key) by congruence.
  rewrite assigns_proto_other by done.
  destruct (decide (k = length_key)); [congruence|].
  rewrite set_own_nil, put_fresh by (apply Hfresh; left).
  rewrite IH; try done. rewrite array_len_cons, new_props_cons.
  by rewrite <- app_assoc.
Qed.

(** ** What for-in lists *)

Lemma enumerate_spec l vis ks vis' :
  enumerate l vis = (ks, vis') ->
  NoDup ks
  /\ (forall k, k ∈ ks -> (k ∉ vis) /\ (k ∈ vis'))
  /\ (forall k, k ∈ vis -> k ∈ vis')
  /\ (forall k, k ∈ (l.*1) -> k ∈ vis').
Proof.
  revert vis ks vis'. induction l as [|[k e] l IH]; intros vis ks vis'; simpl.
  { intros [= <- <-]. split; [apply NoDup_nil_2|].
    split; [intros k Hk; by apply elem_of_nil in Hk|].
    split; [done|]. intros k Hk. by apply elem_of_nil in Hk. }
  destruct (decide (k ∈ vis)) as [Hin|Hin].
  - intros E. destruct (IH _ _ _ E) as (H1 & H2 & H3 & H4).
    repeat split; try done; try (by apply H2).
    intros k0 [->|Hk0]%elem_of_cons; auto.
  - destruct (enumerate l (k :: vis)) as [ks0 vis0] eqn:E. intros [= <- <-].
    destruct (IH _ _ _ E) as (H1 & H2 & H3 & H4).
    assert (Hk : k ∉ ks0).
    { intros Hk. destruct (H2 k Hk) as [Hn _]. apply Hn. left. }
    assert (Hvis : forall k0, k0 ∈ ks0 -> k0 ∉ vis).
    { intros k0 Hk0 Hv. destruct (H2 k0 Hk0) as [Hn _]. apply Hn. by right. }
    repeat split.
    + destruct e; [by constructor|done].
    + destruct e; [|by apply Hvis].
      apply elem_of_cons in H as [->|H]; [done|by apply Hvis].
    + destruct e; [|by apply H2].
      apply elem_of_cons in H as [->|H]; [apply H3; left|by apply H2].
    + intros k0 Hk0. apply H3. by right.
    + intros k0 [->|Hk0]%elem_of_cons; [apply H3; left|by apply H4].
Qed.

Lemma forin_from_spec f (h : heap) p vis ks :
  forin_from f h p vis = Some ks ->
  NoDup ks /\ forall k, k ∈ ks -> k ∉ vis.
Proof.
  revert p vis ks. induction f as [|f IH]; intros p vis ks; destruct p; simpl;
    try (intros [= <-]; split; [apply NoDup_nil_2|intros k Hk; by apply elem_of_nil in Hk]);
    try done.
  destruct (h !! l) as [o|]; [|done].
  destruct (enumerate (own_listing o) vis) as [ks1 vis1] eqn:E.
  destruct (forin_from f h (proto_of o) vis1) as [ks2|] eqn:E2; [|done].
  intros [= <-]. destruct (enumerate_spec _ _ _ _ E) as (H1 & H2 & H3 & _).
  destruct (IH _ _ _ E2) as [H4 H5]. split.
  - apply NoDup_app. repeat split; [done| |done].
    intros k Hk1 Hk2. apply (H5 k Hk2). by apply H2.
  - intros k [Hk|Hk]%elem_of_app; [by apply H2|].
    intros Hv. apply (H5 k Hk). by apply H3.
Qed.

Lemma forin_keys_NoDup (h : heap) l : NoDup (forin_keys h l).
Proof.
  unfold forin_keys.
  destruct (forin_from _ h (PRef l) []) as [ks|] eqn:E; simpl; [|apply NoDup_nil_2].
  by destruct (forin_from_spec _ _ _ _ _ E).
Qed.

(** A key whose first listing is not enumerable is never reported. *)
Lemma enumerate_hidden l1 l2 k vis :
  k ∉ l1.*1 -> k ∉ (enumerate (l1 ++ (k, false) :: l2) vis).1.
Proof.
  revert vis. induction l1 as [|[k1 e1] l1 IH]; intros vis Hk; simpl.
  - destruct (decide (k ∈ vis)) as [Hin|Hin].
    + destruct (enumerate l2 vis) as [ks vis'] eqn:E. simpl.
      intros Hks. by destruct (enumerate_spec _ _ _ _ E) as (_ & H2 & _); destruct (H2 k Hks).
    + destruct (enumerate l2 (k :: vis)) as [ks vis'] eqn:E. simpl.
      intros Hks. destruct (enumerate_spec _ _ _ _ E) as (_ & H2 & _).
      destruct (H2 k Hks) as [Hn _]. apply Hn. left.
  - apply not_elem_of_cons in Hk as [Hne Hk]. simpl in Hne.
    destruct (decide (k1 ∈ vis)); [by apply IH|].
    specialize (IH (k1 :: vis) Hk).
    destruct (enumerate (l1 ++ (k, false) :: l2) (k1 :: vis)) as [ks vis'].
    simpl in *. destruct e1; [|done].
    intros [?|?]%elem_of_cons; [congruence|done].
Qed.

(** ** The order of own keys *)

Lemma insert_idx_perm i e l : insert_idx i e l ≡ₚ (KIdx i, e) :: l.
Proof.
  induction l as [|[[j|s] e'] l IH]; simpl; try done.
  destruct (i <=? j)%nat; [done|]. rewrite IH. apply Permutation_swap.
Qed.

Lemma listing_perm (ps : props) : idx_listing ps ++ name_listing ps ≡ₚ flags ps.
Proof.
  induction ps as [|[[i|s] p] ps IH]; simpl; [done| |].
  - rewrite insert_idx_perm. simpl. by rewrite IH.
  - rewrite <- Permutation_middle. by rewrite IH.
Qed.

Lemma listing_flags (ps ps' : props) :
  flags ps = flags ps' ->
  idx_listing ps = idx_listing ps' /\ name_listing ps = name_listing ps'.
Proof.
  revert ps'. induction ps as [|[k p] ps IH]; intros [|[k' p'] ps']; try done.
  unfold flags. simpl. intros [= -> Hp Hps].
  destruct (IH ps' Hps) as [-> ->]. rewrite Hp. by destruct k'.
Qed.

Lemma flags_new_props ks vs :
  length vs = length ks -> flags (new_props ks vs) = (fun k => (k, true)) <$> ks.
Proof.
  revert vs. induction ks as [|k ks IH]; intros [|v vs]; try done.
  intros [= Hlen]. unfold flags, new_props in *. simpl. by rewrite IH.
Qed.

Lemma own_keys_new_props p ks vs :
  length vs = length ks ->
  own_keys (OObject p (new_props ks vs)) = order_keys ks.
Proof.
  intros Hlen. unfold order_keys, own_keys. simpl.
  assert (E : flags (new_props ks vs)
              = flags ((fun k => (k, mkProp VUndefined true)) <$> ks)).
  { rewrite flags_new_props by done. unfold flags. rewrite <- list_fmap_compose.
    by apply list_fmap_ext. }
  by destruct (listing_flags _ _ E) as [-> ->].
Qed.

Lemma filter_all {A} (P : A -> Prop) `{forall x, Decision (P x)} (l : list A) :
  Forall P l -> filter P l = l.
Proof.
  induction 1 as [|x l Hx Hl IH]; [done|].
  rewrite filter_cons_True by done. by rewrite IH.
Qed.

Lemma order_keys_perm ks : order_keys ks ≡ₚ ks.
Proof.
  unfold order_keys, own_keys. simpl.
  set (ps := (fun k => (k, mkProp VUndefined true)) <$> ks).
  assert (Hf : flags ps = (fun k => (k, true)) <$> ks).
  { unfold flags, ps. rewrite <- list_fmap_compose. by apply list_fmap_ext. }
  assert (Hall : Forall (fun e : key * bool => e.2 = true)
                        (idx_listing ps ++ name_listing ps)).
  { rewrite listing_perm, Hf. apply Forall_fmap. by apply Forall_true. }
  rewrite filter_all by done. rewrite listing_perm, Hf.
  rewrite <- list_fmap_compose. simpl. by rewrite list_fmap_id.
Qed.

Lemma enumerate_NoDup l vis :
  NoDup (l.*1) -> (forall k, k ∈ (l.*1) -> k ∉ vis) ->
  (enumerate l vis).1 = (filter (fun e => e.2 = true) l).*1.
Proof.
  revert vis. induction l as [|[k e] l IH]; intros vis Hnd Hvis; [done|].
  simpl in Hnd. apply NoDup_cons in Hnd as [Hk Hnd]. simpl.
  destruct (decide (k ∈ vis)) as [Hin|Hin].
  { destruct (Hvis k); [left|done]. }
  specialize (IH (k :: vis) Hnd).
  destruct (enumerate l (k :: vis)) as [ks vis'] eqn:E. simpl in *.
  rewrite IH.
  - destruct e.
    + by rewrite filter_cons_True.
    + by rewrite filter_cons_False.
  - intros k0 Hk0 [->|Hv]%elem_of_cons; [done|].
    apply (Hvis k0); [by right|done].
Qed.

(** for-in over an object whose prototype is intrinsic or null lists its
    own enumerable keys. *)
Lemma forin_keys_own (h : heap) l o :
  h !! l = Some o -> (forall l', proto_of o <> PRef l') ->
  NoDup ((own_listing o).*1) -> forin_keys h l = own_keys o.
Proof.
  intros E Hp Hnd. unfold forin_keys, own_keys. simpl. rewrite E.
  pose proof (enumerate_NoDup (own_listing o) [] Hnd) as He.
  destruct (enumerate (own_listing o) []) as [ks vis]. simpl in He.
  rewrite He by (intros k _ Hk; by apply elem_of_nil in Hk).
  assert (forin_from (length h) h (proto_of o) vis = Some []) as ->.
  { destruct (proto_of o); try (by destruct (length h)). by destruct (Hp l0). }
  simpl. by rewrite app_nil_r.
Qed.

(** ** The order of the keys of a copy *)

Local Abbreviation created ks :=
  ((fun k => (k, mkProp VUndefined true)) <$> ks) (only parsing).

Lemma order_keys_eq ks :
  order_keys ks = (idx_listing (created ks)).*1 ++ (name_listing (created ks)).*1.
Proof.
  unfold order_keys, own_keys. csimpl.
  set (ps := created ks).
  assert (Hf : flags ps = (fun k => (k, true)) <$> ks).
  { unfold flags, ps. rewrite <- list_fmap_compose. by apply list_fmap_ext. }
  assert (Hall : Forall (fun e : key * bool => e.2 = true)
                        (idx_listing ps ++ name_listing ps)).
  { rewrite listing_perm, Hf. apply Forall_fmap. by apply Forall_true. }
  rewrite filter_all by done. by rewrite fmap_app.
Qed.

Lemma name_listing_names ks : (name_listing (created ks)).*1 = names ks.
Proof.
  induction ks as [|[i|s] ks IH]; csimpl; [done| |].
  - unfold names. by rewrite filter_cons_False.
  - unfold names. rewrite filter_cons_True by done. csimpl. by rewrite IH.
Qed.

Lemma names_only ks : forallb is_name ks = true -> names ks = ks.
Proof.
  induction ks as [|[i|s] ks IH]; csimpl; try done.
  intros Hks. unfold names. rewrite filter_cons_True by done.
  f_equal. by apply IH.
Qed.

Lemma idx_listing_names ks :
  forallb is_name ks = true -> idx_listing (created ks) = [].
Proof. induction ks as [|[i|s] ks IH]; csimpl; try done. Qed.

Lemma names_app (ks1 ks2 : list key) : names (ks1 ++ ks2) = names ks1 ++ names ks2.
Proof. unfold names. apply filter_app. Qed.

Lemma idx_listing_no_name (ps : props) :
  names (idx_listing ps).*1 = [].
Proof.
  assert (Hins : forall i e l, names l.*1 = [] -> names (insert_idx i e l).*1 = []).
  { intros i e l. induction l as [|[[j|s] e'] l IH]; csimpl; try done.
    destruct (i <=? j)%nat; csimpl; [done|].
    unfold names in *. rewrite !filter_cons_False by done. apply IH. }
  induction ps as [|[[i|s] p] ps IH]; csimpl; [done|by apply Hins|done].
Qed.

Lemma names_idempotent ks : names (names ks) = names ks.
Proof.
  unfold names. induction ks as [|k ks IH]; [done|].
  destruct (decide (is_name k = true)) as [Hk|Hk].
  - rewrite filter_cons_True by done. rewrite filter_cons_True by done.
    by rewrite IH.
  - by rewrite filter_cons_False.
Qed.

(** The names keep their order. *)
Lemma order_keys_names ks : names (order_keys ks) = names ks.
Proof.
  rewrite order_keys_eq, names_app, idx_listing_no_name, name_listing_names.
  apply names_idempotent.
Qed.

Lemma insert_idx_canonical i e (l : list (key * bool)) lo :
  names l.*1 = [] -> canonical_from lo l.*1 = true ->
  canonical_from (lo `min` i) (insert_idx i e l).*1 = true
  /\ names (insert_idx i e l).*1 = [].
Proof.
  revert lo. induction l as [|[[j|s] e'] l IH]; intros lo Hn Hc; csimpl in *.
  - split; [|done]. rewrite andb_true_r. apply Nat.leb_le. lia.
  - apply andb_true_iff in Hc as [Hlo Hc]. apply Nat.leb_le in Hlo.
    unfold names in Hn. rewrite filter_cons_False in Hn by done.
    destruct (i <=? j)%nat eqn:Eij; csimpl.
    + apply Nat.leb_le in Eij. split.
      * rewrite Hc, andb_true_r. apply andb_true_iff.
        split; apply Nat.leb_le; lia.
      * unfold names. by rewrite !filter_cons_False.
    + apply Nat.leb_gt in Eij. destruct (IH j Hn Hc) as [Hc' Hn'].
      replace (j `min` i) with j in Hc' by lia. split.
      * rewrite Hc', andb_true_r. apply Nat.leb_le. lia.
      * unfold names. by rewrite filter_cons_False.
  - unfold names in Hn. by rewrite filter_cons_True in Hn.
Qed.

Lemma idx_listing_canonical (ps : props) :
  canonical_from 0 (idx_listing ps).*1 = true.
Proof.
  induction ps as [|[[i|s] p] ps IH]; csimpl; [done| |done].
  by destruct (insert_idx_canonical i (penum p) (idx_listing ps) 0
                 (idx_listing_no_name ps) IH).
Qed.

Lemma canonical_app lo (ids ns : list key) :
  names ids = [] -> canonical_from lo ids = true -> forallb is_name ns = true ->
  canonical_from lo (ids ++ ns) = true.
Proof.
  revert lo. induction ids as [|[i|s] ids IH]; intros lo Hn Hc Hns; csimpl in *.
  - by destruct ns as [|[i|s] ns].
  - apply andb_true_iff in Hc as [Hlo Hc]. rewrite Hlo. csimpl.
    unfold names in Hn. rewrite filter_cons_False in Hn by done. by apply IH.
  - unfold names in Hn. by rewrite filter_cons_True in Hn.
Qed.

Lemma names_are_names ks : forallb is_name (names ks) = true.
Proof.
  unfold names. induction ks as [|k ks IH]; [done|].
  destruct (decide (is_name k = true)) as [Hk|Hk].
  - rewrite filter_cons_True by done. csimpl. by rewrite Hk.
  - by rewrite filter_cons_False.
Qed.

(** The keys of a copy are in canonical order. *)
Lemma order_keys_canonical ks : canonical (order_keys ks) = true.
Proof.
  unfold canonical. rewrite order_keys_eq, name_listing_names.
  apply canonical_app;
    [apply idx_listing_no_name|apply idx_listing_canonical|apply names_are_names].
Qed.

Lemma idx_listing_head lo ks :
  canonical_from lo ks = true ->
  match idx_listing (created ks) with
  | (KIdx j, _) :: _ => lo <= j
  | _ => True
  end.
Proof.
  revert lo. induction ks as [|[i|s] ks IH]; intros lo Hc; csimpl in *; [done| |].
  - apply andb_true_iff in Hc as [Hlo Hc]. apply Nat.leb_le in Hlo.
    specialize (IH i Hc).
    destruct (idx_listing (created ks)) as [|[[j|s] e] l]; csimpl; try done.
    destruct (i <=? j)%nat eqn:Eij; [done|]. apply Nat.leb_gt in Eij. lia.
  - by rewrite idx_listing_names.
Qed.

(** Keys that are in canonical order keep their order. *)
Lemma order_keys_same ks : canonical ks = true -> order_keys ks = ks.
Proof.
  unfold canonical. rewrite order_keys_eq. generalize 0.
  induction ks as [|[i|s] ks IH]; intros lo Hc; csimpl in *; [done| |].
  - apply andb_true_iff in Hc as [Hlo Hc].
    pose proof (idx_listing_head i ks Hc) as Hhead.
    specialize (IH i Hc).
    destruct (idx_listing (created ks)) as [|[[j|s] e] l] eqn:El; csimpl in *.
    + by rewrite IH.
    + assert ((i <=? j)%nat = true) as -> by by apply Nat.leb_le.
      csimpl. by rewrite IH.
    + by rewrite IH.
  - rewrite idx_listing_names by done. csimpl.
    by rewrite name_listing_names, names_only.
Qed.


(** ** Deep equality survives the extension of the heap *)

Lemma deep_eq_ext (h ext : heap) a b :
  heap_ok h = true -> deep_eq h a b -> deep_eq (h ++ ext) a b.
Proof.
  intros Hh Hde.
  induction Hde as
    [ v
    | a b pa psa pb psb Ea Eb Hperm Hsub IH
    | a b pa psa pb psb len Ea Eb Hperm Hsub IH
    | a b pname ma mb name sa sb fields Ea Eb Hm
    | a b source flags i Ea Eb
    | a b tv Ea Eb
    | a b es1 es2 Ea Eb Hlen Hk IHk Hv IHv
    | a b xs1 xs2 Ea Eb Hlen Hx IHx
    | a b k elems Ea Eb
    | a b bytes Ea Eb
    | a b ba bb off len Ea Eb Hbuf IH ].
  - apply de_same.
  - pose proof (lookup_lt_Some _ _ _ Ea). pose proof (lookup_lt_Some _ _ _ Eb).
    eapply de_object; try (by apply lookup_app_l_Some).
    + by rewrite !forin_keys_ext.
    + intros k Hk. rewrite forin_keys_ext in Hk by done.
      rewrite !Get_ext by done. by apply IH.
  - pose proof (lookup_lt_Some _ _ _ Ea). pose proof (lookup_lt_Some _ _ _ Eb).
    eapply de_array; try (by apply lookup_app_l_Some).
    + by rewrite !forin_keys_ext.
    + intros k Hk. rewrite forin_keys_ext in Hk by done.
      rewrite !Get_ext by done. by apply IH.
  - eapply de_error; try (by apply lookup_app_l_Some); done.
  - eapply de_regexp; by apply lookup_app_l_Some.
  - eapply de_date; by apply lookup_app_l_Some.
  - eapply de_map; try (by apply lookup_app_l_Some); eauto.
  - eapply de_set; try (by apply lookup_app_l_Some); eauto.
  - eapply de_typed; by apply lookup_app_l_Some.
  - eapply de_buffer; by apply lookup_app_l_Some.
  - eapply de_view; try (by apply lookup_app_l_Some); done.
Qed.

(** ** Faithful values stay faithful in an extended heap *)

Lemma forallb_ext_in {A} (f g : A -> bool) (l : list A) :
  (forall x, x ∈ l -> f x = g x) -> forallb f l = forallb g l.
Proof.
  induction l as [|x l IH]; intros H; simpl; [done|].
  rewrite (H x) by left. rewrite IH; [done|]. intros y Hy. apply H. by right.
Qed.

Lemma faithful_at_ext (sub : list object -> val -> bool) (h ext : heap) v :
  heap_ok h = true -> val_ok (length h) v = true ->
  (forall v', val_ok (length h) v' = true -> sub (h ++ ext) v' = sub h v') ->
  faithful_at sub (h ++ ext) v = faithful_at sub h v.
Proof.
  intros Hh Hv Hsub. destruct v as [| | | | | |l]; try done.
  apply bool_decide_eq_true in Hv. unfold faithful_at.
  rewrite forin_keys_ext by done. rewrite lookup_app_l by done.
  assert (Hkeys :
    forallb (fun k => negb (bool_decide (k = proto_key)) && sub (h ++ ext) (Get (h ++ ext) l k))
            (forin_keys h l)
    = forallb (fun k => negb (bool_decide (k = proto_key)) && sub h (Get h l k))
              (forin_keys h l)).
  { apply forallb_ext_in. intros k _. rewrite Get_ext by done.
    rewrite Hsub; [done|]. by apply Get_ok. }
  rewrite Hkeys.
  destruct (h !! l) as [o|] eqn:E; [|done]. destruct o; try done.
  pose proof (heap_ok_lookup h l _ Hh E) as Ho. cbn in Ho.
  apply bool_decide_eq_true in Ho. by rewrite lookup_app_l.
Qed.

Lemma faithful_ext depth (h ext : heap) v :
  heap_ok h = true -> val_ok (length h) v = true ->
  faithful depth (h ++ ext) v = faithful depth h v.
Proof.
  intros Hh. revert v. induction depth as [|depth IH]; intros v Hv; simpl;
    apply faithful_at_ext; auto.
Qed.

(** ** A loop over faithful values *)

Lemma copy_keys_run dispatch (h : heap) src target ks h' vs o :
  proto_key ∉ ks -> (forall l, proto_of target <> PRef l) ->
  dup_values dispatch h src ks = Some (h', vs) ->
  assign_all target (zip ks vs) = inl o ->
  copy_keys dispatch h src target ks = Built h' o.
Proof.
  revert h target vs. induction ks as [|k ks IH]; intros h target vs Hk Hp; simpl.
  { intros [= <- <-]. simpl. by intros [= <-]. }
  apply not_elem_of_cons in Hk as [Hk Hks].
  destruct (dispatch h (Get h src k)) as [h1 v|] eqn:Ed; [|done].
  destruct (dup_values dispatch h1 src ks) as [[h2 vs']|] eqn:Er; [|done].
  intros [= <- <-]. simpl. rewrite (assign_plain h1) by done.
  destruct (assign [] target k v) as [target'|] eqn:Ea; [|done].
  apply IH; [done| |done].
  by rewrite (assign_proto_of _ _ _ _ _ (not_eq_sym Hk) Ea).
Qed.

Section Faithful_loop.

Variable dispatch : strategy.
Variable sub : list object -> val -> bool.
Hypothesis dispatch_ok : forall (h : heap) v,
  heap_ok h = true -> val_ok (length h) v = true -> outcome_ok h (dispatch h v).
Hypothesis sub_ext : forall (h ext : heap) v,
  heap_ok h = true -> val_ok (length h) v = true -> sub (h ++ ext) v = sub h v.
Hypothesis dispatch_faithful : forall (h : heap) v,
  heap_ok h = true -> val_ok (length h) v = true -> sub h v = true ->
  exists h' r, dispatch h v = Ret h' r /\ deep_eq h' r v.

Lemma dup_values_faithful (h : heap) src ks :
  heap_ok h = true -> src < length h ->
  forallb (fun k => negb (bool_decide (k = proto_key)) && sub h (Get h src k)) ks = true ->
  exists h' vs,
    dup_values dispatch h src ks = Some (h', vs)
    /\ h `prefix_of` h' /\ heap_ok h' = true
    /\ Forall2 (fun k v => deep_eq h' v (Get h src k)) ks vs.
Proof.
  revert h. induction ks as [|k ks IH]; intros h Hh Hsrc Hks; simpl.
  { exists h, []. by repeat split. }
  simpl in Hks. apply andb_true_iff in Hks as [Hk Hks].
  apply andb_true_iff in Hk as [_ Hk].
  pose proof (Get_ok h src k Hh) as Hv.
  destruct (dispatch_faithful h _ Hh Hv Hk) as (h1 & v & Ed & Hde).
  pose proof (dispatch_ok h _ Hh Hv) as Hd. rewrite Ed in Hd.
  destruct Hd as ([ext ->] & Hh1 & Hv1).
  destruct (IH (h ++ ext)) as (h' & vs & Er & [ext' ->] & Hh' & Hall); try done.
  { rewrite length_app. lia. }
  { rewrite <- Hks. apply forallb_ext_in. intros k' _.
    rewrite Get_ext by done. rewrite sub_ext; [done|done|]. by apply Get_ok. }
  exists ((h ++ ext) ++ ext'), (v :: vs). rewrite Ed, Er.
  repeat split; try done.
  - rewrite <- app_assoc. by apply prefix_app_r.
  - constructor.
    + by apply deep_eq_ext.
    + eapply Forall2_impl; [exact Hall|]. intros k' v' Hd'. simpl in *.
      by rewrite Get_ext in Hd'.
Qed.

End Faithful_loop.

(** ** Reading the object a strategy has just allocated *)

Lemma assoc_new_props (P : key -> val -> Prop) ks vs k :
  Forall2 P ks vs -> k ∈ ks ->
  exists v, assoc k (new_props ks vs) = Some (mkProp v true) /\ P k v.
Proof.
  induction 1 as [|k0 v0 ks vs HP Hall IH]; [by intros ?%elem_of_nil|].
  intros Hk. rewrite new_props_cons. simpl.
  destruct (decide (k = k0)) as [->|Hne]; [by exists v0|].
  apply elem_of_cons in Hk as [?|Hk]; [done|by apply IH].
Qed.

Lemma lookup_snoc (h : heap) o : (h ++ [o]) !! length h = Some o.
Proof. by rewrite lookup_app_r, Nat.sub_diag. Qed.

Lemma Get_snoc_own (h : heap) o k pr :
  own_lookup o k = Some pr -> Get (h ++ [o]) (length h) k = pvalue pr.
Proof.
  intros E. unfold Get. simpl. by rewrite lookup_snoc, E.
Qed.

Lemma own_keys_array p len (ps : props) :
  own_keys (OArray p len ps) = own_keys (OObject p ps).
Proof.
  unfold own_keys. simpl. rewrite !filter_app. by rewrite filter_cons_False.
Qed.

Lemma keys_new_props ks vs : length vs = length ks -> (new_props ks vs).*1 = ks.
Proof.
  revert vs. induction ks as [|k ks IH]; intros [|v vs]; try done.
  intros [= Hlen]. rewrite new_props_cons. simpl. by rewrite IH.
Qed.

Lemma flags_keys (ps : props) : (flags ps).*1 = ps.*1.
Proof. unfold flags. rewrite <- list_fmap_compose. by apply list_fmap_ext. Qed.

Lemma listing_object_NoDup p ks vs :
  length vs = length ks -> NoDup ks ->
  NoDup ((own_listing (OObject p (new_props ks vs))).*1).
Proof.
  intros Hlen Hnd. simpl. rewrite listing_perm, flags_keys.
  by rewrite keys_new_props.
Qed.

Lemma listing_array_NoDup p len ks vs :
  length vs = length ks -> NoDup ks -> length_key ∉ ks ->
  NoDup ((own_listing (OArray p len (new_props ks vs))).*1).
Proof.
  intros Hlen Hnd Hl. simpl.
  rewrite <- Permutation_middle. rewrite fmap_cons. simpl.
  rewrite listing_perm, flags_keys, keys_new_props by done.
  by apply NoDup_cons.
Qed.

(** for-in over an array never lists [length]. *)
Lemma forin_keys_array_no_length (h : heap) l p len ps :
  h !! l = Some (OArray p len ps) -> length_key ∉ forin_keys h l.
Proof.
  intros E. unfold forin_keys. simpl. rewrite E.
  pose proof (enumerate_hidden (idx_listing ps) (name_listing ps) length_key []) as Hhid.
  destruct (enumerate (own_listing (OArray p len ps)) []) as [ks vis] eqn:Ee.
  simpl in Ee. rewrite Ee in Hhid. simpl in Hhid.
  destruct (enumerate_spec _ _ _ _ Ee) as (_ & _ & _ & Hvis).
  destruct (forin_from (length h) h (proto_of (OArray p len ps)) vis) as [ks'|] eqn:Ef;
    simpl; [|by intros ?%elem_of_nil].
  intros [Hin|Hin]%elem_of_app.
  - apply Hhid; [|done]. clear. induction ps as [|[[i|s] pr] ps IH]; simpl.
    + by intros ?%elem_of_nil.
    + intros Hin. apply IH. rewrite insert_idx_perm in Hin.
      simpl in Hin. by apply elem_of_cons in Hin as [?|?].
    + done.
  - destruct (forin_from_spec _ _ _ _ _ Ef) as [_ Hn]. apply (Hn _ Hin).
    apply Hvis. simpl. rewrite fmap_app. apply elem_of_app. right. left.
Qed.

Lemma forallb_no_proto (f : key -> bool) ks :
  forallb (fun k => negb (bool_decide (k = proto_key)) && f k) ks = true ->
  proto_key ∉ ks.
Proof.
  rewrite forallb_forall. intros H Hin%list_elem_of_In.
  specialize (H _ Hin). by rewrite bool_decide_eq_true_2 in H.
Qed.

(** ** Typed arrays, element by element *)

Lemma forin_keys_typed (h : heap) l c elems :
  h !! l = Some (OTypedArray c elems) ->
  forin_keys h l = KIdx <$> seq 0 (length elems).
Proof.
  intros E. rewrite (forin_keys_own h l _ E); [|done|].
  - unfold own_keys. simpl. rewrite filter_all.
    + rewrite <- list_fmap_compose. by apply list_fmap_ext.
    + apply Forall_fmap. by apply Forall_true.
  - simpl. rewrite <- list_fmap_compose.
    assert (Hinj : Inj eq eq KIdx) by (by intros ?? [= ->]).
    apply (NoDup_fmap_2 KIdx). apply NoDup_seq.
Qed.

Lemma Get_typed (h : heap) l c elems i z :
  h !! l = Some (OTypedArray c elems) -> elems !! i = Some z ->
  Get h l (KIdx i) = VNumber z.
Proof.
  intros E Ei. unfold Get. simpl. by rewrite E; simpl; rewrite Ei.
Qed.

Lemma assign_all_typed c (pre rest elems : list Z) :
  length rest = length elems ->
  assign_all (OTypedArray c (pre ++ rest))
             (zip (KIdx <$> seq (length pre) (length elems)) (VNumber <$> elems))
  = inl (OTypedArray c (pre ++ elems)).
Proof.
  revert pre rest. induction elems as [|z elems IH]; intros pre [|r rest]; try done.
  intros [= Hlen]. simpl.
  assert (Ei : <[length pre := z]> (pre ++ r :: rest) = (pre ++ [z]) ++ rest).
  { rewrite insert_app_r_alt, Nat.sub_diag by lia. simpl. by rewrite <- app_assoc. }
  rewrite Ei. specialize (IH (pre ++ [z]) rest Hlen).
  rewrite length_app in IH. simpl in IH. rewrite Nat.add_1_r in IH.
  etrans; [exact IH|]. by rewrite <- app_assoc.
Qed.


Lemma typed_values (h h' : heap) l (es : list Z) j vs :
  (forall i z, es !! i = Some z -> Get h l (KIdx (j + i)) = VNumber z) ->
  Forall2 (fun k v => deep_eq h' v (Get h l k)) (KIdx <$> seq j (length es)) vs ->
  vs = VNumber <$> es.
Proof.
  revert j vs. induction es as [|z es IH]; intros j vs Hget Hall; simpl in *.
  { by inversion Hall. }
  inversion Hall as [|k v ks vs' Hde Hall' E1 E2]; subst.
  rewrite <- (Nat.add_0_r j) in Hde at 1. rewrite (Hget 0 z eq_refl) in Hde.
  inversion Hde; subst. f_equal.
  apply (IH (S j)); [|done].
  intros i z' Hi. replace (S j + i) with (j + S i) by lia. by apply Hget.
Qed.


Lemma Get_arraybuffer_length (h : heap) l bytes :
  h !! l = Some (OArrayBuffer bytes) -> Get h l length_key = VUndefined.
Proof.
  intros E. unfold Get. simpl. rewrite E. simpl. by destruct (length h).
Qed.


Section Faithful_strategies.

Variable dispatch : strategy.
Variable sub : list object -> val -> bool.
Hypothesis dispatch_ok : forall (h : heap) v,
  heap_ok h = true -> val_ok (length h) v = true -> outcome_ok h (dispatch h v).
Hypothesis sub_ext : forall (h ext : heap) v,
  heap_ok h = true -> val_ok (length h) v = true -> sub (h ++ ext) v = sub h v.
Hypothesis dispatch_faithful : forall (h : heap) v,
  heap_ok h = true -> val_ok (length h) v = true -> sub h v = true ->
  exists h' r, dispatch h v = Ret h' r /\ deep_eq h' r v.

Lemma duplicateObject_faithful (h : heap) l p ps :
  heap_ok h = true -> h !! l = Some (OObject p ps) ->
  forallb (fun k => negb (bool_decide (k = proto_key)) && sub h (Get h l k))
          (forin_keys h l) = true ->
  exists h' r, duplicateObject dispatch h (VRef l) = Ret h' r
               /\ deep_eq h' r (VRef l).
Proof.
  intros Hh E Hks. pose proof (lookup_lt_Some _ _ _ E) as Hl.
  destruct (dup_values_faithful dispatch sub dispatch_ok sub_ext dispatch_faithful
              h l _ Hh Hl Hks) as (h' & vs & Er & [ext ->] & Hh' & Hall).
  pose proof (Forall2_length _ _ _ Hall) as Hlen. symmetry in Hlen.
  pose proof (forallb_no_proto _ _ Hks) as Hnp.
  pose proof (forin_keys_NoDup h l) as Hnd.
  set (o := OObject PObjectPrototype (new_props (forin_keys h l) vs)).
  assert (Ec : copy_keys dispatch h l (OObject PObjectPrototype []) (forin_keys h l)
               = Built (h ++ ext) o).
  { eapply copy_keys_run; [done|done|exact Er|].
    by rewrite assign_all_object. }
  exists ((h ++ ext) ++ [o]), (VRef (length (h ++ ext))).
  split; [by unfold duplicateObject; rewrite Ec|].
  assert (Ekeys : forin_keys ((h ++ ext) ++ [o]) (length (h ++ ext))
                  = order_keys (forin_keys h l)).
  { rewrite (forin_keys_own _ _ o); [by apply own_keys_new_props|apply lookup_snoc|done|].
    by apply listing_object_NoDup. }
  eapply de_object.
  - apply lookup_snoc.
  - rewrite <- app_assoc. by apply lookup_app_l_Some.
  - rewrite Ekeys, order_keys_perm. rewrite <- app_assoc. by rewrite forin_keys_ext.
  - intros k Hk. rewrite Ekeys, order_keys_perm in Hk.
    destruct (assoc_new_props _ _ _ k Hall Hk) as (v & Ev & Hde).
    rewrite (Get_snoc_own _ o k (mkProp v true)) by done. simpl.
    apply deep_eq_ext; [done|].
    replace (Get ((h ++ ext) ++ [o]) l k) with (Get h l k); [done|].
    rewrite <- app_assoc. by rewrite Get_ext.
Qed.

Lemma duplicateArray_faithful (h : heap) l p len ps :
  heap_ok h = true -> h !! l = Some (OArray p len ps) ->
  forallb (fun k => negb (bool_decide (k = proto_key)) && sub h (Get h l k))
          (forin_keys h l) = true ->
  len = array_len 0 (forin_keys h l) ->
  exists h' r, duplicateArray dispatch h (VRef l) = Ret h' r
               /\ deep_eq h' r (VRef l).
Proof.
  intros Hh E Hks Hlen0. pose proof (lookup_lt_Some _ _ _ E) as Hl.
  destruct (dup_values_faithful dispatch sub dispatch_ok sub_ext dispatch_faithful
              h l _ Hh Hl Hks) as (h' & vs & Er & [ext ->] & Hh' & Hall).
  pose proof (Forall2_length _ _ _ Hall) as Hlen. symmetry in Hlen.
  pose proof (forallb_no_proto _ _ Hks) as Hnp.
  pose proof (forin_keys_NoDup h l) as Hnd.
  pose proof (forin_keys_array_no_length h l _ _ _ E) as Hnl.
  set (o := OArray PArrayPrototype (array_len 0 (forin_keys h l))
                   (new_props (forin_keys h l) vs)).
  assert (Ec : copy_keys dispatch h l (OArray PArrayPrototype 0 []) (forin_keys h l)
               = Built (h ++ ext) o).
  { eapply copy_keys_run; [done|done|exact Er|].
    by rewrite assign_all_array. }
  exists ((h ++ ext) ++ [o]), (VRef (length (h ++ ext))).
  split; [by unfold duplicateArray; rewrite Ec|].
  assert (Ekeys : forin_keys ((h ++ ext) ++ [o]) (length (h ++ ext))
                  = order_keys (forin_keys h l)).
  { rewrite (forin_keys_own _ _ o); [|apply lookup_snoc|done|].
    - unfold o. rewrite own_keys_array. by apply own_keys_new_props.
    - by apply listing_array_NoDup. }
  subst len. eapply de_array.
  - apply lookup_snoc.
  - rewrite <- app_assoc. by apply lookup_app_l_Some.
  - rewrite Ekeys, order_keys_perm. rewrite <- app_assoc. by rewrite forin_keys_ext.
  - intros k Hk. rewrite Ekeys, order_keys_perm in Hk.
    destruct (assoc_new_props _ _ _ k Hall Hk) as (v & Ev & Hde).
    assert (Hne : k <> length_key) by (by intros ->).
    rewrite (Get_snoc_own _ o k (mkProp v true)).
    + simpl. apply deep_eq_ext; [done|].
      replace (Get ((h ++ ext) ++ [o]) l k) with (Get h l k); [done|].
      rewrite <- app_assoc. by rewrite Get_ext.
    + simpl. by destruct (decide (k = length_key)).
Qed.

Lemma duplicateTypedArray_faithful c (h : heap) l elems :
  heap_ok h = true -> h !! l = Some (OTypedArray c elems) ->
  forallb (fun k => negb (bool_decide (k = proto_key)) && sub h (Get h l k))
          (forin_keys h l) = true ->
  exists h' r, duplicateTypedArray dispatch c h (VRef l) = Ret h' r
               /\ deep_eq h' r (VRef l).
Proof.
  intros Hh E Hks. pose proof (lookup_lt_Some _ _ _ E) as Hl.
  destruct (dup_values_faithful dispatch sub dispatch_ok sub_ext dispatch_faithful
              h l _ Hh Hl Hks) as (h' & vs & Er & [ext ->] & Hh' & Hall).
  pose proof (forallb_no_proto _ _ Hks) as Hnp.
  rewrite (forin_keys_typed h l c elems E) in *.
  assert (Hvs : vs = VNumber <$> elems).
  { eapply (typed_values h (h ++ ext) l elems 0); [|exact Hall].
    intros i z Hi. by eapply Get_typed. }
  subst vs.
  assert (Ec : copy_keys dispatch h l (OTypedArray c (replicate (length elems) 0%Z))
                 (KIdx <$> seq 0 (length elems))
               = Built (h ++ ext) (OTypedArray c elems)).
  { eapply copy_keys_run; [done|done|exact Er|].
    apply (assign_all_typed c [] (replicate (length elems) 0%Z) elems).
    by rewrite length_replicate. }
  exists ((h ++ ext) ++ [OTypedArray c elems]), (VRef (length (h ++ ext))).
  split.
  - unfold duplicateTypedArray. rewrite E, (forin_keys_typed h l c elems E).
    by rewrite Ec.
  - eapply de_typed; [apply lookup_snoc|].
    rewrite <- app_assoc. by apply lookup_app_l_Some.
Qed.


Lemma strategy_faithful (h : heap) v :
  heap_ok h = true -> val_ok (length h) v = true -> faithful_at sub h v = true ->
  exists h' r,
    match lookup dispatch (typeOf h v) with
    | Some f => f h v
    | None => Throw h (TypeError_not_a_function (typeOf h v))
    end = Ret h' r
    /\ deep_eq h' r v.
Proof.
  intros Hh Hv Hf. destruct v as [| | | | | |l];
    try (eexists _, _; split; [reflexivity|apply de_same]).
  unfold faithful_at in Hf. simpl.
  destruct (h !! l) as [o|] eqn:E; [|done].
  pose proof (heap_ok_lookup h l o Hh E) as Ho.
  destruct o; try done; cbn [object_tag lookup _duplicate].
  - by eapply duplicateObject_faithful.
  - apply andb_true_iff in Hf as [Hks Hlen]. apply bool_decide_eq_true in Hlen.
    by eapply duplicateArray_faithful.
  - unfold duplicateError. rewrite E.
    destruct message as [[]|], name as [n|]; try done;
      apply andb_true_iff in Hf as [Hp Hfs];
      apply bool_decide_eq_true in Hp as ->;
      apply bool_decide_eq_true in Hfs as ->;
      (eexists _, _; split; [reflexivity|]);
      (eapply de_error; [apply lookup_snoc|by apply lookup_app_l_Some|done]).
  - apply bool_decide_eq_true in Hf as ->.
    unfold duplicateRegExp. rewrite E. eexists _, _. split; [reflexivity|].
    eapply de_regexp; [apply lookup_snoc|by apply lookup_app_l_Some].
  - unfold duplicateDate. rewrite E. eexists _, _. split; [reflexivity|].
    eapply de_date; [apply lookup_snoc|by apply lookup_app_l_Some].
  - unfold duplicateMapType. rewrite E.
    cbn in Ho. apply andb_true_iff in Ho as [_ Hnd]. apply bool_decide_eq_true in Hnd.
    rewrite (map_set_fold [] entries Hnd). eexists _, _. split; [reflexivity|].
    eapply de_map; [apply lookup_snoc|by apply lookup_app_l_Some|done|..];
      intros i e1 e2 H1 H2; simpl in *; rewrite H1 in H2; injection H2 as ->;
      apply de_same.
  - unfold duplicateSetType. rewrite E.
    cbn in Ho. apply andb_true_iff in Ho as [_ Hnd]. apply bool_decide_eq_true in Hnd.
    rewrite (set_add_fold [] elems Hnd). eexists _, _. split; [reflexivity|].
    eapply de_set; [apply lookup_snoc|by apply lookup_app_l_Some|done|].
    intros i e1 e2 H1 H2; simpl in *; rewrite H1 in H2; injection H2 as ->.
    apply de_same.
  - destruct k; by eapply duplicateTypedArray_faithful.
  - apply bool_decide_eq_true in Hf as ->.
    unfold duplicateArrayBuffer. rewrite E, (Get_arraybuffer_length h l [] E).
    eexists _, _. split; [reflexivity|].
    eapply de_buffer; [apply lookup_snoc|by apply lookup_app_l_Some].
  - unfold duplicateDataView. rewrite E.
    destruct (h !! buffer) as [[]|]; try done. rewrite Hf.
    eexists _, _. split; [reflexivity|].
    eapply de_view; [apply lookup_snoc|by apply lookup_app_l_Some|apply de_same].
  - destruct k; try done; try (eexists _, _; split; [reflexivity|apply de_same]).
    apply bool_decide_eq_true in Hf. cbn [object_tag lookup _duplicate].
    rewrite Hf. simpl.
    eexists _, _; split; [reflexivity|apply de_same].
Qed.


End Faithful_strategies.

(** Every faithful value is copied, and the copy is deep-equal to it. *)
Lemma duplicate_faithful depth (h : heap) v :
  heap_ok h = true -> val_ok (length h) v = true -> faithful depth h v = true ->
  exists h' r, duplicate depth h v = Ret h' r /\ deep_eq h' r v.
Proof.
  revert h v. induction depth as [|depth IH]; intros h v Hh Hv Hf;
    rewrite duplicate_eq; simpl in Hf.
  - by eapply (strategy_faithful overflow (fun _ _ => false)).
  - eapply (strategy_faithful (duplicate depth) (faithful depth)); try done.
    + apply duplicate_ok.
    + intros. by apply faithful_ext.
Qed.

(** ** Copyable values are copied *)

Lemma copyable_at_ext (sub : list object -> val -> bool) (h ext : heap) v :
  heap_ok h = true -> val_ok (length h) v = true ->
  (forall v', val_ok (length h) v' = true -> sub (h ++ ext) v' = sub h v') ->
  copyable_at sub (h ++ ext) v = copyable_at sub h v.
Proof.
  intros Hh Hv Hsub. destruct v as [| | | | | |l]; try done.
  apply bool_decide_eq_true in Hv. unfold copyable_at.
  rewrite forin_keys_ext by done. rewrite lookup_app_l by done.
  assert (Hkeys :
    forallb (fun k => negb (bool_decide (k = proto_key)) && sub (h ++ ext) (Get (h ++ ext) l k))
            (forin_keys h l)
    = forallb (fun k => negb (bool_decide (k = proto_key)) && sub h (Get h l k))
              (forin_keys h l)).
  { apply forallb_ext_in. intros k _. rewrite Get_ext by done.
    rewrite Hsub; [done|]. by apply Get_ok. }
  rewrite Hkeys.
  destruct (h !! l) as [o|] eqn:E; [|done]. destruct o; try done.
  pose proof (heap_ok_lookup h l _ Hh E) as Ho. cbn in Ho.
  apply bool_decide_eq_true in Ho. by rewrite lookup_app_l.
Qed.

Lemma copyable_ext depth (h ext : heap) v :
  heap_ok h = true -> val_ok (length h) v = true ->
  copyable depth (h ++ ext) v = copyable depth h v.
Proof.
  intros Hh. revert v. induction depth as [|depth IH]; intros v Hv; simpl;
    apply copyable_at_ext; auto.
Qed.

Definition is_array (o : object) : bool :=
  match o with
  | OArray _ _ _ => true
  | _ => false
  end.

(** On a target with a built-in prototype, an assignment to a key other
    than [__proto__], and than [length] for an array, does not fail. *)
Lemma assign_total (h : heap) target k v :
  k <> proto_key -> (forall l, proto_of target <> PRef l) ->
  (is_array target = true -> k <> length_key) ->
  exists target', assign h target k v = inl target'
                  /\ is_array target' = is_array target.
Proof.
  intros Hk Hp Ha. destruct target; simpl in *; try (by eexists);
    rewrite ?assigns_proto_other, ?set_own_intrinsic by done.
  - by eexists.
  - destruct (decide (k = length_key)) as [->|]; [by destruct Ha|].
    by eexists.
  - destruct k, v; by eexists.
Qed.

Section Copyable.

Variable dispatch : strategy.
Variable sub : list object -> val -> bool.
Hypothesis dispatch_ok : forall (h : heap) v,
  heap_ok h = true -> val_ok (length h) v = true -> outcome_ok h (dispatch h v).
Hypothesis sub_ext : forall (h ext : heap) v,
  heap_ok h = true -> val_ok (length h) v = true -> sub (h ++ ext) v = sub h v.
Hypothesis dispatch_returns : forall (h : heap) v,
  heap_ok h = true -> val_ok (length h) v = true -> sub h v = true ->
  exists h' r, dispatch h v = Ret h' r.

Lemma copy_keys_returns (h0 ext0 : heap) src target ks :
  heap_ok h0 = true -> src < length h0 -> heap_ok (h0 ++ ext0) = true ->
  (forall l, proto_of target <> PRef l) ->
  (is_array target = true -> length_key ∉ ks) ->
  forallb (fun k => negb (bool_decide (k = proto_key)) && sub h0 (Get h0 src k)) ks
  = true ->
  exists h' o, copy_keys dispatch (h0 ++ ext0) src target ks = Built h' o.
Proof.
  intros Hh0 Hsrc. revert ext0 target.
  induction ks as [|k ks IH]; intros ext0 target Hh Hp Ha Hks; cbn [copy_keys].
  { by eexists _, _. }
  simpl in Hks. apply andb_true_iff in Hks as [Hk Hks].
  apply andb_true_iff in Hk as [Hk Hs].
  apply negb_true_iff, bool_decide_eq_false in Hk.
  rewrite Get_ext by done.
  assert (Hv : val_ok (length (h0 ++ ext0)) (Get h0 src k) = true).
  { eapply val_ok_mono; [by apply Get_ok|]. rewrite length_app. lia. }
  destruct (dispatch_returns (h0 ++ ext0) (Get h0 src k) Hh Hv) as (h1 & v & Ed).
  { rewrite sub_ext; [done|done|by apply Get_ok]. }
  pose proof (dispatch_ok _ _ Hh Hv) as Hd. rewrite Ed in Hd |- *.
  destruct Hd as ([ext1 ->] & Hh1 & _).
  destruct (assign_total ((h0 ++ ext0) ++ ext1) target k v Hk Hp)
    as (target' & Ea & Harr).
  { intros Hat Hkl. apply (Ha Hat). rewrite Hkl. left. }
  rewrite Ea. rewrite <- (app_assoc h0 ext0 ext1) in *.
  apply IH; try done.
  - intros l. by rewrite (assign_proto_of _ _ _ _ _ Hk Ea).
  - rewrite Harr. intros Hat Hin. apply (Ha Hat). by right.
Qed.

Lemma finish_returns (h : heap) l target :
  heap_ok h = true -> l < length h ->
  (forall l', proto_of target <> PRef l') ->
  (is_array target = true -> length_key ∉ forin_keys h l) ->
  forallb (fun k => negb (bool_decide (k = proto_key)) && sub h (Get h l k))
          (forin_keys h l) = true ->
  exists h' r, finish (copy_keys dispatch h l target (forin_keys h l)) = Ret h' r.
Proof.
  intros Hh Hl Hp Ha Hks.
  pose proof (copy_keys_returns h [] l target (forin_keys h l)) as Hr.
  rewrite app_nil_r in Hr. destruct (Hr Hh Hl Hh Hp Ha Hks) as (h' & o & ->).
  by eexists _, _.
Qed.

Lemma lookup_returns (h : heap) v :
  heap_ok h = true -> val_ok (length h) v = true -> copyable_at sub h v = true ->
  exists h' r,
    match lookup dispatch (typeOf h v) with
    | Some f => f h v
    | None => Throw h (TypeError_not_a_function (typeOf h v))
    end = Ret h' r.
Proof.
  intros Hh Hv Hc. destruct v as [| | | | | |l]; try (by eexists _, _).
  unfold copyable_at in Hc. simpl.
  pose proof (proj1 (bool_decide_eq_true _) Hv) as Hl.
  destruct (h !! l) as [o|] eqn:E; [|done].
  destruct o; try done; cbn [object_tag lookup _duplicate].
  - by apply finish_returns.
  - apply finish_returns; try done. intros _.
    by eapply forin_keys_array_no_length.
  - unfold duplicateError. rewrite E.
    destruct message as [[]|]; try done; simpl; try destruct b; by eexists _, _.
  - destruct k; cbn [object_tag lookup _duplicate]; unfold duplicateFunction;
      rewrite E, Hc; by eexists _, _.
  - unfold duplicateRegExp. rewrite E. by eexists _, _.
  - unfold duplicateDate. rewrite E. by eexists _, _.
  - unfold duplicateMapType. rewrite E. by eexists _, _.
  - unfold duplicateSetType. rewrite E. by eexists _, _.
  - unfold duplicatePromise. rewrite E. by eexists _, _.
  - destruct k; cbn [ta_tag lookup _duplicate]; unfold duplicateTypedArray;
      rewrite E; by apply finish_returns.
  - unfold duplicateArrayBuffer. rewrite E. by eexists _, _.
  - unfold duplicateDataView. rewrite E.
    destruct (h !! buffer) as [[]|]; try done. rewrite Hc. by eexists _, _.
  - destruct k; try (by eexists _, _). cbn [object_tag lookup _duplicate].
    destruct (Object_prototype name) as [m|]; [|done].
    destruct m; try done; by eexists _, _.
Qed.

End Copyable.

(** Every copyable value is copied. *)
Lemma duplicate_copyable depth (h : heap) v :
  heap_ok h = true -> val_ok (length h) v = true -> copyable depth h v = true ->
  exists h' r, duplicate depth h v = Ret h' r.
Proof.
  revert h v. induction depth as [|depth IH]; intros h v Hh Hv Hc;
    rewrite duplicate_eq; simpl in Hc.
  - by apply (lookup_returns overflow (fun _ _ => false)).
  - apply (lookup_returns (duplicate depth) (copyable depth) (duplicate_ok depth));
      [|exact IH|done..].
    intros. by apply copyable_ext.
Qed.


(** ** What a returning loop has built *)

Section Returns.

Variable dispatch : strategy.
Hypothesis dispatch_ok : forall (h : heap) v,
  heap_ok h = true -> val_ok (length h) v = true -> outcome_ok h (dispatch h v).

Lemma duplicateObject_returns (h : heap) l h' r :
  heap_ok h = true -> l < length h -> proto_key ∉ forin_keys h l ->
  duplicateObject dispatch h (VRef l) = Ret h' r ->
  exists (h1 : heap) vs,
    h' = h1 ++ [OObject PObjectPrototype (new_props (forin_keys h l) vs)]
    /\ r = VRef (length h1) /\ h `prefix_of` h1 /\ heap_ok h1 = true
    /\ Forall2 (copied dispatch h h1 l) (forin_keys h l) vs.
Proof.
  intros Hh Hl Hnp. unfold duplicateObject.
  destruct (copy_keys dispatch h l (OObject PObjectPrototype []) (forin_keys h l))
    as [h1 o|] eqn:Ec; [|done].
  simpl. intros [= <- <-].
  pose proof (copy_keys_ok dispatch dispatch_ok h l (OObject PObjectPrototype [])
                (forin_keys h l) Hh eq_refl) as Hb.
  rewrite Ec in Hb. destruct Hb as (Hp & Hh1 & _).
  destruct (copy_keys_inv dispatch dispatch_ok h l (OObject PObjectPrototype [])
              _ _ _ Hh Hl eq_refl ltac:(done) Hnp Ec) as (vs & Hall & Ea).
  pose proof (Forall2_length _ _ _ Hall) as Hlen. symmetry in Hlen.
  rewrite assign_all_object in Ea; [|done|apply forin_keys_NoDup|done..].
  injection Ea as <-. by exists h1, vs.
Qed.

Lemma duplicateArray_returns (h : heap) l p len ps h' r :
  heap_ok h = true -> h !! l = Some (OArray p len ps) ->
  proto_key ∉ forin_keys h l ->
  duplicateArray dispatch h (VRef l) = Ret h' r ->
  exists (h1 : heap) vs,
    h' = h1 ++ [OArray PArrayPrototype (array_len 0 (forin_keys h l))
                       (new_props (forin_keys h l) vs)]
    /\ r = VRef (length h1) /\ h `prefix_of` h1 /\ heap_ok h1 = true
    /\ Forall2 (copied dispatch h h1 l) (forin_keys h l) vs.
Proof.
  intros Hh E Hnp. pose proof (lookup_lt_Some _ _ _ E) as Hl. unfold duplicateArray.
  destruct (copy_keys dispatch h l (OArray PArrayPrototype 0 []) (forin_keys h l))
    as [h1 o|] eqn:Ec; [|done].
  simpl. intros [= <- <-].
  pose proof (copy_keys_ok dispatch dispatch_ok h l (OArray PArrayPrototype 0 [])
                (forin_keys h l) Hh eq_refl) as Hb.
  rewrite Ec in Hb. destruct Hb as (Hp & Hh1 & _).
  destruct (copy_keys_inv dispatch dispatch_ok h l (OArray PArrayPrototype 0 [])
              _ _ _ Hh Hl eq_refl ltac:(done) Hnp Ec) as (vs & Hall & Ea).
  pose proof (Forall2_length _ _ _ Hall) as Hlen. symmetry in Hlen.
  rewrite assign_all_array in Ea;
    [|done|by eapply forin_keys_array_no_length|apply forin_keys_NoDup|done..].
  injection Ea as <-. by exists h1, vs.
Qed.

End Returns.

Lemma nested_ok depth (h : heap) v :
  heap_ok h = true -> val_ok (length h) v = true -> outcome_ok h (nested depth h v).
Proof. destruct depth; [apply overflow_ok|apply duplicate_ok]. Qed.

(** The copy of a plain object or of an array is a new object. *)
Lemma nested_fresh depth (h : heap) a h' r :
  heap_ok h = true -> typeOf h (VRef a) = OBJECT \/ typeOf h (VRef a) = ARRAY ->
  nested depth h (VRef a) = Ret h' r ->
  exists b, r = VRef b /\ length h <= b.
Proof.
  intros Hh Ht. destruct depth as [|depth]; [done|]. simpl nested.
  rewrite duplicate_eq.
  assert (Hfin : forall target,
    object_ok (S (length h)) h target = true ->
    finish (copy_keys (nested depth) h a target (forin_keys h a)) = Ret h' r ->
    exists b, r = VRef b /\ length h <= b).
  { intros target Ht' Hr.
    pose proof (copy_keys_ok (nested depth) (nested_ok depth) h a target
                  (forin_keys h a) Hh Ht') as Hb.
    destruct (copy_keys _ h a target _) as [h1 o|]; [|done].
    destruct Hb as ([ext ->] & _). injection Hr as <- <-.
    eexists. split; [done|]. rewrite length_app. lia. }
  destruct Ht as [-> | ->]; simpl; by apply Hfin.
Qed.

Lemma copied_mono dispatch (h h1 h' : heap) src k v :
  h1 `prefix_of` h' -> copied dispatch h h1 src k v -> copied dispatch h h' src k v.
Proof.
  intros Hp (ha & hb & H1 & H2 & H3 & H4 & H5 & H6).
  exists ha, hb. repeat split; try done. by etrans.
Qed.

Lemma copied_fresh depth (h h' : heap) src k v a :
  heap_ok h = true -> copied (nested depth) h h' src k v ->
  Get h src k = VRef a ->
  typeOf h (VRef a) = OBJECT \/ typeOf h (VRef a) = ARRAY ->
  exists b, v = VRef b /\ length h <= b.
Proof.
  intros Hh (h1 & h2 & [ext ->] & _ & _ & Hh1 & _ & Hd) Ea Ht.
  rewrite Ea in Hd.
  assert (Hva : val_ok (length h) (VRef a) = true).
  { rewrite <- Ea. by apply Get_ok. }
  destruct (nested_fresh depth (h ++ ext) a h2 v Hh1) as (b & -> & Hb); [|done|].
  { by rewrite typeOf_ext. }
  exists b. split; [done|]. rewrite length_app in Hb. lia.
Qed.

(** ** Plain objects *)

(** C1 (as amended): a plain object that lists no [__proto__] key is
    copied, whenever [duplicate] returns, to a new plain object that holds
    under every key for-in lists on the source, inherited ones included,
    the value the nested call returned for the source's value.  The keys
    of the copy are the keys of the source in canonical order: the index
    keys first, ascending, then the names in the order of the source; this
    is the order of the source whenever that one is canonical.  A nested
    plain object or array is copied to a new object.  Every copyable
    source is copied: [duplicate] returns.  And a faithful source is
    copied to a deep-equal object. *)
Theorem duplicate_plain_object depth (h : heap) l p ps :
  heap_ok h = true -> h !! l = Some (OObject p ps) ->
  (forall (h' : heap) r,
     proto_key ∉ forin_keys h l -> duplicate depth h (VRef l) = Ret h' r ->
     exists l' ps',
       r = VRef l' /\ length h <= l' /\ h `prefix_of` h'
       /\ h' !! l' = Some (OObject PObjectPrototype ps')
       /\ forin_keys h' l' = order_keys (forin_keys h l)
       /\ forin_keys h' l' ≡ₚ forin_keys h l
       /\ canonical (forin_keys h' l') = true
       /\ names (forin_keys h' l') = names (forin_keys h l)
       /\ (canonical (forin_keys h l) = true ->
           forin_keys h' l' = forin_keys h l)
       /\ forall k, k ∈ forin_keys h l ->
            exists v, assoc k ps' = Some (mkProp v true)
                      /\ Get h' l' k = v
                      /\ copied (nested depth) h h' l k v
                      /\ (forall a, Get h l k = VRef a ->
                            typeOf h (VRef a) = OBJECT \/ typeOf h (VRef a) = ARRAY ->
                            exists b, v = VRef b /\ length h <= b))
  /\ (copyable depth h (VRef l) = true ->
      exists (h' : heap) r, duplicate depth h (VRef l) = Ret h' r)
  /\ (faithful depth h (VRef l) = true ->
      exists (h' : heap) r,
        duplicate depth h (VRef l) = Ret h' r /\ deep_eq h' r (VRef l)).
Proof.
  intros Hh E. pose proof (lookup_lt_Some _ _ _ E) as Hl. split; [|split].
  - intros h' r Hnp. rewrite duplicate_eq. simpl. rewrite E. simpl. intros Hr.
    destruct (duplicateObject_returns (nested depth) (nested_ok depth)
                h l h' r Hh Hl Hnp Hr) as (h1 & vs & -> & -> & Hp & Hh1 & Hall).
    pose proof (Forall2_length _ _ _ Hall) as Hlen. symmetry in Hlen.
    set (o := OObject PObjectPrototype (new_props (forin_keys h l) vs)).
    exists (length h1), (new_props (forin_keys h l) vs).
    split; [done|]. split; [by apply prefix_length|].
    split; [etrans; [exact Hp|by apply prefix_app_r]|].
    split; [apply lookup_snoc|].
    assert (Ekeys : forin_keys (h1 ++ [o]) (length h1) = order_keys (forin_keys h l)).
    { rewrite (forin_keys_own _ _ o); [by apply own_keys_new_props|apply lookup_snoc|done|].
      apply listing_object_NoDup; [done|apply forin_keys_NoDup]. }
    split; [exact Ekeys|]. rewrite Ekeys.
    split; [apply order_keys_perm|]. split; [apply order_keys_canonical|].
    split; [apply order_keys_names|]. split; [apply order_keys_same|].
    intros k Hk. destruct (assoc_new_props _ _ _ k Hall Hk) as (v & Ev & Hc).
    exists v. split; [done|]. split; [by rewrite (Get_snoc_own _ o k _ Ev)|].
    split; [apply (copied_mono _ h h1); [by apply prefix_app_r|done]|].
    intros a Ea Ht. by eapply copied_fresh.
  - intros Hc. apply duplicate_copyable; [done| |done].
    by apply bool_decide_eq_true.
  - intros Hf. apply duplicate_faithful; [done| |done].
    by apply bool_decide_eq_true.
Qed.

Lemma duplicate_plain_object_witness :
  (exists (h' : heap) r, duplicate 1 heap_mixed (VRef 0) = Ret h' r)
  /\ exists (h' : heap) r,
    duplicate 2 heap_nested (VRef 0) = Ret h' r
    /\ deep_eq h' r (VRef 0)
    /\ exists l' ps',
         r = VRef l' /\ length heap_nested <= l'
         /\ h' !! l' = Some (OObject PObjectPrototype ps')
         /\ forin_keys h' l' = forin_keys heap_nested 0.
Proof.
  split.
  { apply (proj1 (proj2 (duplicate_plain_object 1 heap_mixed 0 _ _ eq_refl eq_refl))).
    reflexivity. }
  destruct (duplicate_plain_object 2 heap_nested 0 _ _ eq_refl eq_refl)
    as (H1 & _ & H2).
  destruct (H2 eq_refl) as (h' & r & Hr & Hde).
  assert (Hnp : proto_key ∉ forin_keys heap_nested 0).
  { apply (bool_decide_unpack _). vm_compute. exact I. }
  destruct (H1 h' r Hnp Hr)
    as (l' & ps' & E1 & E2 & _ & E3 & _ & _ & _ & _ & E4 & _).
  exists h', r. split; [exact Hr|]. split; [exact Hde|].
  exists l', ps'. repeat split; try done. by apply E4.
Defined.

Ltac absurd_lookup := by simplify_eq/=.

(** C1 does not hold as stated for every plain object: a cyclic object is
    not copied at all, whatever the stack; an inherited index key changes
    the key order of the copy; the copy of an object that holds a function
    is not deep-equal to it; and a [__proto__] key of the source is not a
    key of the copy, which lists the keys of its new prototype instead. *)
Lemma duplicate_plain_object_counterexample :
  (forall depth,
     duplicate depth heap_cyclic (VRef 0) = Throw heap_cyclic RangeError_call_stack)
  /\ (exists (h' : heap) l' o,
        duplicate 1 heap_inherited (VRef 1) = Ret h' (VRef l')
        /\ h' !! l' = Some o
        /\ own_keys o = [KIdx 1; KStr "b"]
        /\ forin_keys heap_inherited 1 = [KStr "b"; KIdx 1])
  /\ (exists (h' : heap) l',
        duplicate 1 heap_method (VRef 0) = Ret h' (VRef l')
        /\ ~ deep_eq h' (VRef l') (VRef 0))
  /\ (exists (h' : heap) l',
        duplicate 2 heap_proto_key (VRef 0) = Ret h' (VRef l')
        /\ forin_keys heap_proto_key 0 = [proto_key]
        /\ forin_keys h' l' = [KStr "c"]).
Proof.
  split; [|split; [|split]]; [| | |by eexists _, _; split; [vm_compute|]].
  - induction depth as [|depth IH]; [reflexivity|].
    rewrite duplicate_eq.
    change (duplicateObject (duplicate depth) heap_cyclic (VRef 0)
            = Throw heap_cyclic RangeError_call_stack).
    unfold duplicateObject.
    change (forin_keys heap_cyclic 0) with [KStr "self"].
    cbn [copy_keys].
    change (Get heap_cyclic 0 (KStr "self")) with (VRef 0).
    by rewrite IH.
  - eexists _, _, _. split; [vm_compute; reflexivity|].
    split; [reflexivity|]. split; reflexivity.
  - eexists _, _. split; [vm_compute; reflexivity|].
    intros H. inversion H as
      [ | a b pa psa pb psb Ea Eb Hperm Hsub | | | | | | | | | ];
      subst; try absurd_lookup.
    assert (Hf : deep_eq
      [OObject PObjectPrototype [(KStr "f", enum (VRef 1))];
       OFunction PlainFunc "function () {}" true;
       OFunction PlainFunc "function () {}" true;
       OObject PObjectPrototype [(KStr "f", enum (VRef 2))]] (VRef 2) (VRef 1)).
    { apply (Hsub (KStr "f")). vm_compute. left. }
    inversion Hf; subst; absurd_lookup.
Qed.

(** ** Arrays *)

(** C2 (as amended): an array that lists no [__proto__] key is copied,
    whenever [duplicate] returns, to a new array that holds under every
    key for-in lists on the source (indices present, other enumerable
    properties, inherited ones) the value the nested call returned for the
    source's value, and whose length is one more than the largest index
    listed; its keys are those of the source in canonical order, which is
    the order of the source whenever that one is canonical; an inner array
    or object is copied to a new object.  Every copyable array is copied:
    [duplicate] returns, also when the array ends in a hole or holds
    functions, promises or buffers.  And a faithful array, which ends on
    its last listed index, is copied to a deep-equal array. *)
Theorem duplicate_array_spec depth (h : heap) l p len ps :
  heap_ok h = true -> h !! l = Some (OArray p len ps) ->
  (forall (h' : heap) r,
     proto_key ∉ forin_keys h l -> duplicate depth h (VRef l) = Ret h' r ->
     exists l' ps',
       r = VRef l' /\ length h <= l' /\ h `prefix_of` h'
       /\ h' !! l' = Some (OArray PArrayPrototype
                                  (array_len 0 (forin_keys h l)) ps')
       /\ forin_keys h' l' = order_keys (forin_keys h l)
       /\ forin_keys h' l' ≡ₚ forin_keys h l
       /\ canonical (forin_keys h' l') = true
       /\ names (forin_keys h' l') = names (forin_keys h l)
       /\ (canonical (forin_keys h l) = true ->
           forin_keys h' l' = forin_keys h l)
       /\ forall k, k ∈ forin_keys h l ->
            exists v, assoc k ps' = Some (mkProp v true)
                      /\ Get h' l' k = v
                      /\ copied (nested depth) h h' l k v
                      /\ (forall a, Get h l k = VRef a ->
                            typeOf h (VRef a) = OBJECT \/ typeOf h (VRef a) = ARRAY ->
                            exists b, v = VRef b /\ length h <= b))
  /\ (copyable depth h (VRef l) = true ->
      exists (h' : heap) r, duplicate depth h (VRef l) = Ret h' r)
  /\ (faithful depth h (VRef l) = true ->
      exists (h' : heap) r,
        duplicate depth h (VRef l) = Ret h' r /\ deep_eq h' r (VRef l)).
Proof.
  intros Hh E. pose proof (lookup_lt_Some _ _ _ E) as Hl. split; [|split].
  2:{ intros Hc. apply duplicate_copyable; [done| |done].
      by apply bool_decide_eq_true. }
  - intros h' r Hnp. rewrite duplicate_eq. simpl. rewrite E. simpl. intros Hr.
    destruct (duplicateArray_returns (nested depth) (nested_ok depth)
                h l p len ps h' r Hh E Hnp Hr)
      as (h1 & vs & -> & -> & Hp & Hh1 & Hall).
    pose proof (Forall2_length _ _ _ Hall) as Hlen. symmetry in Hlen.
    pose proof (forin_keys_array_no_length h l _ _ _ E) as Hnl.
    set (o := OArray PArrayPrototype (array_len 0 (forin_keys h l))
                     (new_props (forin_keys h l) vs)).
    exists (length h1), (new_props (forin_keys h l) vs).
    split; [done|]. split; [by apply prefix_length|].
    split; [etrans; [exact Hp|by apply prefix_app_r]|].
    split; [apply lookup_snoc|].
    assert (Ekeys : forin_keys (h1 ++ [o]) (length h1) = order_keys (forin_keys h l)).
    { rewrite (forin_keys_own _ _ o); [|apply lookup_snoc|done|].
      - unfold o. rewrite own_keys_array. by apply own_keys_new_props.
      - apply listing_array_NoDup; [done|apply forin_keys_NoDup|done]. }
    split; [exact Ekeys|]. rewrite Ekeys.
    split; [apply order_keys_perm|]. split; [apply order_keys_canonical|].
    split; [apply order_keys_names|]. split; [apply order_keys_same|].
    intros k Hk. destruct (assoc_new_props _ _ _ k Hall Hk) as (v & Ev & Hc).
    assert (Hne : k <> length_key) by (by intros ->).
    exists v. split; [done|]. split.
    { rewrite (Get_snoc_own _ o k (mkProp v true)); [done|].
      simpl. by destruct (decide (k = length_key)). }
    split; [apply (copied_mono _ h h1); [by apply prefix_app_r|done]|].
    intros a Ea Ht. by eapply copied_fresh.
  - intros Hf. apply duplicate_faithful; [done| |done].
    by apply bool_decide_eq_true.
Qed.

Lemma duplicate_array_spec_witness :
  (exists (h' : heap) r, duplicate 1 heap_hole (VRef 0) = Ret h' r)
  /\ exists (h' : heap) r,
    duplicate 2 heap_array (VRef 0) = Ret h' r
    /\ deep_eq h' r (VRef 0)
    /\ exists l' ps',
         r = VRef l' /\ length heap_array <= l'
         /\ h' !! l' = Some (OArray PArrayPrototype 2 ps')
         /\ forin_keys h' l' = forin_keys heap_array 0.
Proof.
  split.
  { apply (proj1 (proj2 (duplicate_array_spec 1 heap_hole 0 _ _ _ eq_refl eq_refl))).
    reflexivity. }
  destruct (duplicate_array_spec 2 heap_array 0 _ _ _ eq_refl eq_refl)
    as (H1 & _ & H2).
  destruct (H2 eq_refl) as (h' & r & Hr & Hde).
  assert (Hnp : proto_key ∉ forin_keys heap_array 0).
  { apply (bool_decide_unpack _). vm_compute. exact I. }
  destruct (H1 h' r Hnp Hr)
    as (l' & ps' & E1 & E2 & _ & E3 & _ & _ & _ & _ & E4 & _).
  exists h', r. split; [exact Hr|]. split; [exact Hde|].
  exists l', ps'. repeat split; try done. by apply E4.
Defined.

(** C2 does not hold as stated for every array: a cyclic array is not
    copied at all; the copy of an array that ends in a hole is shorter,
    hence not deep-equal to it; and an own [__proto__] key of the source
    becomes the prototype of the copy, not one of its keys. *)
Lemma duplicate_array_spec_counterexample :
  (forall depth,
     duplicate depth heap_cyclic_array (VRef 0)
     = Throw heap_cyclic_array RangeError_call_stack)
  /\ (exists (h' : heap) l',
        duplicate 1 heap_hole (VRef 0) = Ret h' (VRef l')
        /\ h' !! l' = Some (OArray PArrayPrototype 1 [(KIdx 0, enum (VNumber 1))])
        /\ ~ deep_eq h' (VRef l') (VRef 0))
  /\ (exists (h' : heap) l',
        duplicate 2 heap_proto_array (VRef 0) = Ret h' (VRef l')
        /\ h' !! l' = Some (OArray (PRef 2) 1 [(KIdx 0, enum (VNumber 1))])
        /\ proto_key ∈ forin_keys heap_proto_array 0
        /\ proto_key ∉ forin_keys h' l').
Proof.
  split; [|split].
  3:{ eexists _, _. split; [vm_compute; reflexivity|]. split; [reflexivity|].
      split; [vm_compute; right; left|].
      apply (bool_decide_unpack _). vm_compute. exact I. }
  - induction depth as [|depth IH]; [reflexivity|].
    rewrite duplicate_eq.
    change (duplicateArray (duplicate depth) heap_cyclic_array (VRef 0)
            = Throw heap_cyclic_array RangeError_call_stack).
    unfold duplicateArray.
    change (forin_keys heap_cyclic_array 0) with [KIdx 0].
    cbn [copy_keys].
    change (Get heap_cyclic_array 0 (KIdx 0)) with (VRef 0).
    by rewrite IH.
  - eexists _, _. split; [vm_compute; reflexivity|]. split; [reflexivity|].
    intros H. inversion H; absurd_lookup.
Qed.

(** ** A source that lists [__proto__] *)

Lemma assoc_put_ne k k' v (ps : props) :
  k <> k' -> assoc k (put k' v ps) = assoc k ps.
Proof.
  intros Hne. induction ps as [|[k0 p0] ps IH]; simpl.
  { by destruct (decide (k = k')). }
  destruct (decide (k' = k0)) as [->|Hk0]; simpl.
  - by destruct (decide (k = k0)).
  - destruct (decide (k = k0)); [done|apply IH].
Qed.

(** Without that key the loop keeps the prototype of its target, and
    creates no property of that name. *)
Lemma copy_keys_keeps_proto dispatch (h : heap) src p ps ks h' o :
  proto_key ∉ ks ->
  copy_keys dispatch h src (OObject p ps) ks = Built h' o ->
  exists ps', o = OObject p ps' /\ assoc proto_key ps' = assoc proto_key ps.
Proof.
  revert h ps. induction ks as [|k ks IH]; intros h ps Hk; simpl.
  { intros [= <- <-]. by exists ps. }
  apply not_elem_of_cons in Hk as [Hk Hks].
  destruct (dispatch h (Get h src k)) as [h1 v|h1 e]; [|done].
  cbn [assign]. rewrite assigns_proto_other by done.
  destruct (set_own h1 p ps k v) as [[ps1|]|e] eqn:Es; try done.
  - apply set_own_inv in Es as ->. intros Ec.
    destruct (IH _ _ Hks Ec) as (ps' & -> & Hps'). exists ps'.
    split; [done|]. by rewrite Hps', assoc_put_ne.
  - by apply IH.
Qed.

Section Proto_loop.

Variable dispatch : strategy.
Hypothesis dispatch_ok : forall (h : heap) v,
  heap_ok h = true -> val_ok (length h) v = true -> outcome_ok h (dispatch h v).

(** With that key, the loop of [duplicateObject] hands the copied value to
    the setter of [Object.prototype] and creates no property. *)
Lemma copy_keys_sets_proto (h : heap) src ps ks h' o :
  heap_ok h = true -> src < length h ->
  object_ok (S (length h)) h (OObject PObjectPrototype ps) = true ->
  NoDup ks -> proto_key ∈ ks -> assoc proto_key ps = None ->
  copy_keys dispatch h src (OObject PObjectPrototype ps) ks = Built h' o ->
  exists ps' v,
    o = OObject (set_proto PObjectPrototype v) ps'
    /\ assoc proto_key ps' = None
    /\ copied dispatch h h' src proto_key v.
Proof.
  revert h ps.
  induction ks as [|k ks IH]; intros h ps Hh Hsrc Ht Hnd Hin Hps; cbn [copy_keys].
  { by apply elem_of_nil in Hin. }
  apply NoDup_cons in Hnd as [Hk Hnd].
  pose proof (dispatch_ok h (Get h src k) Hh (Get_ok h src k Hh)) as Hd.
  destruct (dispatch h (Get h src k)) as [h1 v|h1 e] eqn:Ed; [|done].
  destruct Hd as ([ext ->] & Hh1 & Hv).
  assert (Ht1 : object_ok (S (length (h ++ ext))) (h ++ ext)
                          (OObject PObjectPrototype ps) = true).
  { eapply object_ok_ext; [exact Ht|]. rewrite length_app. lia. }
  assert (Hsrc1 : src < length (h ++ ext)) by (rewrite length_app; lia).
  destruct (assign (h ++ ext) (OObject PObjectPrototype ps) k v)
    as [target'|e] eqn:Ea; [|done].
  pose proof (assign_ok _ _ _ _ _ Hh1 Ht1 Hv Ea) as Ht'.
  intros Ec.
  pose proof (copy_keys_ok dispatch dispatch_ok _ src _ ks Hh1 Ht') as Hb.
  rewrite Ec in Hb. destruct Hb as (Hp & Hh' & _).
  cbn [assign] in Ea.
  destruct (decide (k = proto_key)) as [->|Hne].
  - assert (Eap : assigns_proto (h ++ ext) PObjectPrototype ps proto_key = true).
    { unfold assigns_proto. rewrite Hps. by rewrite !bool_decide_eq_true_2. }
    rewrite Eap in Ea. injection Ea as <-.
    destruct (copy_keys_keeps_proto _ _ _ _ _ _ _ _ Hk Ec) as (ps' & -> & Hps').
    exists ps', v. split; [done|]. split; [by rewrite Hps'|].
    exists h, (h ++ ext). repeat split; try done. by apply prefix_app_r.
  - rewrite assigns_proto_other, set_own_intrinsic in Ea by done.
    injection Ea as <-.
    apply elem_of_cons in Hin as [Hin|Hin]; [congruence|].
    destruct (IH _ _ Hh1 Hsrc1 Ht' Hnd Hin) as (ps' & v' & -> & Hps' & Hc);
      [by rewrite assoc_put_ne|exact Ec|].
    exists ps', v'. split; [done|]. split; [done|].
    eapply copied_weaken; [done|done|by apply prefix_app_r|exact Hc].
Qed.

End Proto_loop.


(** ** The prototype of a copy *)

(** C10 (as amended): when a plain object lists no [__proto__] key, the
    copy [duplicate] returns is a new object whose prototype is
    [Object.prototype], whatever the prototype of the source, and whose
    own enumerable properties are exactly the keys for-in lists on the
    source, inherited ones included.  When the source lists [__proto__],
    the copy is a new object that owns no property of that name: the value
    copied for that key went to the setter of [Object.prototype], which
    makes it the prototype of the copy when it is an object or null and
    leaves [Object.prototype] in place otherwise. *)
Theorem duplicate_object_prototype depth (h h' : heap) l p ps r :
  heap_ok h = true -> h !! l = Some (OObject p ps) ->
  duplicate depth h (VRef l) = Ret h' r ->
  (proto_key ∉ forin_keys h l ->
   exists l' ps',
     r = VRef l' /\ length h <= l'
     /\ h' !! l' = Some (OObject PObjectPrototype ps')
     /\ ps'.*1 = forin_keys h l
     /\ forall k, k ∈ forin_keys h l ->
          exists v, own_lookup (OObject PObjectPrototype ps') k = Some (mkProp v true))
  /\ (proto_key ∈ forin_keys h l ->
      exists l' ps' v,
        r = VRef l' /\ length h <= l'
        /\ copied (nested depth) h h' l proto_key v
        /\ h' !! l' = Some (OObject match v with
                                    | VRef b => PRef b
                                    | VNull => PNull
                                    | _ => PObjectPrototype
                                    end ps')
        /\ assoc proto_key ps' = None).
Proof.
  intros Hh E. pose proof (lookup_lt_Some _ _ _ E) as Hl.
  rewrite duplicate_eq. simpl. rewrite E. simpl. intros Hr. split.
  - intros Hnp.
    destruct (duplicateObject_returns (nested depth) (nested_ok depth)
                h l h' r Hh Hl Hnp Hr) as (h1 & vs & -> & -> & Hp & Hh1 & Hall).
    pose proof (Forall2_length _ _ _ Hall) as Hlen. symmetry in Hlen.
    exists (length h1), (new_props (forin_keys h l) vs).
    split; [done|]. split; [by apply prefix_length|].
    split; [apply lookup_snoc|]. split; [by apply keys_new_props|].
    intros k Hk. destruct (assoc_new_props _ _ _ k Hall Hk) as (v & Ev & _).
    by exists v.
  - intros Hin. unfold duplicateObject in Hr.
    pose proof (copy_keys_ok (nested depth) (nested_ok depth) h l
                  (OObject PObjectPrototype []) (forin_keys h l) Hh eq_refl) as Hb.
    destruct (copy_keys (nested depth) h l (OObject PObjectPrototype [])
                        (forin_keys h l)) as [h1 o|] eqn:Ec; [|done].
    destruct Hb as (Hp & Hh1 & _). simpl in Hr. injection Hr as <- <-.
    destruct (copy_keys_sets_proto (nested depth) (nested_ok depth) h l []
                (forin_keys h l) h1 o Hh Hl eq_refl (forin_keys_NoDup h l) Hin
                eq_refl Ec) as (ps' & v & -> & Hps' & Hc).
    exists (length h1), ps', v.
    split; [done|]. split; [by apply prefix_length|].
    split; [apply (copied_mono _ h h1); [by apply prefix_app_r|done]|].
    split; [|done]. rewrite lookup_snoc. by destruct v.
Qed.

Lemma duplicate_object_prototype_witness :
  (exists l' ps',
    VRef 2 = VRef l' /\ length heap_inherited <= l'
    /\ (heap_inherited
        ++ [OObject PObjectPrototype
              [(KStr "b", enum (VNumber 2)); (KIdx 1, enum (VString "x"))]]) !! l'
       = Some (OObject PObjectPrototype ps')
    /\ ps'.*1 = forin_keys heap_inherited 1
    /\ forall k, k ∈ forin_keys heap_inherited 1 ->
         exists v, own_lookup (OObject PObjectPrototype ps') k = Some (mkProp v true))
  /\ (exists l' ps' v,
        VRef 3 = VRef l' /\ length heap_proto_key <= l'
        /\ copied (nested 2) heap_proto_key
                  (heap_proto_key
                   ++ [OObject PObjectPrototype [(KStr "c", enum (VNumber 2))];
                       OObject (PRef 2) []]) 0 proto_key v
        /\ (heap_proto_key
            ++ [OObject PObjectPrototype [(KStr "c", enum (VNumber 2))];
                OObject (PRef 2) []]) !! l'
           = Some (OObject match v with
                           | VRef b => PRef b
                           | VNull => PNull
                           | _ => PObjectPrototype
                           end ps')
        /\ assoc proto_key ps' = None).
Proof.
  split.
  - apply (proj1 (duplicate_object_prototype 1 heap_inherited _ 1 (PRef 0)
                    [(KStr "b", enum (VNumber 2))] _ eq_refl eq_refl eq_refl)).
    apply (bool_decide_unpack _). vm_compute. exact I.
  - apply (proj2 (duplicate_object_prototype 2 heap_proto_key _ 0 PObjectPrototype
                    [(proto_key, enum (VRef 1))] _ eq_refl eq_refl eq_refl)).
    vm_compute. left.
Defined.

(** C10 does not hold as stated for every plain object: on a source with
    an own enumerable [__proto__] key the assignment replaces the prototype
    of the copy by the copy of that value and creates no own property. *)
Lemma duplicate_object_prototype_counterexample :
  exists (h' : heap) l',
    duplicate 2 heap_proto_key (VRef 0) = Ret h' (VRef l')
    /\ h' !! l' = Some (OObject (PRef 2) [])
    /\ proto_key ∈ forin_keys heap_proto_key 0
    /\ own_lookup (OObject (PRef 2) []) proto_key = None.
Proof.
  eexists _, _. split; [vm_compute; reflexivity|].
  split; [reflexivity|]. split; [vm_compute; left|reflexivity].
Qed.

(** ** The copy of an inert value is faithful *)

Lemma inert_at_ext (sub : list object -> val -> bool) (h ext : heap) v :
  heap_ok h = true -> val_ok (length h) v = true ->
  (forall v', val_ok (length h) v' = true -> sub (h ++ ext) v' = sub h v') ->
  inert_at sub (h ++ ext) v = inert_at sub h v.
Proof.
  intros Hh Hv Hsub. destruct v as [| | | | | |l]; try done.
  apply bool_decide_eq_true in Hv. unfold inert_at.
  rewrite forin_keys_ext by done. rewrite lookup_app_l by done.
  assert (Hkeys :
    forallb (fun k => negb (bool_decide (k = proto_key)) && sub (h ++ ext) (Get (h ++ ext) l k))
            (forin_keys h l)
    = forallb (fun k => negb (bool_decide (k = proto_key)) && sub h (Get h l k))
              (forin_keys h l)).
  { apply forallb_ext_in. intros k _. rewrite Get_ext by done.
    rewrite Hsub; [done|]. by apply Get_ok. }
  by rewrite Hkeys.
Qed.

Lemma inert_ext depth (h ext : heap) v :
  heap_ok h = true -> val_ok (length h) v = true ->
  inert depth (h ++ ext) v = inert depth h v.
Proof.
  intros Hh. revert v. induction depth as [|depth IH]; intros v Hv; simpl;
    apply inert_at_ext; auto.
Qed.

Lemma array_len_perm len ks ks' : ks ≡ₚ ks' -> array_len len ks = array_len len ks'.
Proof.
  intros Hp. revert len.
  induction Hp as [|k ks ks' Hp IH|k1 k2 ks|ks1 ks2 ks3 H1 IH1 H2 IH2]; intros len.
  - done.
  - rewrite !array_len_cons. apply IH.
  - rewrite !array_len_cons. f_equal. destruct k1, k2; lia.
  - by rewrite IH1.
Qed.

Lemma assign_all_typed_kind c (es : list Z) kvs o :
  assign_all (OTypedArray c es) kvs = inl o ->
  exists es', o = OTypedArray c es' /\ length es' = length es.
Proof.
  revert es. induction kvs as [|[k v] kvs IH]; intros es; simpl.
  { intros [= <-]. by exists es. }
  destruct k, v; try apply IH.
  intros Ha. destruct (IH _ Ha) as (es' & -> & Hlen).
  exists es'. by rewrite Hlen, length_insert.
Qed.

Lemma faithful_at_object sub (h : heap) l p ps :
  h !! l = Some (OObject p ps) ->
  faithful_at sub h (VRef l)
  = forallb (fun k => negb (bool_decide (k = proto_key)) && sub h (Get h l k))
            (forin_keys h l).
Proof. intros E. unfold faithful_at. by rewrite E. Qed.

Lemma faithful_at_array sub (h : heap) l p len ps :
  h !! l = Some (OArray p len ps) ->
  faithful_at sub h (VRef l)
  = forallb (fun k => negb (bool_decide (k = proto_key)) && sub h (Get h l k))
            (forin_keys h l)
    && bool_decide (len = array_len 0 (forin_keys h l)).
Proof. intros E. unfold faithful_at. by rewrite E. Qed.

Lemma faithful_at_typed sub (h : heap) l c elems :
  h !! l = Some (OTypedArray c elems) ->
  faithful_at sub h (VRef l)
  = forallb (fun k => negb (bool_decide (k = proto_key)) && sub h (Get h l k))
            (forin_keys h l).
Proof. intros E. unfold faithful_at. by rewrite E. Qed.

Section Inert_strategies.

Variable dispatch : strategy.
Variables subi subf : list object -> val -> bool.
Hypothesis dispatch_ok : forall (h : heap) v,
  heap_ok h = true -> val_ok (length h) v = true -> outcome_ok h (dispatch h v).
Hypothesis subi_ext : forall (h ext : heap) v,
  heap_ok h = true -> val_ok (length h) v = true -> subi (h ++ ext) v = subi h v.
Hypothesis subf_ext : forall (h ext : heap) v,
  heap_ok h = true -> val_ok (length h) v = true -> subf (h ++ ext) v = subf h v.
Hypothesis subf_number : forall (h : heap) v (h' : heap) r,
  dispatch h v = Ret h' r -> forall (h2 : heap) z, subf h2 (VNumber z) = true.
Hypothesis dispatch_inert : forall (h : heap) v (h' : heap) r,
  heap_ok h = true -> val_ok (length h) v = true ->
  dispatch h v = Ret h' r -> subi h v = true -> subf h' r = true.

Lemma copied_faithful (h h1 hfin : heap) l k v :
  heap_ok h = true -> copied dispatch h h1 l k v -> h1 `prefix_of` hfin ->
  subi h (Get h l k) = true -> subf hfin v = true.
Proof.
  intros Hh (ha & hb & [ea ->] & _ & Hb1 & Hha & Hhb & Hd) Hfin Hi.
  pose proof (Get_ok h l k Hh) as Hv.
  assert (Hva : val_ok (length (h ++ ea)) (Get h l k) = true).
  { eapply val_ok_mono; [done|]. rewrite length_app. lia. }
  pose proof (dispatch_ok _ _ Hha Hva) as Hok. rewrite Hd in Hok.
  destruct Hok as (_ & _ & Hvr).
  assert (Hf : subf hb v = true).
  { eapply dispatch_inert; [exact Hha|exact Hva|exact Hd|]. by rewrite subi_ext. }
  assert (Hp : hb `prefix_of` hfin) by by etrans.
  destruct Hp as [e ->]. by rewrite subf_ext.
Qed.

Lemma keys_faithful (h h1 : heap) l vs o :
  heap_ok h = true ->
  forallb (fun k => negb (bool_decide (k = proto_key)) && subi h (Get h l k))
          (forin_keys h l) = true ->
  Forall2 (copied dispatch h h1 l) (forin_keys h l) vs ->
  (forall k v, assoc k (new_props (forin_keys h l) vs) = Some (mkProp v true) ->
               Get (h1 ++ [o]) (length h1) k = v) ->
  forallb (fun k => negb (bool_decide (k = proto_key))
                    && subf (h1 ++ [o]) (Get (h1 ++ [o]) (length h1) k))
          (order_keys (forin_keys h l)) = true.
Proof.
  intros Hh Hks Hall Hget. rewrite forallb_forall in *.
  intros k Hk%list_elem_of_In. rewrite order_keys_perm in Hk.
  pose proof (Hks k (proj1 (list_elem_of_In _ _) Hk)) as Hkk.
  apply andb_true_iff in Hkk as [Hnp Hi]. rewrite Hnp. simpl.
  destruct (assoc_new_props _ _ _ k Hall Hk) as (v & Ev & Hc).
  rewrite (Hget k v Ev).
  eapply copied_faithful; [done|exact Hc|by apply prefix_app_r|done].
Qed.

Lemma duplicateObject_inert (h h' : heap) l p ps r :
  heap_ok h = true -> h !! l = Some (OObject p ps) ->
  forallb (fun k => negb (bool_decide (k = proto_key)) && subi h (Get h l k))
          (forin_keys h l) = true ->
  duplicateObject dispatch h (VRef l) = Ret h' r ->
  faithful_at subf h' r = true.
Proof.
  intros Hh E Hks Hr. pose proof (lookup_lt_Some _ _ _ E) as Hl.
  destruct (duplicateObject_returns dispatch dispatch_ok h l h' r Hh Hl
              (forallb_no_proto _ _ Hks) Hr)
    as (h1 & vs & -> & -> & Hp & Hh1 & Hall).
  pose proof (Forall2_length _ _ _ Hall) as Hlen. symmetry in Hlen.
  pose (o := OObject PObjectPrototype (new_props (forin_keys h l) vs)).
  assert (Ekeys : forin_keys (h1 ++ [o]) (length h1) = order_keys (forin_keys h l)).
  { rewrite (forin_keys_own (h1 ++ [o]) (length h1) o);
      [by apply own_keys_new_props|apply lookup_snoc|done|].
    apply listing_object_NoDup; [done|apply forin_keys_NoDup]. }
  change (faithful_at subf (h1 ++ [o]) (VRef (length h1)) = true).
  rewrite (faithful_at_object subf _ _ _ _ (lookup_snoc h1 o)), Ekeys.
  eapply keys_faithful; try done.
  intros k v Ev. by rewrite (Get_snoc_own _ o k _ Ev).
Qed.

Lemma duplicateArray_inert (h h' : heap) l p len ps r :
  heap_ok h = true -> h !! l = Some (OArray p len ps) ->
  forallb (fun k => negb (bool_decide (k = proto_key)) && subi h (Get h l k))
          (forin_keys h l) = true ->
  duplicateArray dispatch h (VRef l) = Ret h' r ->
  faithful_at subf h' r = true.
Proof.
  intros Hh E Hks Hr.
  destruct (duplicateArray_returns dispatch dispatch_ok h l p len ps h' r Hh E
              (forallb_no_proto _ _ Hks) Hr)
    as (h1 & vs & -> & -> & Hp & Hh1 & Hall).
  pose proof (Forall2_length _ _ _ Hall) as Hlen. symmetry in Hlen.
  pose proof (forin_keys_array_no_length h l _ _ _ E) as Hnl.
  pose (o := OArray PArrayPrototype (array_len 0 (forin_keys h l))
                    (new_props (forin_keys h l) vs)).
  assert (Ekeys : forin_keys (h1 ++ [o]) (length h1) = order_keys (forin_keys h l)).
  { rewrite (forin_keys_own (h1 ++ [o]) (length h1) o); [|apply lookup_snoc|done|].
    - unfold o. rewrite own_keys_array. by apply own_keys_new_props.
    - apply listing_array_NoDup; [done|apply forin_keys_NoDup|done]. }
  change (faithful_at subf (h1 ++ [o]) (VRef (length h1)) = true).
  rewrite (faithful_at_array subf _ _ _ _ _ (lookup_snoc h1 o)), Ekeys.
  apply andb_true_iff. split.
  - eapply keys_faithful; try done.
    intros k v Ev. rewrite (Get_snoc_own _ o k (mkProp v true)); [done|].
    simpl. destruct (decide (k = length_key)) as [->|]; [|done].
    assert (Hin : length_key ∈ (new_props (forin_keys h l) vs).*1).
    { clear -Ev. induction (new_props (forin_keys h l) vs) as [|[k' p'] ps' IH];
        [done|]. simpl in *. destruct (decide (length_key = k')) as [<-|]; [left|].
      right. by apply IH. }
    rewrite keys_new_props in Hin by done. done.
  - apply bool_decide_eq_true. apply array_len_perm. by rewrite order_keys_perm.
Qed.

Lemma duplicateTypedArray_inert c (h h' : heap) l elems r :
  heap_ok h = true -> h !! l = Some (OTypedArray c elems) ->
  forallb (fun k => negb (bool_decide (k = proto_key)) && subi h (Get h l k))
          (forin_keys h l) = true ->
  duplicateTypedArray dispatch c h (VRef l) = Ret h' r ->
  faithful_at subf h' r = true.
Proof.
  intros Hh E Hks. pose proof (lookup_lt_Some _ _ _ E) as Hl.
  unfold duplicateTypedArray. rewrite E.
  destruct (copy_keys dispatch h l _ (forin_keys h l)) as [h1 o|] eqn:Ec; [|done].
  simpl. intros [= <- <-].
  destruct (copy_keys_inv dispatch dispatch_ok h l
              (OTypedArray c (replicate (length elems) 0%Z)) _ _ _ Hh Hl eq_refl
              ltac:(done) (forallb_no_proto _ _ Hks) Ec) as (vs & Hall & Ea).
  destruct (assign_all_typed_kind _ _ _ _ Ea) as (es' & -> & Hlen).
  rewrite length_replicate in Hlen.
  rewrite (faithful_at_typed subf _ _ _ _ (lookup_snoc h1 (OTypedArray c es'))).
  rewrite (forin_keys_typed _ _ c es' (lookup_snoc _ _)).
  rewrite forallb_forall. intros k Hk%list_elem_of_In.
  apply list_elem_of_fmap in Hk as (i & -> & Hi). apply elem_of_seq in Hi.
  simpl. destruct (lookup_lt_is_Some_2 es' i) as [z Ez]; [lia|].
  rewrite (Get_typed _ _ c es' i z (lookup_snoc _ _) Ez).
  rewrite (forin_keys_typed h l c elems E) in Hall.
  destruct elems as [|z0 elems]; [simpl in *; lia|].
  inversion Hall as [|k0 v0 ks0 vs0 (ha & hb & _ & _ & _ & _ & _ & Hd) _]; subst.
  by eapply subf_number.
Qed.


Ltac inert_alloc E :=
  rewrite ?E; intros [= <- <-]; unfold faithful_at; by rewrite lookup_snoc.

Lemma strategy_inert (h h' : heap) v r :
  heap_ok h = true -> val_ok (length h) v = true -> inert_at subi h v = true ->
  match lookup dispatch (typeOf h v) with
  | Some f => f h v
  | None => Throw h (TypeError_not_a_function (typeOf h v))
  end = Ret h' r ->
  faithful_at subf h' r = true.
Proof.
  intros Hh Hv Hi. destruct v as [| | | | | |l]; try (by intros [= <- <-]).
  unfold inert_at in Hi. simpl. apply bool_decide_eq_true in Hv.
  destruct (lookup_lt_is_Some_2 h l Hv) as [o E]. rewrite E in *.
  destruct o; try done; cbn [object_tag lookup _duplicate].
  - by eapply duplicateObject_inert.
  - by eapply duplicateArray_inert.
  - unfold duplicateError. rewrite E.
    destruct (new_Error _ _) as [newErr|] eqn:En; [|done].
    apply new_Error_inv in En as (m' & -> & Hm). intros [= <- <-].
    unfold faithful_at. rewrite lookup_snoc. simpl.
    by destruct Hm as [->|[s ->]].
  - unfold duplicateRegExp. inert_alloc E.
  - unfold duplicateDate. inert_alloc E.
  - unfold duplicateMapType. inert_alloc E.
  - unfold duplicateMapType. by rewrite E.
  - unfold duplicateSetType. inert_alloc E.
  - unfold duplicateSetType. by rewrite E.
  - destruct k; by eapply duplicateTypedArray_inert.
  - unfold duplicateArrayBuffer. rewrite E, (Get_arraybuffer_length h l bytes E).
    inert_alloc E.
  - unfold duplicateDataView. rewrite E.
    destruct (h !! buffer) as [[]|] eqn:Eb; try done.
    destruct (_ <=? _)%nat eqn:Ebound; [|done]. intros [= <- <-].
    unfold faithful_at. rewrite lookup_snoc.
    by rewrite (lookup_app_l_Some _ _ _ _ Eb).
  - destruct k; try done;
      try (intros [= <- <-]; unfold faithful_at; by rewrite E).
    cbn [object_tag lookup _duplicate].
    destruct (Object_prototype name) as [m|] eqn:Em; [|done].
    destruct m; simpl; try done; intros [= <- <-]; try done.
    + unfold faithful_at. rewrite E. by apply bool_decide_eq_true.
    + unfold faithful_at. rewrite lookup_snoc.
      rewrite (forin_keys_own _ _ (OObject PObjectPrototype []) (lookup_snoc _ _));
        [done|done|apply NoDup_nil_2].
Qed.


End Inert_strategies.

Lemma faithful_number depth (h : heap) z : faithful depth h (VNumber z) = true.
Proof. by destruct depth. Qed.

Lemma duplicate_inert depth (h h' : heap) v r :
  heap_ok h = true -> val_ok (length h) v = true -> inert depth h v = true ->
  duplicate depth h v = Ret h' r -> faithful depth h' r = true.
Proof.
  revert h h' v r. induction depth as [|depth IH]; intros h h' v r Hh Hv Hi;
    rewrite duplicate_eq; simpl in Hi |- *.
  - by eapply (strategy_inert overflow (fun _ _ => true) (fun _ _ => false)).
  - eapply (strategy_inert (duplicate depth) (inert depth) (faithful depth));
      try done.
    + apply duplicate_ok.
    + intros. by apply inert_ext.
    + intros. by apply faithful_ext.
    + intros. apply faithful_number.
    + intros ? ? ? ? ? ? ? ?. by eapply IH.
Qed.

(** ** Duplicating a duplicate *)




(** ** Relocation: basic facts *)

Lemma shift_loc_ok n m l : l < n -> shift_loc n m l = l.
Proof. intros H. unfold shift_loc. by rewrite bool_decide_eq_true_2. Qed.

Lemma shift_loc_fresh n m l : n <= l -> shift_loc n m l = l + m.
Proof. intros H. unfold shift_loc. rewrite bool_decide_eq_false_2; [done|lia]. Qed.

Lemma shift_loc_add n a b l :
  shift_loc n a (shift_loc n b l) = shift_loc n (b + a) l.
Proof.
  destruct (decide (l < n)).
  - by rewrite (shift_loc_ok n b l), (shift_loc_ok n a l), (shift_loc_ok n (b + a) l).
  - rewrite (shift_loc_fresh n b), (shift_loc_fresh n (b + a)) by lia.
    rewrite shift_loc_fresh by lia. lia.
Qed.

Lemma shift_val_ok n m v : val_ok n v = true -> shift_val n m v = v.
Proof.
  destruct v; simpl; try done. intros H%bool_decide_eq_true.
  by rewrite shift_loc_ok.
Qed.

Lemma shift_val_add n a b v :
  shift_val n a (shift_val n b v) = shift_val n (b + a) v.
Proof. destruct v; simpl; try done. by rewrite shift_loc_add. Qed.

Lemma fmap_id_on {A} (f : A -> A) (P : A -> bool) (l : list A) :
  (forall x, P x = true -> f x = x) -> forallb P l = true -> f <$> l = l.
Proof.
  intros Hf. induction l as [|x l IH]; [done|].
  intros H. simpl in H. apply andb_true_iff in H as [Hx Hl].
  rewrite fmap_cons, Hf by done. f_equal. by apply IH.
Qed.

Lemma chain_ok_proto_ok f (h : heap) p :
  chain_ok f h p = true -> forall m, shift_proto (length h) m p = p.
Proof.
  intros H m. destruct p; try done. simpl. rewrite shift_loc_ok; [done|].
  destruct f; simpl in H; [done|].
  destruct (h !! l) eqn:E; [|done]. by eapply lookup_lt_Some.
Qed.

Lemma shift_object_ok f (h : heap) o m :
  object_ok f h o = true -> shift_object (length h) m o = o.
Proof.
  intros Ho. destruct o; cbn [object_ok] in Ho; simpl; try done;
    repeat match goal with
    | H : _ && _ = true |- _ => apply andb_true_iff in H; destruct H
    end.
  - f_equal; [by eapply chain_ok_proto_ok|].
    eapply fmap_id_on; [|eassumption]. intros [k [v e]] Hv. simpl in *.
    unfold shift_prop. simpl. by rewrite shift_val_ok.
  - f_equal; [by eapply chain_ok_proto_ok|].
    eapply fmap_id_on; [|eassumption]. intros [k [v e]] Hv. simpl in *.
    unfold shift_prop. simpl. by rewrite shift_val_ok.
  - f_equal.
    + destruct name; simpl in *; [|done]. by rewrite shift_val_ok.
    + eapply fmap_id_on; [|eassumption]. intros [k v] Hv. simpl in *.
      by rewrite shift_val_ok.
  - f_equal. eapply fmap_id_on; [|eassumption]. intros [k v] Hv. simpl in *.
    apply andb_true_iff in Hv as [H1 H2]. by rewrite !shift_val_ok.
  - f_equal. eapply fmap_id_on; [|eassumption]. intros [k v] Hv. simpl in *.
    apply andb_true_iff in Hv as [H1 H2]. by rewrite !shift_val_ok.
  - f_equal. eapply fmap_id_on; [|eassumption]. intros v Hv. by rewrite shift_val_ok.
  - f_equal. eapply fmap_id_on; [|eassumption]. intros v Hv. by rewrite shift_val_ok.
  - f_equal.
    + destruct follows; simpl in *; [|done].
      rewrite shift_loc_ok; [done|]. by eapply bool_decide_eq_true_1.
    + destruct st; simpl in *; try done; by rewrite shift_val_ok.
  - rewrite shift_loc_ok; [done|]. by apply bool_decide_eq_true in Ho.
Qed.

Lemma shift_object_add n a b o :
  shift_object n a (shift_object n b o) = shift_object n (b + a) o.
Proof.
  assert (Hp : forall p, shift_proto n a (shift_proto n b p) = shift_proto n (b + a) p).
  { intros []; simpl; try done. by rewrite shift_loc_add. }
  assert (Hps : forall ps, shift_props n a (shift_props n b ps) = shift_props n (b + a) ps).
  { intros ps. unfold shift_props. rewrite <- list_fmap_compose.
    apply list_fmap_ext. intros _ [k [v e]] _. simpl. unfold shift_prop. simpl.
    by rewrite shift_val_add. }
  destruct o; simpl; try done; rewrite ?Hp, ?Hps; try done.
  - f_equal.
    + destruct name; simpl; [|done]. by rewrite shift_val_add.
    + rewrite <- list_fmap_compose. apply list_fmap_ext. intros _ [k v] _. simpl.
      by rewrite shift_val_add.
  - f_equal. rewrite <- list_fmap_compose. apply list_fmap_ext. intros _ [k v] _.
    simpl. by rewrite !shift_val_add.
  - f_equal. rewrite <- list_fmap_compose. apply list_fmap_ext. intros _ [k v] _.
    simpl. by rewrite !shift_val_add.
  - f_equal. rewrite <- list_fmap_compose. apply list_fmap_ext. intros _ v _.
    simpl. by rewrite shift_val_add.
  - f_equal. rewrite <- list_fmap_compose. apply list_fmap_ext. intros _ v _.
    simpl. by rewrite shift_val_add.
  - f_equal.
    + destruct follows; simpl; [|done]. by rewrite shift_loc_add.
    + destruct st; simpl; try done; by rewrite shift_val_add.
  - by rewrite shift_loc_add.
Qed.

Lemma shift_heap_add n a b (h : heap) :
  shift_heap n a (shift_heap n b h) = shift_heap n (b + a) h.
Proof.
  unfold shift_heap. rewrite <- list_fmap_compose. apply list_fmap_ext.
  intros _ o _. simpl. apply shift_object_add.
Qed.

Lemma shift_heap_app n m (h1 h2 : heap) :
  shift_heap n m (h1 ++ h2) = shift_heap n m h1 ++ shift_heap n m h2.
Proof. apply fmap_app. Qed.

Lemma length_shift_heap n m (h : heap) : length (shift_heap n m h) = length h.
Proof. apply length_fmap. Qed.

(** The heap of the second world holds the objects of the first, moved. *)
Lemma related_worlds (h X Y : heap) :
  heap_ok h = true ->
  related (length h) (length X) (h ++ Y)
          (h ++ X ++ shift_heap (length h) (length X) Y).
Proof.
  intros Hh l o E. destruct (decide (l < length h)) as [Hl|Hl].
  - rewrite shift_loc_ok by done. rewrite lookup_app_l in E |- * by done.
    rewrite E. f_equal. symmetry. eapply shift_object_ok.
    by eapply heap_ok_lookup.
  - rewrite shift_loc_fresh by lia. rewrite lookup_app_r in E by lia.
    rewrite lookup_app_r by lia. rewrite lookup_app_r by lia.
    replace (l + length X - length h - length X) with (l - length h) by lia.
    unfold shift_heap. by rewrite list_lookup_fmap, E.
Qed.

(** ** Assignment commutes with relocation *)

Lemma assoc_shift_props n m k (ps : props) :
  assoc k (shift_props n m ps) = shift_prop n m <$> assoc k ps.
Proof.
  induction ps as [|[k' p] ps IH]; simpl; [done|].
  by destruct (decide (k = k')).
Qed.

Lemma put_shift_props n m k v (ps : props) :
  shift_props n m (put k v ps) = put k (shift_val n m v) (shift_props n m ps).
Proof.
  induction ps as [|[k' p] ps IH]; simpl; [done|].
  destruct (decide (k = k')); simpl; [done|]. by rewrite <- IH.
Qed.

Lemma filter_shift_props n m b (ps : props) :
  shift_props n m (filter (below b) ps) = filter (below b) (shift_props n m ps).
Proof.
  induction ps as [|[k p] ps IH]; [done|].
  unfold shift_props in *. rewrite fmap_cons. simpl.
  destruct (decide (below b (k, p))) as [Hb|Hb].
  - rewrite filter_cons_True by done. rewrite (filter_cons_True (below b)) by done.
    rewrite fmap_cons. simpl. by rewrite IH.
  - rewrite filter_cons_False by done. by rewrite (filter_cons_False (below b)).
Qed.

Lemma own_lookup_shift n m o k :
  own_lookup (shift_object n m o) k = shift_prop n m <$> own_lookup o k.
Proof.
  destruct o; simpl; try done; try apply assoc_shift_props.
  - destruct (decide (k = length_key)); [done|]. apply assoc_shift_props.
  - destruct k; [|done]. by destruct (elems !! i).
Qed.

Lemma proto_of_shift n m o :
  proto_of (shift_object n m o) = shift_proto n m (proto_of o).
Proof. by destruct o. Qed.

Lemma proto_setter_from_shift n m (HA HB : heap) f f' p :
  related n m HA HB -> chain_ok f HA p = true -> f <= f' ->
  proto_setter_from f' HB (shift_proto n m p) = proto_setter_from f HA p.
Proof.
  intros Hrel. revert f' p.
  induction f as [|f IH]; intros f' p; destruct p; simpl; try done;
    try (destruct f'; done).
  intros H Hle. destruct f' as [|f']; [lia|]. simpl.
  destruct (HA !! l) as [o|] eqn:E; [|done].
  rewrite (Hrel l o E), own_lookup_shift.
  destruct (own_lookup o proto_key); [done|]. simpl.
  rewrite proto_of_shift. apply IH; [done|lia].
Qed.

Lemma inherited_set_shift n m (HA HB : heap) f f' p k :
  related n m HA HB -> chain_ok f HA p = true -> f <= f' ->
  inherited_set f' HB (shift_proto n m p) k = inherited_set f HA p k.
Proof.
  intros Hrel. revert f' p.
  induction f as [|f IH]; intros f' p; destruct p; simpl; try done;
    try (destruct f'; done).
  intros H Hle. destruct f' as [|f']; [lia|]. simpl.
  destruct (HA !! l) as [o|] eqn:E; [|done].
  rewrite (Hrel l o E), own_lookup_shift.
  destruct (own_lookup o k); [done|]. simpl.
  assert (past_the_end (shift_object n m o) k = past_the_end o k) as ->
    by by destruct o.
  assert (read_only (shift_object n m o) k = read_only o k) as ->
    by by destruct o.
  rewrite proto_of_shift. rewrite (IH f' (proto_of o)); [done|done|lia].
Qed.

Lemma set_own_shift n m (HA HB : heap) p ps k v :
  related n m HA HB -> length HA <= length HB ->
  chain_ok (S (length HA)) HA p = true ->
  set_own HB (shift_proto n m p) (shift_props n m ps) k (shift_val n m v)
  = sum_map (option_map (shift_props n m)) id (set_own HA p ps k v).
Proof.
  intros Hrel Hlen Hp. unfold set_own. rewrite assoc_shift_props.
  rewrite (inherited_set_shift n m HA HB (S (length HA))); [|done..|lia].
  generalize (inherited_set (S (length HA)) HA p k). intros e.
  destruct (assoc k ps), e; simpl; by rewrite ?put_shift_props.
Qed.

Lemma set_proto_shift n m p v :
  shift_proto n m (set_proto p v) = set_proto (shift_proto n m p) (shift_val n m v).
Proof. by destruct v. Qed.

Lemma assign_shift n m (HA HB : heap) target k v :
  related n m HA HB -> length HA <= length HB ->
  object_ok (S (length HA)) HA target = true ->
  assign HB (shift_object n m target) k (shift_val n m v)
  = sum_map (shift_object n m) id (assign HA target k v).
Proof.
  intros Hrel Hlen Ht.
  assert (Hap : forall p ps, chain_ok (S (length HA)) HA p = true ->
    assigns_proto HB (shift_proto n m p) (shift_props n m ps) k
    = assigns_proto HA p ps k).
  { intros p ps Hp. unfold assigns_proto. rewrite assoc_shift_props.
    rewrite (proto_setter_from_shift n m HA HB (S (length HA))); [|done..|lia].
    f_equal. f_equal. by destruct (assoc k ps). }
  destruct target; simpl; try done.
  - apply andb_true_iff in Ht as [Hp _]. rewrite Hap by done.
    destruct (assigns_proto HA p ps k); simpl.
    + by rewrite set_proto_shift.
    + rewrite (set_own_shift n m HA HB) by done.
      by destruct (set_own HA p ps k v) as [[ps'|]|e].
  - apply andb_true_iff in Ht as [Hp _]. rewrite Hap by done.
    destruct (assigns_proto HA p ps k); simpl.
    { by rewrite set_proto_shift. }
    destruct (decide (k = length_key)).
    + destruct v; simpl; try done.
      destruct (decide (0 <= z < 2 ^ 32)%Z); simpl; [|done].
      by rewrite filter_shift_props.
    + rewrite (set_own_shift n m HA HB) by done.
      by destruct (set_own HA p ps k v) as [[ps'|]|e].
  - by destruct k, v.
Qed.

(** ** A loop in two worlds *)

Lemma world_length (h X Y : heap) :
  length (X ++ shift_heap (length h) (length X) Y) = length Y + length X.
Proof. rewrite length_app, length_shift_heap. lia. Qed.

Lemma world_heap (h X Y c : heap) :
  h ++ (X ++ shift_heap (length h) (length X) Y)
    ++ shift_heap (length h) (length (X ++ shift_heap (length h) (length X) Y)) c
  = h ++ X ++ shift_heap (length h) (length X)
                (drop (length h) (h ++ Y ++ shift_heap (length h) (length Y) c)).
Proof.
  rewrite drop_app_length, world_length, shift_heap_app, shift_heap_add.
  by rewrite <- !app_assoc.
Qed.

Lemma world_val (h X Y : heap) s :
  shift_val (length h) (length (X ++ shift_heap (length h) (length X) Y)) s
  = shift_val (length h) (length X) (shift_val (length h) (length Y) s).
Proof. by rewrite world_length, shift_val_add. Qed.

Lemma relocate_throw (h X : heap) e :
  Throw (h ++ X) e = relocate h X (Throw h e).
Proof. simpl. by rewrite drop_all, app_nil_r. Qed.

Lemma relocate_ret (h X : heap) v :
  val_ok (length h) v = true -> Ret (h ++ X) v = relocate h X (Ret h v).
Proof. intros Hv. simpl. by rewrite drop_all, app_nil_r, shift_val_ok. Qed.

Lemma alloc_shift f (h X : heap) o :
  object_ok f h o = true -> alloc (h ++ X) o = relocate h X (alloc h o).
Proof.
  intros Ho. unfold alloc. cbn [relocate shift_val].
  rewrite drop_app_length, shift_loc_fresh by lia.
  unfold shift_heap. simpl. rewrite (shift_object_ok f h o) by done.
  rewrite length_app. by rewrite <- !app_assoc.
Qed.

Lemma finish_shift (h X Y : heap) o :
  finish (relocate_built h X (Built (h ++ Y) o))
  = relocate h X (finish (Built (h ++ Y) o)).
Proof.
  unfold finish, relocate_built, relocate, alloc. cbn [shift_val].
  rewrite drop_app_length. rewrite <- (app_assoc h Y [o]), drop_app_length.
  rewrite shift_heap_app. rewrite shift_loc_fresh by (rewrite length_app; lia).
  f_equal.
  - by rewrite <- !app_assoc.
  - f_equal. rewrite !length_app, length_shift_heap. lia.
Qed.

Ltac shift_strategy h v :=
  let l := fresh "l" in
  let o := fresh "o" in
  let E := fresh "E" in
  intros Hh Hv; destruct v as [| | | | | |l]; try apply relocate_throw;
  pose proof (proj1 (bool_decide_eq_true _) Hv) as Hl;
  rewrite (lookup_app_l h) by done;
  destruct (h !! l) as [o|] eqn:E; [|apply relocate_throw];
  pose proof (heap_ok_lookup h l o Hh E) as Ho;
  destruct o; try apply relocate_throw.

Lemma duplicateFunction_shift (h X : heap) v :
  heap_ok h = true -> val_ok (length h) v = true ->
  duplicateFunction (h ++ X) v = relocate h X (duplicateFunction h v).
Proof.
  unfold duplicateFunction. shift_strategy h v.
  destruct parses; [by apply (alloc_shift 0)|apply relocate_throw].
Qed.

Lemma duplicateError_shift (h X : heap) v :
  heap_ok h = true -> val_ok (length h) v = true ->
  duplicateError (h ++ X) v = relocate h X (duplicateError h v).
Proof.
  unfold duplicateError. shift_strategy h v.
  destruct (new_Error _ _) as [newErr|e] eqn:En; [|apply relocate_throw].
  apply new_Error_inv in En as (m' & -> & _).
  apply (alloc_shift 0). cbn in *. rewrite andb_true_r.
  apply andb_true_iff in Ho as [Ho _]. by destruct name.
Qed.

Lemma duplicateRegExp_shift (h X : heap) v :
  heap_ok h = true -> val_ok (length h) v = true ->
  duplicateRegExp (h ++ X) v = relocate h X (duplicateRegExp h v).
Proof. unfold duplicateRegExp. shift_strategy h v. by apply (alloc_shift 0). Qed.

Lemma duplicateDate_shift (h X : heap) v :
  heap_ok h = true -> val_ok (length h) v = true ->
  duplicateDate (h ++ X) v = relocate h X (duplicateDate h v).
Proof. unfold duplicateDate. shift_strategy h v. by apply (alloc_shift 0). Qed.

Lemma duplicateMapType_shift c (h X : heap) v :
  heap_ok h = true -> val_ok (length h) v = true ->
  duplicateMapType c (h ++ X) v = relocate h X (duplicateMapType c h v).
Proof.
  unfold duplicateMapType. shift_strategy h v.
  assert (Hnd : NoDup entries.*1).
  { cbn in Ho. apply andb_true_iff in Ho as [_ Ho]. by apply bool_decide_eq_true in Ho. }
  rewrite (map_set_fold [] entries Hnd). simpl.
  destruct c; [by apply (alloc_shift 0)|].
  destruct (forallb _ entries); [by apply (alloc_shift 0)|apply relocate_throw].
Qed.

Lemma duplicateSetType_shift c (h X : heap) v :
  heap_ok h = true -> val_ok (length h) v = true ->
  duplicateSetType c (h ++ X) v = relocate h X (duplicateSetType c h v).
Proof.
  unfold duplicateSetType. shift_strategy h v.
  assert (Hnd : NoDup elems).
  { cbn in Ho. apply andb_true_iff in Ho as [_ Ho]. by apply bool_decide_eq_true in Ho. }
  rewrite (set_add_fold [] elems Hnd). simpl.
  destruct c; [by apply (alloc_shift 0)|].
  destruct (forallb _ elems); [by apply (alloc_shift 0)|apply relocate_throw].
Qed.

Lemma duplicatePromise_shift (h X : heap) v :
  heap_ok h = true -> val_ok (length h) v = true ->
  duplicatePromise (h ++ X) v = relocate h X (duplicatePromise h v).
Proof.
  unfold duplicatePromise. shift_strategy h v.
  apply (alloc_shift 0). cbn. by rewrite andb_true_r.
Qed.

Lemma duplicateArrayBuffer_shift (h X : heap) v :
  heap_ok h = true -> val_ok (length h) v = true ->
  duplicateArrayBuffer (h ++ X) v = relocate h X (duplicateArrayBuffer h v).
Proof.
  unfold duplicateArrayBuffer. shift_strategy h v.
  rewrite Get_ext by done. by apply (alloc_shift 0).
Qed.

Lemma duplicateDataView_shift (h X : heap) v :
  heap_ok h = true -> val_ok (length h) v = true ->
  duplicateDataView (h ++ X) v = relocate h X (duplicateDataView h v).
Proof.
  unfold duplicateDataView. shift_strategy h v.
  cbn in Ho. rewrite (lookup_app_l h) by (by apply bool_decide_eq_true in Ho).
  destruct (h !! buffer) as [[]|] eqn:Eb; try apply relocate_throw.
  destruct (_ <=? _)%nat; [|apply relocate_throw]. by apply (alloc_shift 0).
Qed.


Section Relocation.

Variable dispatch : strategy.
Hypothesis dispatch_ok : forall (h : heap) v,
  heap_ok h = true -> val_ok (length h) v = true -> outcome_ok h (dispatch h v).
Hypothesis dispatch_shift : forall (h X : heap) v,
  heap_ok h = true -> val_ok (length h) v = true ->
  dispatch (h ++ X) v = relocate h X (dispatch h v).

Lemma copy_keys_shift (h X Y : heap) l target ks :
  heap_ok h = true -> heap_ok (h ++ Y) = true -> l < length h ->
  object_ok (S (length (h ++ Y))) (h ++ Y) target = true ->
  copy_keys dispatch (h ++ X ++ shift_heap (length h) (length X) Y) l
            (shift_object (length h) (length X) target) ks
  = relocate_built h X (copy_keys dispatch (h ++ Y) l target ks).
Proof.
  intros Hh. revert Y target.
  induction ks as [|k ks IH]; intros Y target HhY Hl Ht.
  { simpl. by rewrite drop_app_length. }
  cbn [copy_keys].
  rewrite (Get_ext h Y), (Get_ext h (X ++ _)) by done.
  pose proof (Get_ok h l k Hh) as Hv.
  rewrite (dispatch_shift h Y), (dispatch_shift h (X ++ _)) by done.
  pose proof (dispatch_ok h _ Hh Hv) as Hok.
  pose proof (dispatch_ok (h ++ Y) (Get h l k) HhY) as HokY.
  rewrite (dispatch_shift h Y) in HokY by done.
  destruct (dispatch h (Get h l k)) as [hc s|hc e]; simpl in Hok.
  - destruct Hok as ([c ->] & _ & _). cbn [relocate]. rewrite drop_app_length.
    rewrite world_val.
    replace (h ++ (X ++ shift_heap (length h) (length X) Y)
               ++ shift_heap (length h)
                    (length (X ++ shift_heap (length h) (length X) Y)) c)
      with (h ++ X ++ shift_heap (length h) (length X)
                        (Y ++ shift_heap (length h) (length Y) c)).
    2:{ rewrite world_heap. by rewrite drop_app_length. }
    set (Y1 := Y ++ shift_heap (length h) (length Y) c) in *.
    set (sA := shift_val (length h) (length Y) s) in *.
    destruct HokY as (_ & HhY1 & HsA).
    { eapply val_ok_mono; [done|]. rewrite length_app. lia. }
    rewrite drop_app_length in HhY1, HsA. fold Y1 in HhY1, HsA.
    assert (Ht1 : object_ok (S (length (h ++ Y1))) (h ++ Y1) target = true).
    { unfold Y1. rewrite app_assoc. eapply object_ok_ext; [done|].
      rewrite !length_app. lia. }
    rewrite (assign_shift (length h) (length X) (h ++ Y1)); [|by apply related_worlds| |done].
    2:{ rewrite !length_app, length_shift_heap. lia. }
    destruct (assign (h ++ Y1) target k sA) as [t1|e] eqn:Ea; simpl.
    + apply IH; [done|done|]. by eapply assign_ok.
    + by rewrite drop_app_length.
  - destruct Hok as ([c ->] & _). cbn [relocate relocate_built].
    rewrite !drop_app_length. f_equal.
    rewrite world_heap. by rewrite drop_app_length.
Qed.

Lemma loop_shift (h X : heap) l target :
  heap_ok h = true -> l < length h ->
  object_ok (S (length h)) h target = true ->
  finish (copy_keys dispatch (h ++ X) l target (forin_keys (h ++ X) l))
  = relocate h X (finish (copy_keys dispatch h l target (forin_keys h l))).
Proof.
  intros Hh Hl Ht. rewrite forin_keys_ext by done.
  pose proof (copy_keys_shift h X [] l target (forin_keys h l)) as Hs.
  rewrite (shift_object_ok _ h target) in Hs by done.
  simpl in Hs. rewrite !app_nil_r in Hs. rewrite Hs by done.
  pose proof (copy_keys_ok dispatch dispatch_ok h l target (forin_keys h l) Hh Ht) as Hb.
  destruct (copy_keys dispatch h l target (forin_keys h l)) as [h1 o|h1 e];
    destruct Hb as ([Y ->] & _).
  - apply finish_shift.
  - done.
Qed.

Lemma duplicateObject_shift (h X : heap) v :
  heap_ok h = true -> val_ok (length h) v = true ->
  duplicateObject dispatch (h ++ X) v = relocate h X (duplicateObject dispatch h v).
Proof.
  intros Hh Hv. destruct v as [| | | | | |l]; try apply relocate_throw.
  apply bool_decide_eq_true in Hv. by apply loop_shift.
Qed.

Lemma duplicateArray_shift (h X : heap) v :
  heap_ok h = true -> val_ok (length h) v = true ->
  duplicateArray dispatch (h ++ X) v = relocate h X (duplicateArray dispatch h v).
Proof.
  intros Hh Hv. destruct v as [| | | | | |l]; try apply relocate_throw.
  apply bool_decide_eq_true in Hv. by apply loop_shift.
Qed.

Lemma duplicateTypedArray_shift c (h X : heap) v :
  heap_ok h = true -> val_ok (length h) v = true ->
  duplicateTypedArray dispatch c (h ++ X) v
  = relocate h X (duplicateTypedArray dispatch c h v).
Proof.
  unfold duplicateTypedArray. shift_strategy h v. by apply loop_shift.
Qed.

Lemma table_shift t f (h X : heap) v :
  _duplicate dispatch t = Some f ->
  heap_ok h = true -> val_ok (length h) v = true ->
  f (h ++ X) v = relocate h X (f h v).
Proof.
  destruct t; intros [= <-] Hh Hv;
    auto using relocate_ret, duplicateFunction_shift, duplicateError_shift,
      duplicateRegExp_shift, duplicateDate_shift, duplicateObject_shift,
      duplicateArray_shift, duplicateMapType_shift, duplicateSetType_shift,
      duplicatePromise_shift, duplicateTypedArray_shift,
      duplicateArrayBuffer_shift, duplicateDataView_shift.
Qed.

Lemma inherited_shift m f (h X : heap) v :
  inherited m = Some f ->
  heap_ok h = true -> val_ok (length h) v = true ->
  f (h ++ X) v = relocate h X (f h v).
Proof.
  intros Hm Hh Hv. destruct m; simplify_eq/=;
    try (by apply relocate_ret); try apply relocate_throw.
  - destruct v; try apply relocate_throw. by apply relocate_ret.
  - by apply (alloc_shift 0).
Qed.

Lemma lookup_shift t f (h X : heap) v :
  lookup dispatch t = Some f ->
  heap_ok h = true -> val_ok (length h) v = true ->
  f (h ++ X) v = relocate h X (f h v).
Proof.
  intros [E|(_ & name & m & _ & _ & E)]%lookup_cases;
    [by eapply table_shift|by eapply inherited_shift].
Qed.

End Relocation.

(** The outcome of a call does not depend on the other objects of the
    heap: with further objects [X] in the heap at entry, the call does the
    same and allocates the same objects, placed behind [X]. *)
Lemma duplicate_shift depth (h X : heap) v :
  heap_ok h = true -> val_ok (length h) v = true ->
  duplicate depth (h ++ X) v = relocate h X (duplicate depth h v).
Proof.
  revert h X v. induction depth as [|depth IH]; intros h X v Hh Hv;
    rewrite !duplicate_eq, typeOf_ext by done.
  - assert (E : lookup (nested 0) (typeOf h v) = lookup overflow (typeOf h v))
      by done.
    destruct (lookup overflow (typeOf h v)) as [f|] eqn:Ef;
      simpl in E |- *; rewrite ?Ef; [|apply relocate_throw].
    eapply lookup_shift; [apply overflow_ok| |exact Ef|done|done].
    intros. apply relocate_throw.
  - destruct (lookup (nested (S depth)) (typeOf h v)) as [f|] eqn:Ef;
      [|apply relocate_throw].
    eapply lookup_shift; [apply duplicate_ok|apply IH|exact Ef|done|done].
Qed.

(** ** Reactions

    What a call registers on the promises of the heap it is entered with
    is read off the objects it allocates. *)

Lemma reactions_from_app n (h ext : heap) l :
  reactions_from n (h ++ ext) l
  = reactions_from n h l ++ reactions_from (n + length h) ext l.
Proof.
  revert n. induction h as [|o h IH]; intros n; simpl.
  { by rewrite Nat.add_0_r. }
  rewrite IH. replace (S n + length h) with (n + S (length h)) by lia.
  by destruct (decide (origin o = Some l)).
Qed.

Lemma reactions_from_quiet n (ext : heap) l :
  quiet ext = true -> reactions_from n ext l = [].
Proof.
  revert n. induction ext as [|o ext IH]; intros n; simpl; [done|].
  intros [Ho Hq]%andb_true_iff. apply bool_decide_eq_true in Ho.
  rewrite Ho. destruct (decide (None = Some l)); [done|by apply IH].
Qed.

Lemma reactions_quiet (h ext : heap) l :
  quiet ext = true -> reactions (h ++ ext) l = reactions h l.
Proof.
  intros Hq. unfold reactions.
  by rewrite reactions_from_app, (reactions_from_quiet _ _ _ Hq), app_nil_r.
Qed.

Lemma quiet_app (a b : heap) : quiet (a ++ b) = quiet a && quiet b.
Proof. apply forallb_app. Qed.

Lemma promise_free_at_ext (sub : list object -> val -> bool) (h ext : heap) v :
  heap_ok h = true -> val_ok (length h) v = true ->
  (forall v', val_ok (length h) v' = true -> sub (h ++ ext) v' = sub h v') ->
  promise_free_at sub (h ++ ext) v = promise_free_at sub h v.
Proof.
  intros Hh Hv Hsub. destruct v as [| | | | | |l]; try done.
  apply bool_decide_eq_true in Hv. unfold promise_free_at.
  rewrite forin_keys_ext by done. rewrite lookup_app_l by done.
  assert (Hkeys :
    forallb (fun k => sub (h ++ ext) (Get (h ++ ext) l k)) (forin_keys h l)
    = forallb (fun k => sub h (Get h l k)) (forin_keys h l)).
  { apply forallb_ext_in. intros k _. rewrite Get_ext by done.
    rewrite Hsub; [done|]. by apply Get_ok. }
  by rewrite Hkeys.
Qed.

Lemma promise_free_ext depth (h ext : heap) v :
  heap_ok h = true -> val_ok (length h) v = true ->
  promise_free depth (h ++ ext) v = promise_free depth h v.
Proof.
  intros Hh. revert v. induction depth as [|depth IH]; intros v Hv; simpl;
    apply promise_free_at_ext; auto.
Qed.

Lemma assign_origin (h : heap) target k v target' :
  assign h target k v = inl target' -> origin target = None ->
  origin target' = None.
Proof.
  destruct target; simpl; try (by intros [= <-]); repeat case_match;
    by intros [= <-].
Qed.

Section Quiet.

Variable dispatch : strategy.
Variable sub : list object -> val -> bool.
Hypothesis dispatch_ok : forall (h : heap) v,
  heap_ok h = true -> val_ok (length h) v = true -> outcome_ok h (dispatch h v).
Hypothesis sub_ext : forall (h ext : heap) v,
  heap_ok h = true -> val_ok (length h) v = true -> sub (h ++ ext) v = sub h v.
Hypothesis dispatch_quiet : forall (h : heap) v,
  heap_ok h = true -> val_ok (length h) v = true -> sub h v = true ->
  quiet (drop (length h) (outcome_heap (dispatch h v))) = true.

Lemma copy_keys_quiet (h0 ext0 : heap) src target ks :
  heap_ok h0 = true -> src < length h0 -> heap_ok (h0 ++ ext0) = true ->
  object_ok (S (length (h0 ++ ext0))) (h0 ++ ext0) target = true ->
  origin target = None ->
  forallb (fun k => sub h0 (Get h0 src k)) ks = true ->
  quiet (drop (length (h0 ++ ext0))
              (built_heap (copy_keys dispatch (h0 ++ ext0) src target ks))) = true
  /\ forall h' o, copy_keys dispatch (h0 ++ ext0) src target ks = Built h' o ->
                  origin o = None.
Proof.
  intros Hh0 Hsrc. revert ext0 target.
  induction ks as [|k ks IH]; intros ext0 target Hh Ht Ho Hks; simpl.
  { rewrite drop_all. split; [done|]. by intros ? ? [= <- <-]. }
  apply andb_true_iff in Hks as [Hk Hks].
  rewrite Get_ext by done.
  pose proof (Get_ok h0 src k Hh0) as Hv0.
  assert (Hv : val_ok (length (h0 ++ ext0)) (Get h0 src k) = true).
  { eapply val_ok_mono; [done|]. rewrite length_app. lia. }
  pose proof (dispatch_ok _ _ Hh Hv) as Hd.
  pose proof (dispatch_quiet _ _ Hh Hv) as Hq.
  rewrite sub_ext in Hq by done. specialize (Hq Hk).
  destruct (dispatch (h0 ++ ext0) (Get h0 src k)) as [h1 v|h1 e] eqn:Ed.
  - destruct Hd as ([ext1 ->] & Hh1 & Hv1). simpl in Hq.
    rewrite drop_app_length in Hq.
    assert (Ht1 : object_ok (S (length ((h0 ++ ext0) ++ ext1)))
                            ((h0 ++ ext0) ++ ext1) target = true).
    { eapply object_ok_ext; [exact Ht|]. rewrite !length_app. lia. }
    destruct (assign ((h0 ++ ext0) ++ ext1) target k v) as [target'|e] eqn:Ea.
    + pose proof (assign_ok _ _ _ _ _ Hh1 Ht1 Hv1 Ea) as Ht'.
      pose proof (assign_origin _ _ _ _ _ Ea Ho) as Ho'.
      revert Hh1 Ht'. rewrite <- (app_assoc h0 ext0 ext1). intros Hh1 Ht'.
      destruct (IH (ext0 ++ ext1) target' Hh1 Ht' Ho' Hks) as [Hq2 Ho2].
      split; [|exact Ho2].
      pose proof (copy_keys_ok dispatch dispatch_ok _ src _ ks Hh1 Ht') as Hb.
      destruct (copy_keys dispatch (h0 ++ ext0 ++ ext1) src target' ks)
        as [h2 o|h2 e]; simpl in *; destruct Hb as ([ext2 ->] & _);
        rewrite drop_app_length in Hq2;
        rewrite (app_assoc h0 ext0 ext1), <- (app_assoc (h0 ++ ext0) ext1 ext2),
          drop_app_length, quiet_app, Hq, Hq2; done.
    + simpl. by rewrite drop_app_length.
  - destruct Hd as ([ext1 ->] & Hh1). simpl in *. split; [|done].
    exact Hq.
Qed.

Lemma finish_quiet (h : heap) l target :
  heap_ok h = true -> l < length h ->
  object_ok (S (length h)) h target = true -> origin target = None ->
  forallb (fun k => sub h (Get h l k)) (forin_keys h l) = true ->
  quiet (drop (length h)
              (outcome_heap (finish (copy_keys dispatch h l target (forin_keys h l)))))
  = true.
Proof.
  intros Hh Hl Ht Ho Hks.
  pose proof (copy_keys_quiet h [] l target (forin_keys h l)) as Hq.
  rewrite app_nil_r in Hq. destruct (Hq Hh Hl Hh Ht Ho Hks) as [Hq1 Hq2].
  pose proof (copy_keys_ok dispatch dispatch_ok h l target (forin_keys h l) Hh Ht)
    as Hb.
  destruct (copy_keys dispatch h l target (forin_keys h l)) as [h1 o|h1 e];
    simpl in *; [|done].
  destruct Hb as ([ext ->] & _). rewrite drop_app_length in Hq1.
  rewrite <- app_assoc, drop_app_length, quiet_app, Hq1. simpl.
  by rewrite (Hq2 _ _ eq_refl).
Qed.

Lemma lookup_quiet (h : heap) v :
  heap_ok h = true -> val_ok (length h) v = true ->
  promise_free_at sub h v = true ->
  quiet (drop (length h) (outcome_heap
    match lookup dispatch (typeOf h v) with
    | Some f => f h v
    | None => Throw h (TypeError_not_a_function (typeOf h v))
    end)) = true.
Proof.
  intros Hh Hv Hf.
  assert (Hnil : quiet (drop (length h) h) = true) by by rewrite drop_all.
  assert (Hsnoc : forall o, origin o = None ->
                            quiet (drop (length h) (h ++ [o])) = true).
  { intros o Ho. rewrite drop_app_length. simpl. by rewrite Ho. }
  destruct v as [| | | | | |l]; try done.
  unfold promise_free_at in Hf. simpl.
  pose proof (proj1 (bool_decide_eq_true _) Hv) as Hl.
  destruct (h !! l) as [o|] eqn:E; [|done].
  destruct o; try done; cbn [object_tag lookup _duplicate].
  - by apply finish_quiet.
  - by apply finish_quiet.
  - unfold duplicateError. rewrite E.
    destruct (new_Error _ _) as [newErr|e] eqn:En; [|done].
    apply new_Error_inv in En as (m' & -> & _). by apply Hsnoc.
  - destruct k; cbn [object_tag lookup _duplicate]; unfold duplicateFunction;
      rewrite E; destruct parses; try done; by apply Hsnoc.
  - unfold duplicateRegExp. rewrite E. by apply Hsnoc.
  - unfold duplicateDate. rewrite E. by apply Hsnoc.
  - unfold duplicateMapType. rewrite E. by apply Hsnoc.
  - unfold duplicateMapType. by rewrite E.
  - unfold duplicateSetType. rewrite E. by apply Hsnoc.
  - unfold duplicateSetType. by rewrite E.
  - destruct k; cbn [ta_tag lookup _duplicate]; unfold duplicateTypedArray;
      rewrite E; apply finish_quiet; try done.
  - unfold duplicateArrayBuffer. rewrite E. by apply Hsnoc.
  - unfold duplicateDataView. rewrite E. repeat case_match; try done.
    by apply Hsnoc.
  - destruct k; try done. cbn [object_tag lookup _duplicate].
    destruct (Object_prototype name) as [m|]; [|done].
    destruct m; simpl; try done. by apply Hsnoc.
Qed.

End Quiet.

(** A call that meets no promise registers no reaction. *)
Lemma duplicate_quiet depth (h : heap) v :
  heap_ok h = true -> val_ok (length h) v = true ->
  promise_free depth h v = true ->
  quiet (drop (length h) (outcome_heap (duplicate depth h v))) = true.
Proof.
  revert h v. induction depth as [|depth IH]; intros h v Hh Hv Hf;
    rewrite duplicate_eq; simpl in Hf.
  - apply (lookup_quiet overflow (fun _ _ => true) overflow_ok); [done| |done..].
    intros h0 v0 _ _ _. simpl. by rewrite drop_all.
  - apply (lookup_quiet (duplicate depth) (promise_free depth) (duplicate_ok depth));
      [|exact IH|done..].
    intros. by apply promise_free_ext.
Qed.


(** ** No side effect *)

(** C9 (as amended): a call of [duplicate] changes no object of the heap it
    is entered with, whether it returns or throws: the call only adds
    objects.  When it meets no promise, it registers nothing on the
    promises of that heap either: the input and everything reachable from
    it are as before.  A promise it is given gets one more reaction, the
    new promise, and is marked as handled; in any case the reactions a
    promise had are kept.  And the outcome of a call depends on the input
    alone: entered again after the first call, or with any other objects
    in the heap, it does the same, the objects it allocates being the same
    up to their location. *)
Theorem duplicate_no_side_effect depth (h : heap) v :
  heap_ok h = true -> val_ok (length h) v = true ->
  (forall l o, h !! l = Some o ->
               outcome_heap (duplicate depth h v) !! l = Some o)
  /\ (promise_free depth h v = true ->
      forall l, reactions (outcome_heap (duplicate depth h v)) l = reactions h l
                /\ PromiseIsHandled (outcome_heap (duplicate depth h v)) l
                   = PromiseIsHandled h l)
  /\ (forall l, reactions h l `prefix_of`
                  reactions (outcome_heap (duplicate depth h v)) l)
  /\ (forall l f st, v = VRef l -> h !! l = Some (OPromise f st) ->
        duplicate depth h v
        = Ret (h ++ [OPromise (Some l) Pending]) (VRef (length h))
        /\ reactions (h ++ [OPromise (Some l) Pending]) l
           = reactions h l ++ [length h]
        /\ PromiseIsHandled (h ++ [OPromise (Some l) Pending]) l = true)
  /\ (forall (h' : heap) r,
        duplicate depth h v = Ret h' r ->
        duplicate depth h' v
        = Ret (h' ++ shift_heap (length h) (length h' - length h)
                                (drop (length h) h'))
              (shift_val (length h) (length h' - length h) r))
  /\ (forall X : heap,
        duplicate depth (h ++ X) v = relocate h X (duplicate depth h v)).
Proof.
  intros Hh Hv. pose proof (duplicate_ok depth h v Hh Hv) as Hok.
  assert (Hext : exists ext, outcome_heap (duplicate depth h v) = h ++ ext).
  { destruct (duplicate depth h v); simpl in *; by destruct Hok as (Hp & _). }
  destruct Hext as [ext Eext].
  split; [|split; [|split; [|split; [|split]]]].
  - intros l o E. rewrite Eext. by apply lookup_app_l_Some.
  - intros Hf l. pose proof (duplicate_quiet depth h v Hh Hv Hf) as Hq.
    rewrite Eext, drop_app_length in Hq. rewrite Eext.
    unfold PromiseIsHandled. by rewrite (reactions_quiet h ext l Hq).
  - intros l. rewrite Eext. unfold reactions. rewrite reactions_from_app.
    by apply prefix_app_r.
  - intros l f st -> E.
    assert (Er : reactions (h ++ [OPromise (Some l) Pending]) l
                 = reactions h l ++ [length h]).
    { unfold reactions. rewrite reactions_from_app. simpl.
      by destruct (decide (Some l = Some l)). }
    split; [|split; [exact Er|]].
    + rewrite duplicate_eq. unfold typeOf. rewrite E. simpl. by rewrite E.
    + unfold PromiseIsHandled. rewrite Er. by destruct (reactions h l).
  - intros h' r Hr. rewrite Hr in Hok. destruct Hok as ([ext' ->] & _).
    rewrite (duplicate_shift depth h ext' v Hh Hv), Hr. simpl.
    rewrite drop_app_length, length_app.
    replace (length h + length ext' - length h) with (length ext') by lia.
    by rewrite <- app_assoc.
  - intros X. by apply duplicate_shift.
Qed.

Lemma duplicate_no_side_effect_witness :
  (forall l o, heap_method !! l = Some o ->
               outcome_heap (duplicate 1 heap_method (VRef 0)) !! l = Some o)
  /\ (forall l, reactions (outcome_heap (duplicate 1 heap_method (VRef 0))) l
                = reactions heap_method l
                /\ PromiseIsHandled (outcome_heap (duplicate 1 heap_method (VRef 0))) l
                   = PromiseIsHandled heap_method l)
  /\ (forall X : heap,
        duplicate 1 (heap_method ++ X) (VRef 0)
        = relocate heap_method X (duplicate 1 heap_method (VRef 0))).
Proof.
  destruct (duplicate_no_side_effect 1 heap_method (VRef 0) eq_refl eq_refl)
    as (H1 & H2 & _ & _ & _ & H6).
  split; [exact H1|]. split; [exact (H2 eq_refl)|exact H6].
Defined.

(** C9 does not hold as stated for every supported input: [then] registers
    a reaction on the promise it is called on.  A promise that no one has
    handled is handled after it has been duplicated, alone or as the value
    of a property, and holds one more reaction. *)
Lemma duplicate_no_side_effect_counterexample :
  supported (typeOf heap_promise (VRef 0)) = true
  /\ PromiseIsHandled heap_promise 0 = false
  /\ reactions heap_promise 0 = []
  /\ (exists h' r,
        duplicate 0 heap_promise (VRef 0) = Ret h' r
        /\ PromiseIsHandled h' 0 = true /\ reactions h' 0 = [2])
  /\ (exists h' r,
        duplicate 1 heap_promise (VRef 1) = Ret h' r
        /\ PromiseIsHandled h' 0 = true /\ reactions h' 0 = [2]).
Proof.
  repeat split; try (eexists _, _; split; [vm_compute; reflexivity|done]).
Qed.

(** * Further properties of the strategies *)

(** ** Strategies that do not recurse *)

(** X1: the objects the table maps to [identity] (Math, JSON, generator
    objects, WASM modules) are handed back as they are: the same
    reference, and no object is allocated. *)
Theorem duplicate_shared depth (h : heap) l k :
  h !! l = Some (OOpaque k) -> supported (object_tag (OOpaque k)) = true ->
  duplicate depth h (VRef l) = Ret h (VRef l).
Proof.
  intros E Hs. rewrite duplicate_eq. simpl. rewrite E.
  by destruct k.
Qed.

Lemma duplicate_shared_witness :
  duplicate 0 heap_builtins (VRef 4) = Ret heap_builtins (VRef 4).
Proof. apply (duplicate_shared 0 heap_builtins 4 Math_); reflexivity. Defined.

(** X2: a weak collection is never copied.  Its tag is a key of the table,
    but [new WeakMap(weakMap)] and [new WeakSet(weakSet)] iterate their
    argument, which a weak collection does not support: the call throws,
    whatever the stack, and allocates nothing. *)
Theorem duplicate_weak depth (h : heap) l o :
  h !! l = Some o -> object_tag o = WEAKMAP \/ object_tag o = WEAKSET ->
  supported (typeOf h (VRef l)) = true
  /\ duplicate depth h (VRef l) = Throw h TypeError_not_iterable.
Proof.
  intros E Ht. rewrite duplicate_eq. simpl. rewrite E.
  destruct Ht as [Ht|Ht]; rewrite Ht; simpl; rewrite E;
    destruct o as [| | | [] | | | | | | | | [] | | | []]; by simplify_eq/=.
Qed.

Lemma duplicate_weak_witness :
  supported (typeOf heap_builtins (VRef 5)) = true
  /\ duplicate 3 heap_builtins (VRef 5) = Throw heap_builtins TypeError_not_iterable.
Proof.
  apply (duplicate_weak 3 heap_builtins 5 (OWeakSet [])); [reflexivity|].
  right. reflexivity.
Defined.

(** X3: the copy of a date is a new date, at a fresh location, with the
    time value of the original, which stays as it is. *)
Theorem duplicate_date depth (h : heap) l tv :
  h !! l = Some (ODate tv) ->
  duplicate depth h (VRef l) = Ret (h ++ [ODate tv]) (VRef (length h))
  /\ length h <> l
  /\ (h ++ [ODate tv]) !! l = Some (ODate tv).
Proof.
  intros E. pose proof (lookup_lt_Some _ _ _ E).
  split; [|split; [lia|by apply lookup_app_l_Some]].
  rewrite duplicate_eq. simpl. rewrite E. simpl. by rewrite E.
Qed.

Lemma duplicate_date_witness :
  duplicate 0 heap_builtins (VRef 0) = Ret (heap_builtins ++ [ODate 0]) (VRef 6)
  /\ 6 <> 0
  /\ (heap_builtins ++ [ODate 0]) !! 0 = Some (ODate 0).
Proof. exact (duplicate_date 0 heap_builtins 0 0 eq_refl). Defined.

(** X4: the copy of a pattern is a new pattern with the source text and
    the flags of the original; the position of the last match is not
    copied, the new pattern starts at 0. *)
Theorem duplicate_regexp depth (h : heap) l source flags lastIndex :
  h !! l = Some (ORegExp source flags lastIndex) ->
  duplicate depth h (VRef l)
  = Ret (h ++ [ORegExp source flags 0]) (VRef (length h))
  /\ length h <> l.
Proof.
  intros E. pose proof (lookup_lt_Some _ _ _ E). split; [|lia].
  rewrite duplicate_eq. simpl. rewrite E. simpl. by rewrite E.
Qed.

Lemma duplicate_regexp_witness :
  duplicate 0 heap_builtins (VRef 1)
  = Ret (heap_builtins ++ [ORegExp "ab+" "g" 0]) (VRef 6)
  /\ 6 <> 1.
Proof. exact (duplicate_regexp 0 heap_builtins 1 "ab+" "g" 3 eq_refl). Defined.

(** X5: the copy of a view is a new view of the very same buffer, with the
    same offset and length: one object is allocated and the buffer is
    shared, not copied.  A view that reaches past the end of its buffer
    (the buffer was shrunk or detached) is not copied: reading its
    [byteOffset] throws a TypeError before the constructor is called. *)
Theorem duplicate_dataview depth (h : heap) l buffer byteOffset byteLength bytes :
  h !! l = Some (ODataView buffer byteOffset byteLength) ->
  h !! buffer = Some (OArrayBuffer bytes) ->
  (byteOffset + byteLength <= length bytes ->
     duplicate depth h (VRef l)
     = Ret (h ++ [ODataView buffer byteOffset byteLength]) (VRef (length h))
     /\ length h <> l /\ length h <> buffer)
  /\ (length bytes < byteOffset + byteLength ->
     duplicate depth h (VRef l) = Throw h TypeError_view_out_of_bounds).
Proof.
  intros E Eb. pose proof (lookup_lt_Some _ _ _ E). pose proof (lookup_lt_Some _ _ _ Eb).
  split; intros Hb; rewrite duplicate_eq; simpl; rewrite E; simpl; rewrite E, Eb.
  - apply Nat.leb_le in Hb. rewrite Hb. split; [done|lia].
  - apply Nat.leb_gt in Hb. by rewrite Hb.
Qed.

Lemma duplicate_dataview_witness :
  duplicate 0 heap_builtins (VRef 3)
  = Ret (heap_builtins ++ [ODataView 2 2 4]) (VRef 6)
  /\ 6 <> 3 /\ 6 <> 2.
Proof.
  apply (proj1 (duplicate_dataview 0 heap_builtins 3 2 2 4 (replicate 8 0%Z)
                  eq_refl eq_refl)).
  vm_compute. lia.
Defined.

(** ** Typed arrays *)

Lemma dup_values_typed d (h : heap) l c elems (es : list Z) j :
  h !! l = Some (OTypedArray c elems) ->
  (forall i z, es !! i = Some z -> elems !! (j + i) = Some z) ->
  dup_values (duplicate d) h l (KIdx <$> seq j (length es))
  = Some (h, VNumber <$> es).
Proof.
  intros E. revert j. induction es as [|z es IH]; intros j Hes; [done|].
  simpl. rewrite (Get_typed h l c elems j z E).
  2:{ rewrite <- (Nat.add_0_r j). by apply Hes. }
  rewrite duplicate_scalar by done.
  change (list_fmap nat key KIdx (seq (S j) (length es)))
    with (KIdx <$> seq (S j) (length es)).
  rewrite (IH (S j)); [done|].
  intros i z' Hi. replace (S j + i) with (j + S i) by lia. by apply Hes.
Qed.

Lemma proto_key_not_index j n : proto_key ∉ KIdx <$> seq j n.
Proof. by intros (i & ? & _)%list_elem_of_fmap. Qed.

(** X6: with room for one nested call, the copy of a typed array is a new
    typed array of the same element kind that holds the same elements; the
    nested calls, all on numbers, allocate nothing.  An empty typed array
    is copied even without room, and one with elements is not: the call
    for its first element overflows the stack. *)
Theorem duplicate_typed_array depth (h : heap) l c elems :
  h !! l = Some (OTypedArray c elems) ->
  duplicate (S depth) h (VRef l)
  = Ret (h ++ [OTypedArray c elems]) (VRef (length h))
  /\ length h <> l
  /\ (elems = [] ->
      duplicate 0 h (VRef l) = Ret (h ++ [OTypedArray c []]) (VRef (length h)))
  /\ (elems <> [] -> duplicate 0 h (VRef l) = Throw h RangeError_call_stack).
Proof.
  intros E. pose proof (lookup_lt_Some _ _ _ E).
  assert (Hrun : forall d,
    duplicate d h (VRef l)
    = finish (copy_keys (nested d) h l (OTypedArray c (replicate (length elems) 0%Z))
                        (KIdx <$> seq 0 (length elems)))).
  { intros d. rewrite duplicate_eq. simpl. rewrite E.
    destruct c; simpl; unfold duplicateTypedArray;
      by rewrite E, (forin_keys_typed h l _ elems E). }
  split; [|split; [lia|split]].
  - rewrite Hrun.
    rewrite (copy_keys_run (nested (S depth)) h l _ _ h (VNumber <$> elems)
               (OTypedArray c elems)); [done|apply proto_key_not_index|done| |].
    + by apply (dup_values_typed depth h l c elems elems 0).
    + apply (assign_all_typed c [] (replicate (length elems) 0%Z) elems).
      by rewrite length_replicate.
  - intros ->. by rewrite Hrun.
  - intros Hne. rewrite Hrun. destruct elems as [|z elems]; [done|]. done.
Qed.

Lemma duplicate_typed_array_witness :
  duplicate 1 heap_typed (VRef 0)
  = Ret (heap_typed ++ [OTypedArray Int16 [5%Z; (-7)%Z]]) (VRef 1)
  /\ 1 <> 0
  /\ ([5%Z; (-7)%Z] = [] ->
      duplicate 0 heap_typed (VRef 0)
      = Ret (heap_typed ++ [OTypedArray Int16 []]) (VRef 1))
  /\ ([5%Z; (-7)%Z] <> [] ->
      duplicate 0 heap_typed (VRef 0) = Throw heap_typed RangeError_call_stack).
Proof. exact (duplicate_typed_array 0 heap_typed 0 Int16 [5%Z; (-7)%Z] eq_refl). Defined.

(** ** Invariants of every call *)

(** X7: a call entered with a well-formed heap leaves a well-formed heap,
    whether it returns or throws: no reference dangles, prototype chains
    end, collections have distinct keys; the heap it leaves is the heap at
    entry, every object at its place, followed by the objects the call has
    allocated (among them the promises that follow a promise of the heap
    at entry); and a returned value points into it. *)
Theorem duplicate_well_formed depth (h : heap) v :
  heap_ok h = true -> val_ok (length h) v = true ->
  heap_ok (outcome_heap (duplicate depth h v)) = true
  /\ (exists new : heap, outcome_heap (duplicate depth h v) = h ++ new)
  /\ forall (h' : heap) r,
       duplicate depth h v = Ret h' r -> val_ok (length h') r = true.
Proof.
  intros Hh Hv. pose proof (duplicate_ok depth h v Hh Hv) as Hok.
  destruct (duplicate depth h v) as [h' r|h' e]; simpl in *.
  - destruct Hok as (Hp & Hh' & Hr). repeat split; [done|exact Hp|].
    by intros ? ? [= <- <-].
  - destruct Hok as (Hp & Hh'). repeat split; [done|exact Hp|done].
Qed.

Lemma duplicate_well_formed_witness :
  heap_ok (outcome_heap (duplicate 2 heap_nested (VRef 0))) = true
  /\ (exists new : heap,
        outcome_heap (duplicate 2 heap_nested (VRef 0)) = heap_nested ++ new)
  /\ forall (h' : heap) r,
       duplicate 2 heap_nested (VRef 0) = Ret h' r -> val_ok (length h') r = true.
Proof. exact (duplicate_well_formed 2 heap_nested (VRef 0) eq_refl eq_refl). Defined.

Lemma finish_fresh dispatch (h h' : heap) l target ks r :
  (forall (h : heap) v, heap_ok h = true -> val_ok (length h) v = true ->
                        outcome_ok h (dispatch h v)) ->
  heap_ok h = true -> object_ok (S (length h)) h target = true ->
  finish (copy_keys dispatch h l target ks) = Ret h' r ->
  exists b, r = VRef b /\ length h <= b /\ length h' = S b.
Proof.
  intros Hd Hh Ht Hr.
  pose proof (copy_keys_ok dispatch Hd h l target ks Hh Ht) as Hb.
  destruct (copy_keys dispatch h l target ks) as [h1 o|]; [|done].
  destruct Hb as ([ext ->] & _). injection Hr as <- <-.
  eexists. split; [done|]. rewrite !length_app. simpl. lia.
Qed.

Ltac fresh_alloc E :=
  rewrite ?E; repeat case_match; try done; intros [= <- <-];
  eexists; (split; [done|]); rewrite length_app; simpl; lia.



(** ** Copies that are deep-equal *)

Lemma faithful_at_copyable_at (sub sub' : list object -> val -> bool) (h : heap) v :
  (forall v', sub h v' = true -> sub' h v' = true) ->
  faithful_at sub h v = true -> copyable_at sub' h v = true.
Proof.
  intros Hsub. destruct v as [| | | | | |l]; try done.
  unfold faithful_at, copyable_at.
  assert (Hks :
    forallb (fun k => negb (bool_decide (k = proto_key)) && sub h (Get h l k))
            (forin_keys h l) = true ->
    forallb (fun k => negb (bool_decide (k = proto_key)) && sub' h (Get h l k))
            (forin_keys h l) = true).
  { apply forallb_impl. intros k [Hk Hs]%andb_true_iff.
    by rewrite Hk, (Hsub _ Hs). }
  destruct (h !! l) as [o|]; [|done]. destruct o; try done.
  - by intros [H1 _]%andb_true_iff; apply Hks.
  - by destruct message as [[]|].
  - destruct k; try done. by intros ->%bool_decide_eq_true.
Qed.

Lemma faithful_copyable depth (h : heap) v :
  faithful depth h v = true -> copyable depth h v = true.
Proof.
  revert v. induction depth as [|depth IH]; intros v; simpl;
    by apply faithful_at_copyable_at.
Qed.



(** ** Failures of nested calls *)

Lemma copy_keys_calls dispatch (h : heap) src target ks h' o :
  (forall (h : heap) v, heap_ok h = true -> val_ok (length h) v = true ->
                        outcome_ok h (dispatch h v)) ->
  heap_ok h = true -> src < length h ->
  object_ok (S (length h)) h target = true ->
  copy_keys dispatch h src target ks = Built h' o ->
  forall k, k ∈ ks -> exists v, copied dispatch h h' src k v.
Proof.
  intros Hd. revert h target.
  induction ks as [|k0 ks IH]; intros h target Hh Hsrc Ht; simpl.
  { by intros _ k ?%elem_of_nil. }
  pose proof (Hd h (Get h src k0) Hh (Get_ok h src k0 Hh)) as Hok.
  destruct (dispatch h (Get h src k0)) as [h1 v|h1 e] eqn:Ed; [|done].
  destruct Hok as ([ext ->] & Hh1 & Hv).
  assert (Ht1 : object_ok (S (length (h ++ ext))) (h ++ ext) target = true).
  { eapply object_ok_ext; [done|]. rewrite length_app. lia. }
  destruct (assign (h ++ ext) target k0 v) as [target'|e] eqn:Ea; [|done].
  intros Ec.
  pose proof (assign_ok _ _ _ _ _ Hh1 Ht1 Hv Ea) as Ht'.
  pose proof (copy_keys_ok dispatch Hd _ src _ ks Hh1 Ht') as Hb.
  rewrite Ec in Hb. destruct Hb as (Hp & Hh' & _).
  intros k [->|Hk]%elem_of_cons.
  - exists v, h, (h ++ ext). repeat split; try done. by apply prefix_app_r.
  - destruct (IH (h ++ ext) target') with (k := k) as (v' & Hc); try done.
    { rewrite length_app. lia. }
    exists v'. eapply copied_weaken; [done|done| |exact Hc]. by apply prefix_app_r.
Qed.

Lemma nested_shift depth (h X : heap) v :
  heap_ok h = true -> val_ok (length h) v = true ->
  nested depth (h ++ X) v = relocate h X (nested depth h v).
Proof.
  destruct depth; [intros; apply relocate_throw|apply duplicate_shift].
Qed.

Lemma is_ret_relocate (h X : heap) out : is_ret (relocate h X out) = is_ret out.
Proof. by destruct out. Qed.

Lemma loop_propagates depth (h : heap) l target k :
  heap_ok h = true -> l < length h ->
  object_ok (S (length h)) h target = true -> k ∈ forin_keys h l ->
  is_ret (nested depth h (Get h l k)) = false ->
  is_ret (finish (copy_keys (nested depth) h l target (forin_keys h l))) = false.
Proof.
  intros Hh Hl Ht Hk Hn.
  destruct (copy_keys (nested depth) h l target (forin_keys h l)) as [h' o|] eqn:Ec;
    [|done].
  destruct (copy_keys_calls (nested depth) h l target _ h' o (nested_ok depth)
              Hh Hl Ht Ec k Hk) as (v & h1 & h2 & [ext ->] & _ & _ & _ & _ & Hd).
  rewrite (nested_shift depth h ext (Get h l k) Hh (Get_ok h l k Hh)) in Hd.
  pose proof (is_ret_relocate h ext (nested depth h (Get h l k))) as Hr.
  rewrite Hd, Hn in Hr. done.
Qed.

Lemma child_propagates depth (h : heap) l v :
  heap_ok h = true -> child h l v ->
  is_ret (nested depth h v) = false ->
  is_ret (duplicate depth h (VRef l)) = false.
Proof.
  intros Hh (Ht & k & Hk & <-) Hn. rewrite duplicate_eq.
  assert (Hl : l < length h).
  { destruct (h !! l) eqn:E; [by eapply lookup_lt_Some|].
    simpl in Ht. rewrite E in Ht. by destruct Ht. }
  destruct Ht as [-> | ->]; simpl; by apply (loop_propagates depth h l _ k).
Qed.

Lemma nesting_overflows depth (h : heap) v :
  heap_ok h = true -> nesting h (S depth) v ->
  is_ret (duplicate depth h v) = false.
Proof.
  intros Hh. revert v. induction depth as [|depth IH]; intros v Hn;
    inversion Hn as [|n a w Hc Hw]; subst;
    apply (child_propagates _ h a w Hh Hc).
  - done.
  - by apply IH.
Qed.

(** X10: a failure below is a failure of the whole: when the nested call
    for the value under one of the keys for-in lists does not return, the
    copy of the plain object or array does not return either; nothing is
    caught, skipped or replaced. *)
Theorem duplicate_propagates depth (h : heap) l v :
  heap_ok h = true -> child h l v ->
  is_ret (nested depth h v) = false ->
  is_ret (duplicate depth h (VRef l)) = false.
Proof. apply child_propagates. Qed.

Lemma duplicate_propagates_witness :
  is_ret (duplicate 5 [OObject PNull [(KStr "w", enum (VRef 1))]; OWeakMap []]
                    (VRef 0)) = false.
Proof.
  apply (duplicate_propagates 5 _ 0 (VRef 1)).
  - reflexivity.
  - split; [by left|]. exists (KStr "w"). split; [vm_compute; left|reflexivity].
  - reflexivity.
Defined.

(** X11: the stack a copy needs grows with the nesting of the input: an
    input under which a chain of [depth + 1] nested values starts is not
    copied by a call that has room for [depth] nested calls only. *)
Theorem duplicate_needs_stack depth (h : heap) v :
  heap_ok h = true -> nesting h (S depth) v ->
  is_ret (duplicate depth h v) = false.
Proof. apply nesting_overflows. Qed.

Lemma duplicate_needs_stack_witness :
  is_ret (duplicate 1 heap_nested (VRef 0)) = false.
Proof.
  apply duplicate_needs_stack; [reflexivity|].
  apply (nesting_S _ 1 0 (VRef 1)).
  { split; [by left|]. exists (KStr "b"). split; [vm_compute; right; left|reflexivity]. }
  apply (nesting_S _ 0 1 (VNumber 2)); [|apply nesting_O].
  split; [by left|]. exists (KStr "c"). split; [vm_compute; left|reflexivity].
Defined.

Lemma nesting_shorter (h : heap) n v : nesting h (S n) v -> nesting h n v.
Proof.
  revert v. induction n as [|n IH]; intros v Hn; [apply nesting_O|].
  inversion Hn as [|n' a w Hc Hw]; subst. eapply nesting_S; [done|by apply IH].
Qed.

Lemma nesting_le (h : heap) n m v : n <= m -> nesting h m v -> nesting h n v.
Proof.
  induction 1 as [|m Hle IH]; [done|]. intros Hm. by apply IH, nesting_shorter.
Qed.

Lemma nesting_reaches (h : heap) a b n :
  reaches h a b -> nesting h n (VRef b) -> exists m, n < m /\ nesting h m (VRef a).
Proof.
  intros Hr Hn. induction Hr as [a b Hc|a c b Hc Hr IH].
  - exists (S n). split; [lia|]. by eapply nesting_S.
  - destruct (IH Hn) as (m & Hm & Hnm). exists (S m). split; [lia|].
    by eapply nesting_S.
Qed.

(** X12: there is no guard against cycles: an object that is nested in
    itself, directly or through other objects and arrays, is never copied,
    however much stack there is. *)
Theorem duplicate_cyclic depth (h : heap) a :
  heap_ok h = true -> reaches h a a ->
  is_ret (duplicate depth h (VRef a)) = false.
Proof.
  intros Hh Hr. apply nesting_overflows; [done|].
  assert (Hall : forall n, exists m, n <= m /\ nesting h m (VRef a)).
  { induction n as [|n (m & Hm & Hnm)]; [exists 0; split; [lia|apply nesting_O]|].
    destruct (nesting_reaches h a a m Hr Hnm) as (m' & Hm' & Hnm').
    exists m'. split; [lia|done]. }
  destruct (Hall (S depth)) as (m & Hm & Hnm). by eapply nesting_le.
Qed.

Lemma duplicate_cyclic_witness :
  is_ret (duplicate 100 heap_cyclic_array (VRef 0)) = false.
Proof.
  apply duplicate_cyclic; [reflexivity|].
  apply tc_once. split; [by right|].
  exists (KIdx 0). split; [vm_compute; left|reflexivity].
Defined.

(** ** More stack *)

Section More_stack.

Variables dispatch1 dispatch2 : strategy.
Hypothesis dispatch_more : forall (h : heap) v (h' : heap) r,
  dispatch1 h v = Ret h' r -> dispatch2 h v = Ret h' r.

Lemma copy_keys_more (h : heap) src target ks h' o :
  copy_keys dispatch1 h src target ks = Built h' o ->
  copy_keys dispatch2 h src target ks = Built h' o.
Proof.
  revert h target. induction ks as [|k ks IH]; intros h target; simpl; [done|].
  destruct (dispatch1 h (Get h src k)) as [h1 v|] eqn:Ed; [|done].
  rewrite (dispatch_more _ _ _ _ Ed).
  destruct (assign h1 target k v); [apply IH|done].
Qed.

Lemma finish_more (h : heap) src target ks h' r :
  finish (copy_keys dispatch1 h src target ks) = Ret h' r ->
  finish (copy_keys dispatch2 h src target ks) = Ret h' r.
Proof.
  destruct (copy_keys dispatch1 h src target ks) as [h1 o|] eqn:Ec; [|done].
  by rewrite (copy_keys_more _ _ _ _ _ _ Ec).
Qed.

Lemma table_more t (h : heap) v (h' : heap) r :
  match lookup dispatch1 t with
  | Some f => f h v
  | None => Throw h (TypeError_not_a_function t)
  end = Ret h' r ->
  match lookup dispatch2 t with
  | Some f => f h v
  | None => Throw h (TypeError_not_a_function t)
  end = Ret h' r.
Proof.
  destruct t; try done; cbn [lookup _duplicate]; try done;
    unfold duplicateObject, duplicateArray, duplicateTypedArray;
    repeat case_match; try done; apply finish_more.
Qed.

End More_stack.

(** X13: the stack only decides whether a copy is made, not what it is:
    when [duplicate] returns with room for [depth] nested calls, it returns
    the same value and the same heap with any more room. *)
Theorem duplicate_more_stack depth depth' (h h' : heap) v r :
  depth <= depth' -> duplicate depth h v = Ret h' r ->
  duplicate depth' h v = Ret h' r.
Proof.
  assert (Hstep : forall d (h : heap) v (h' : heap) r,
    duplicate d h v = Ret h' r -> duplicate (S d) h v = Ret h' r).
  { induction d as [|d IH]; intros h0 v0 h0' r0; rewrite !duplicate_eq;
      apply table_more; [done|exact IH]. }
  induction 1 as [|d Hle IH]; [done|]. intros Hr. by apply Hstep, IH.
Qed.

Lemma duplicate_more_stack_witness :
  duplicate 7 heap_array (VRef 0)
  = Ret (heap_array
         ++ [OArray PArrayPrototype 2
               [(KIdx 0, enum (VNumber 2)); (KIdx 1, enum (VNumber 3))];
             OArray PArrayPrototype 2
               [(KIdx 0, enum (VNumber 1)); (KIdx 1, enum (VRef 2))]])
        (VRef 3).
Proof.
  apply (duplicate_more_stack 2 7); [lia|]. vm_compute. reflexivity.
Defined.

(** ** Nothing to enumerate *)

(** X14: a plain object or an array on which for-in lists no key is copied
    to a new empty object or to a new empty array of length 0, with no
    nested call, hence with any stack: properties that are not enumerable
    are not copied, and an array made of holes only loses its length. *)
Theorem duplicate_no_keys depth (h : heap) l o :
  h !! l = Some o -> forin_keys h l = [] ->
  (object_tag o = OBJECT ->
     duplicate depth h (VRef l)
     = Ret (h ++ [OObject PObjectPrototype []]) (VRef (length h)))
  /\ (object_tag o = ARRAY ->
     duplicate depth h (VRef l)
     = Ret (h ++ [OArray PArrayPrototype 0 []]) (VRef (length h))).
Proof.
  intros E Hks.
  split; intros Ht; rewrite duplicate_eq; simpl; rewrite E, Ht; simpl;
    by rewrite Hks.
Qed.

Lemma duplicate_no_keys_witness :
  duplicate 0 heap_holes (VRef 0)
  = Ret (heap_holes ++ [OArray PArrayPrototype 0 []]) (VRef 2)
  /\ duplicate 0 heap_holes (VRef 1)
     = Ret (heap_holes ++ [OObject PObjectPrototype []]) (VRef 2).
Proof.
  split.
  - apply (proj2 (duplicate_no_keys 0 heap_holes 0 _ eq_refl eq_refl)). reflexivity.
  - apply (proj1 (duplicate_no_keys 0 heap_holes 1 _ eq_refl eq_refl)). reflexivity.
Defined.

(** ** The errors of a call *)

Definition safe_target (target : object) (ks : list key) : Prop :=
  match target with
  | OArray _ _ _ => length_key ∉ ks
  | _ => True
  end.

Lemma set_own_error (h : heap) p ps k v e :
  set_own h p ps k v = inr e -> e = TypeError_read_only.
Proof. unfold set_own. repeat case_match; by intros [= <-]. Qed.

Lemma assign_safe (h : heap) target k ks v :
  safe_target target (k :: ks) ->
  match assign h target k v with
  | inl target' => safe_target target' ks
  | inr e => e = TypeError_read_only
  end.
Proof.
  intros Hs. destruct target; simpl in *; try done.
  - destruct (assigns_proto h p ps k); [done|].
    destruct (set_own h p ps k v) as [[ps'|]|e] eqn:Es; try done.
    by eapply set_own_error.
  - apply not_elem_of_cons in Hs as [Hk Hks].
    destruct (assigns_proto h p ps k); [done|].
    destruct (decide (k = length_key)); [congruence|].
    destruct (set_own h p ps k v) as [[ps'|]|e] eqn:Es; try done.
    by eapply set_own_error.
  - by destruct k, v.
Qed.

Lemma lookup_None_inherits dispatch t :
  lookup dispatch t = None -> supported t = false /\ inherits t = false.
Proof.
  intros E. split; [by eapply supported_None, lookup_None|].
  unfold lookup, inherits in *.
  destruct (_duplicate dispatch t); [done|]. destruct t; try done.
  by rewrite E.
Qed.

Section Expected_errors.

Variable dispatch : strategy.
Hypothesis dispatch_expected : forall (h : heap) v (h' : heap) e,
  dispatch h v = Throw h' e -> expected_error e = true.

Lemma copy_keys_expected (h : heap) src target ks h' e :
  safe_target target ks ->
  copy_keys dispatch h src target ks = Failed h' e -> expected_error e = true.
Proof.
  revert h target. induction ks as [|k ks IH]; intros h target Hs; simpl; [done|].
  destruct (dispatch h (Get h src k)) as [h1 v|h1 e1] eqn:Ed.
  - pose proof (assign_safe h1 target k ks v Hs) as Ha.
    destruct (assign h1 target k v) as [target'|e'].
    + by apply IH.
    + by intros [= <- <-]; subst.
  - intros [= <- <-]. by eapply dispatch_expected.
Qed.

Lemma finish_expected (h : heap) src target ks h' e :
  safe_target target ks ->
  finish (copy_keys dispatch h src target ks) = Throw h' e ->
  expected_error e = true.
Proof.
  intros Hs. destruct (copy_keys dispatch h src target ks) eqn:Ec; [done|].
  intros [= <- <-]. by eapply copy_keys_expected.
Qed.

Lemma lookup_expected (h : heap) v (h' : heap) e :
  match lookup dispatch (typeOf h v) with
  | Some f => f h v
  | None => Throw h (TypeError_not_a_function (typeOf h v))
  end = Throw h' e ->
  expected_error e = true.
Proof.
  destruct v as [| | | | | |l]; try done. simpl.
  destruct (h !! l) as [o|] eqn:E; [|done].
  destruct o; cbn [object_tag lookup _duplicate].
  - by apply finish_expected.
  - apply finish_expected. by eapply forin_keys_array_no_length.
  - unfold duplicateError. rewrite E.
    destruct message as [[]|]; simpl; try destruct b; try done;
      by intros [= <- <-].
  - destruct k; simpl; unfold duplicateFunction; rewrite E;
      destruct parses; try done; by intros [= <- <-].
  - unfold duplicateRegExp. by rewrite E.
  - unfold duplicateDate. by rewrite E.
  - unfold duplicateMapType. by rewrite E.
  - unfold duplicateMapType. rewrite E. by intros [= <- <-].
  - unfold duplicateSetType. by rewrite E.
  - unfold duplicateSetType. rewrite E. by intros [= <- <-].
  - unfold duplicatePromise. by rewrite E.
  - destruct k; simpl; unfold duplicateTypedArray; rewrite E;
      by apply finish_expected.
  - unfold duplicateArrayBuffer. by rewrite E.
  - unfold duplicateDataView. rewrite E. repeat case_match; try done;
      by intros [= <- <-].
  - destruct k; try done. cbn [object_tag lookup _duplicate].
    destruct (Object_prototype name ≫= inherited) as [f|] eqn:Ef.
    + destruct (Object_prototype name) as [m|]; [|done]. simpl in Ef.
      destruct m; simplify_eq/=; try done; by intros [= <- <-].
    + intros [= <- <-]. simpl. unfold inherits. by rewrite Ef.
Qed.

End Expected_errors.


